(** * discord-exporter: the bounded-concurrency collection pipeline

    A shallow embedding of the exporter's [main] package: configuration
    parsing, channel filtering, per-channel pagination, the worker pool of
    [updateMessageCount], metric publication and the collection loop of
    [startMetricsCollector].

    Conventions.
    - Go [string]s are byte strings ([String.string]).
    - Go [int] values that hold slice lengths and their sums are taken in [Z]:
      a total only ever adds page lengths, at most 100 per request, so it
      stays far inside the range of [int] for every run that can be carried
      out ([loop_total_bound]).
    - An [error] is its message; [nil] is [None].
    - A gauge holds [float64(count)]; the model stores the count itself, which
      the conversion represents exactly below 2^53.
    - Remote calls go through a [Session]: an oracle over an explicit state
      of the remote platform.
    - Loops that need not end take a number of passes ([fuel]) and give [None]
      when they are still running after them.

    The development follows the form of the package that has the worker pool
    ([processChannel], [maxConcurrentChannels]). The single-loop form in
    src/main.go, which has no configuration file, no [countChannelMessages]
    and no pool, is modelled in [Legacy], for comparison. *)

From Stdlib Require Import ZArith NArith Ascii String List Lia.
From stdpp Require Import base tactics option list gmap strings fin_maps sets relations.

#[local] Set Warnings "-clear-no-such-hyp".

Local Open Scope string_scope.
Local Open Scope Z_scope.
Local Open Scope list_scope.

(** ** The part of Go's [strings] package that the exporter calls *)

Module GoStrings.

(** [strings.Split(s, sep)] for a one-byte separator: the substrings between
    the occurrences of [sep]; a string holding [n] separators gives [n+1]
    pieces, and the empty string gives the empty string as its single piece. *)
Fixpoint Split (s : string) (sep : ascii) : list string :=
  match s with
  | EmptyString => [EmptyString]
  | String c rest =>
      if decide (c = sep) then EmptyString :: Split rest sep
      else match Split rest sep with
           | piece :: pieces => String c piece :: pieces
           | [] => [String c EmptyString]
           end
  end.

(** The six ASCII bytes of Go's [asciiSpace] table: tab, line feed, vertical
    tab, form feed, carriage return, space. *)
Definition asciiSpace (a : ascii) : bool :=
  let c := N_of_ascii a in
  ((c =? 9) || (c =? 10) || (c =? 11) || (c =? 12) || (c =? 13) || (c =? 32))%N.

(** UTF-8 encodings of the remaining code points of [unicode.IsSpace]:
    U+0085 and U+00A0 (two bytes) ... *)
Definition space2 (a b : ascii) : bool :=
  let x := N_of_ascii a in
  let y := N_of_ascii b in
  ((x =? 194) && ((y =? 133) || (y =? 160)))%N.

(** ... and U+1680, U+2000..U+200A, U+2028, U+2029, U+202F, U+205F,
    U+3000 (three bytes). *)
Definition space3 (a b c : ascii) : bool :=
  let x := N_of_ascii a in
  let y := N_of_ascii b in
  let z := N_of_ascii c in
  (((x =? 225) && (y =? 154) && (z =? 128))
   || ((x =? 226) && (y =? 128)
       && (((128 <=? z) && (z <=? 138)) || (z =? 168) || (z =? 169) || (z =? 175)))
   || ((x =? 226) && (y =? 129) && (z =? 159))
   || ((x =? 227) && (y =? 128) && (z =? 128)))%N.

(** Drop the white-space runes at the front of [s]. A byte sequence that is
    not the encoding of a white-space rune (also an invalid one, which Go
    decodes to U+FFFD) stops the scan. *)
Fixpoint TrimLeftSpace (s : string) : string :=
  match s with
  | EmptyString => EmptyString
  | String a s1 =>
      if asciiSpace a then TrimLeftSpace s1
      else match s1 with
           | EmptyString => s
           | String b s2 =>
               if space2 a b then TrimLeftSpace s2
               else match s2 with
                    | EmptyString => s
                    | String c s3 =>
                        if space3 a b c then TrimLeftSpace s3 else s
                    end
           end
  end.

(** The same scan from the end; [r] is the string reversed, so an encoding
    is met last byte first. *)
Fixpoint TrimLeftSpaceRev (r : string) : string :=
  match r with
  | EmptyString => EmptyString
  | String a r1 =>
      if asciiSpace a then TrimLeftSpaceRev r1
      else match r1 with
           | EmptyString => r
           | String b r2 =>
               if space2 b a then TrimLeftSpaceRev r2
               else match r2 with
                    | EmptyString => r
                    | String c r3 =>
                        if space3 c b a then TrimLeftSpaceRev r3 else r
                    end
           end
  end.

Definition TrimRightSpace (s : string) : string :=
  String.rev (TrimLeftSpaceRev (String.rev s)).

(** [strings.TrimSpace(s)]: [s] without its leading and trailing white
    space, as defined by Unicode. *)
Definition TrimSpace (s : string) : string :=
  TrimRightSpace (TrimLeftSpace s).

End GoStrings.

(** ** Data of the exporter and of the client library *)

(** A Go [error] value that is not [nil], by its message. *)
Definition error : Type := string.

(** The [(value, err)] pair of a remote call, which every caller tests with
    [err != nil] before it touches the value. *)
Inductive Result (A : Type) : Type :=
| Ok (a : A)
| Err (e : error).
Arguments Ok {A} a.
Arguments Err {A} e.

(** [discordgo.ChannelType] is an [int]; [ChannelTypeGuildText] is 0, voice
    channels are 2, categories 4. *)
Definition ChannelTypeGuildText : Z := 0.
Definition ChannelTypeGuildVoice : Z := 2.
Definition ChannelTypeGuildCategory : Z := 4.

(** The fields of [discordgo.Channel], [discordgo.Message] and
    [discordgo.Member] that the exporter reads. *)
Record Channel : Type := mkChannel {
  ID : string;
  Name : string;
  Type_ : Z
}.

Record Message : Type := mkMessage { MessageID : string }.

Record Member : Type := mkMember { UserID : string }.

#[global] Instance Channel_eq_dec : EqDecision Channel.
Proof. solve_decision. Defined.

(** [Config]: the [map[string]struct{}] of excluded names is a finite map to
    the one-element type. *)
Record Config : Type := mkConfig {
  Token : string;
  ServerID : string;
  ExcludedChannels : gmap string ()
}.

(** Constants of the source. *)
Definition maxMembersPerRequest : Z := 1000.
Definition maxMessagesPerRequest : Z := 100.
Definition maxConcurrentChannels : nat := 5.

(** [time.Duration] counts nanoseconds: [15 * time.Minute]. *)
Definition Minute : Z := 60 * 1000000000.
Definition defaultUpdateInterval : Z := 15 * Minute.

(** [channelCountResult] *)
Record channelCountResult : Type := mkResult {
  channelName : string;
  count : Z;
  err : option error
}.

(** One line written through the [log] package, by call site. *)
Inductive LogEntry : Type :=
| LogFailedMembers (e : error)
| LogMemberCount (n : Z)
| LogFailedChannels (e : error)
| LogSkipping (name : string)
| LogNoActive
| LogProcessing (n : Z) (workers : Z)
| LogFailedCount (name : string) (e : error)
| LogChannel (name : string) (n : Z)
| LogCompleted (successCount errorCount : Z)
| LogFailedConfig (e : error)
| LogConfigLoaded (serverID : string)
| LogExcludedCount (n : Z)
| LogFailedSession (e : error)
| LogSessionCreated
| LogFailedServer (e : error).

(** Whether the process is alive. [log.Fatalf] writes its line and then calls
    [os.Exit(1)]. *)
Inductive ProcStatus : Type :=
| Running
| Exited (code : Z).

(** The three calls made on a [*discordgo.Session], over the state [σ] of the
    remote platform (and of the transport below the exporter). *)
Record Session (σ : Type) : Type := mkSession {
  GuildMembers : string → string → Z → σ → Result (list Member) * σ;
  GuildChannels : string → σ → Result (list Channel) * σ;
  ChannelMessages :
    string → Z → string → string → string → σ → Result (list Message) * σ
}.
Arguments GuildMembers {σ} _ _ _ _ _.
Arguments GuildChannels {σ} _ _ _.
Arguments ChannelMessages {σ} _ _ _ _ _ _ _.

(** What a collection cycle reads and writes: the remote platform, the two
    registered gauges, the log, and the status of the process. *)
Record World (σ : Type) : Type := mkWorld {
  upstream : σ;
  memberCountGauge : Z;
  messageCountGauge : gmap string Z;
  log : list LogEntry;
  status : ProcStatus
}.
Arguments mkWorld {σ} _ _ _ _ _.
Arguments upstream {σ} _.
Arguments memberCountGauge {σ} _.
Arguments messageCountGauge {σ} _.
Arguments log {σ} _.
Arguments status {σ} _.

Section WorldOps.
Context {σ : Type}.

Definition set_upstream (s : σ) (w : World σ) : World σ :=
  mkWorld s (memberCountGauge w) (messageCountGauge w) (log w) (status w).

(** [log.Printf] / [log.Println] *)
Definition log_Printf (e : LogEntry) (w : World σ) : World σ :=
  mkWorld (upstream w) (memberCountGauge w) (messageCountGauge w)
          (log w ++ [e]) (status w).

(** [log.Fatalf] *)
Definition log_Fatalf (e : LogEntry) (w : World σ) : World σ :=
  mkWorld (upstream w) (memberCountGauge w) (messageCountGauge w)
          (log w ++ [e]) (Exited 1).

(** [memberCountGauge.Set(float64(n))] *)
Definition memberCountGauge_Set (n : Z) (w : World σ) : World σ :=
  mkWorld (upstream w) n (messageCountGauge w) (log w) (status w).

(** [messageCountGauge.WithLabelValues(name).Set(float64(n))] *)
Definition messageCountGauge_Set (name : string) (n : Z) (w : World σ) : World σ :=
  mkWorld (upstream w) (memberCountGauge w)
          (<[name := n]> (messageCountGauge w)) (log w) (status w).

End WorldOps.

(** ** Configuration *)

(** [parseExcludedChannels] *)
Definition parseExcludedChannels (channelsStr : string) : gmap string () :=
  let excluded : gmap string () := ∅ in
  if decide (channelsStr = "") then excluded
  else
    let channelNames := GoStrings.Split channelsStr "," in
    foldl (λ (excluded : gmap string ()) (name : string),
             let trimmedName := GoStrings.TrimSpace name in
             if decide (trimmedName ≠ "") then <[trimmedName := ()]> excluded
             else excluded)
          excluded channelNames.

(** What viper hands to [loadConfig]: whether the file could be read, and the
    three string settings ([GetString] gives the empty string for a missing
    key). *)
Record ConfigFile : Type := mkConfigFile {
  readError : option error;
  token : string;
  serverID : string;
  excludeChannels : string
}.

(** [loadConfig] *)
Definition loadConfig (f : ConfigFile) : Result Config :=
  match readError f with
  | Some e => Err ("error reading config file: " +:+ e)
  | None =>
      let config :=
        mkConfig (token f) (serverID f) (parseExcludedChannels (excludeChannels f)) in
      if decide (Token config = "") then Err "Discord token is required"
      else if decide (ServerID config = "") then Err "serverID is required"
      else Ok config
  end.

(** The Exclusion Set as the specification words it: split on commas, trim
    each component, drop the components that are empty after trimming. *)
Definition spec_exclusion_names (channelsStr : string) : list string :=
  filter (λ t, t ≠ "") (GoStrings.TrimSpace <$> GoStrings.Split channelsStr ",").

(** ** Channel Enumerator: the filter of [updateMessageCount] *)

(** The loop that builds [activeChannels]: one pass over the enumerated
    channels, appending those that are kept and logging the excluded ones. *)
Definition activeChannels_loop (config : Config) (channels : list Channel)
  : list Channel * list LogEntry :=
  foldl (λ (acc : list Channel * list LogEntry) (channel : Channel),
           let '(activeChannels, logged) := acc in
           if decide (Type_ channel ≠ ChannelTypeGuildText) then acc
           else if decide (is_Some (ExcludedChannels config !! Name channel))
                then (activeChannels, logged ++ [LogSkipping (Name channel)])
                else (activeChannels ++ [channel], logged))
        ([], []) channels.

Definition activeChannels (config : Config) (channels : list Channel) : list Channel :=
  fst (activeChannels_loop config channels).

(** A channel is eligible when it is a text channel whose name is not a key
    of the exclusion map. *)
Definition eligible (config : Config) (channel : Channel) : Prop :=
  Type_ channel = ChannelTypeGuildText
  ∧ ExcludedChannels config !! Name channel = None.

#[global] Instance eligible_dec config channel : Decision (eligible config channel).
Proof. unfold eligible. apply _. Defined.

(** ** Paginated Counter *)

(** How a Go function call ends: it returns, or a run-time panic unwinds it. *)
Inductive Outcome (A : Type) : Type :=
| Returned (a : A)
| Panicked.
Arguments Returned {A} a.
Arguments Panicked {A}.

(** One pass through the body of the [for] loop of [countChannelMessages]. *)
Inductive LoopStep : Type :=
| LoopReturn (r : Z * option error)
| LoopContinue (lastMessageID : string) (totalCount : Z)
| LoopPanic.

Section Counter.
Context {σ : Type} (session : Session σ).

Definition countChannelMessages_body
    (channelID lastMessageID : string) (totalCount : Z) (s : σ) : LoopStep * σ :=
  let '(r, s') :=
    ChannelMessages session channelID maxMessagesPerRequest lastMessageID "" "" s in
  match r with
  | Err e => (LoopReturn (0, Some ("failed to get messages: " +:+ e)), s')
  | Ok messages =>
      let messageCount := Z.of_nat (length messages) in
      let totalCount := totalCount + messageCount in
      if decide (messageCount < maxMessagesPerRequest)
      then (LoopReturn (totalCount, None), s')
      else match messages !! Z.to_nat (messageCount - 1) with
           | Some m => (LoopContinue (MessageID m) totalCount, s')
           | None => (LoopPanic, s')
           end
  end.

(** The loop, for at most [fuel] passes; [None] when the loop is still
    running after them. *)
Fixpoint countChannelMessages_loop (fuel : nat)
    (channelID lastMessageID : string) (totalCount : Z) (s : σ)
  : option (Outcome (Z * option error) * σ) :=
  match fuel with
  | O => None
  | S fuel' =>
      match countChannelMessages_body channelID lastMessageID totalCount s with
      | (LoopReturn r, s') => Some (Returned r, s')
      | (LoopPanic, s') => Some (Panicked, s')
      | (LoopContinue lastMessageID' totalCount', s') =>
          countChannelMessages_loop fuel' channelID lastMessageID' totalCount' s'
      end
  end.

(** [countChannelMessages]: the cursor starts empty and the total at 0. *)
Definition countChannelMessages (fuel : nat) (channelID : string) (s : σ)
  : option (Outcome (Z * option error) * σ) :=
  countChannelMessages_loop fuel channelID "" 0 s.

(** The cursor that follows a page: the identifier of its last message. *)
Definition cursor_after (cursor : string) (r : Result (list Message)) : string :=
  match r with
  | Ok messages =>
      match last messages with
      | Some m => MessageID m
      | None => cursor
      end
  | Err _ => cursor
  end.

(** [answers channelID cursor s rs s']: asked for the pages of [channelID]
    one after the other, each request carrying the cursor that follows the
    page before it, the upstream in state [s] answers with the responses
    [rs] and is left in state [s']. *)
Inductive answers (channelID : string)
  : string → σ → list (Result (list Message)) → σ → Prop :=
| answers_nil cursor s : answers channelID cursor s [] s
| answers_cons cursor s r s1 rs s2 :
    ChannelMessages session channelID maxMessagesPerRequest cursor "" "" s = (r, s1) →
    answers channelID (cursor_after cursor r) s1 rs s2 →
    answers channelID cursor s (r :: rs) s2.

End Counter.

(** ** A scripted upstream

    The remote platform as a table of canned responses: the [i]-th call of a
    kind (for messages: the [i]-th call on a channel) gets the [i]-th
    response, whatever cursor it carries. The state counts the calls served. *)

Record Script : Type := mkScript {
  members_script : nat → Result (list Member);
  channels_script : nat → Result (list Channel);
  messages_script : string → nat → Result (list Message)
}.

Record Served : Type := mkServed {
  members_served : nat;
  channels_served : nat;
  messages_served : gmap string nat
}.

Definition requests_on (st : Served) (channelID : string) : nat :=
  default 0%nat (messages_served st !! channelID).

Definition scripted (sc : Script) : Session Served :=
  {| GuildMembers := λ _ _ _ st,
       (members_script sc (members_served st),
        mkServed (S (members_served st)) (channels_served st) (messages_served st));
     GuildChannels := λ _ st,
       (channels_script sc (channels_served st),
        mkServed (members_served st) (S (channels_served st)) (messages_served st));
     ChannelMessages := λ channelID _ _ _ _ st,
       (messages_script sc channelID (requests_on st channelID),
        mkServed (members_served st) (channels_served st)
                 (<[channelID := S (requests_on st channelID)]>
                    (messages_served st))) |}.

Definition nothing_served : Served := mkServed 0 0 ∅.

(** A page of [n] messages; the identifiers only have to exist. *)
Definition page (n : nat) : list Message := replicate n (mkMessage "m").

(** The responses of a list, then [rest] for ever. *)
Definition from_list {A : Type} (l : list A) (rest : A) (i : nat) : A :=
  default rest (l !! i).

(** ** Membership count and Metric Publisher *)

Section Publisher.
Context {σ : Type} (session : Session σ).

(** [updateMemberCount] *)
Definition updateMemberCount (serverID : string) (w : World σ) : World σ :=
  let '(r, s') := GuildMembers session serverID "" maxMembersPerRequest (upstream w) in
  let w := set_upstream s' w in
  match r with
  | Err e => log_Printf (LogFailedMembers e) w
  | Ok members =>
      let memberCount := Z.of_nat (length members) in
      log_Printf (LogMemberCount memberCount) (memberCountGauge_Set memberCount w)
  end.

(** The body of the [for result := range results] loop of
    [updateMessageCount], on the world and the two counters. *)
Definition collect_result (result : channelCountResult) (acc : World σ * Z * Z)
  : World σ * Z * Z :=
  let '(w, successCount, errorCount) := acc in
  match err result with
  | Some e =>
      (log_Printf (LogFailedCount (channelName result) e) w,
       successCount, errorCount + 1)
  | None =>
      (log_Printf (LogChannel (channelName result) (count result))
         (messageCountGauge_Set (channelName result) (count result) w),
       successCount + 1, errorCount)
  end.

(** The loop over the results in the order in which they arrive. *)
Definition collect_results (results : list channelCountResult) (acc : World σ * Z * Z)
  : World σ * Z * Z :=
  foldl (λ acc result, collect_result result acc) acc results.

End Publisher.

(** The count of the last result for [name] that carries no error, if any. *)
Definition last_success (name : string) (results : list channelCountResult)
  : option Z :=
  foldl (λ acc result,
           if decide (channelName result = name ∧ err result = None)
           then Some (count result) else acc)
        None results.

(** ** Bounded Dispatcher: the goroutines of [updateMessageCount]

    The worker goroutines, the goroutine that closes [results] and the calling
    goroutine run interleaved; a step of the pool is one step of one of them.
    A goroutine that waits on a channel or on the wait group has no step until
    the wait can end. *)

(** Where a worker goroutine (the [go func(ch)] of the dispatch loop) stands. *)
Inductive Worker : Type :=
| WAcquire  (* at [semaphore <- struct{}{}] *)
| WCounting (lastMessageID : string) (totalCount : Z)
            (* in [countChannelMessages], at the head of the loop *)
| WSend (totalCount : Z) (err : option error)
        (* in [processChannel], at [results <- ...] *)
| WRelease  (* at the deferred [<-semaphore] *)
| WWgDone   (* at the deferred [wg.Done()] *)
| WExited
| WPanicked.

(** Where the calling goroutine stands. *)
Inductive Caller : Type :=
| MSpawn (todo : list Channel)  (* dispatch loop, channels still to start *)
| MCollect (successCount errorCount : Z)  (* [for result := range results] *)
| MDone.

(** The goroutine [go func() { wg.Wait(); close(results) }()]. *)
Inductive Closer : Type :=
| CNotStarted
| CWaiting
| CClosed.

Inductive Thread : Type :=
| TCaller
| TCloser
| TWorker (i : nat).

Record Pool (σ : Type) : Type := mkPool {
  world : World σ;
  workers : list (Channel * Worker);  (* goroutines started so far, in order *)
  semaphore : nat;                    (* elements held in the [semaphore] channel *)
  wg : nat;                           (* counter of the wait group *)
  results : list channelCountResult;  (* buffer of [results], oldest first *)
  results_closed : bool;
  closer : Closer;
  caller : Caller;
  received : list channelCountResult  (* what the caller has taken from [results] *)
}.
Arguments mkPool {σ} _ _ _ _ _ _ _ _ _.
Arguments world {σ} _.
Arguments workers {σ} _.
Arguments semaphore {σ} _.
Arguments wg {σ} _.
Arguments results {σ} _.
Arguments results_closed {σ} _.
Arguments closer {σ} _.
Arguments caller {σ} _.
Arguments received {σ} _.

(** A worker is inside [processChannel], its permit in hand, from the send on
    [semaphore] to the deferred receive. *)
Definition holding (wk : Worker) : bool :=
  match wk with
  | WCounting _ _ | WSend _ _ | WRelease => true
  | _ => false
  end.

(** A worker is counting while it is inside [countChannelMessages]. *)
Definition counting (wk : Worker) : bool :=
  match wk with
  | WCounting _ _ => true
  | _ => false
  end.

(** A worker has sent its result once it is past [results <- ...]. *)
Definition has_sent (wk : Worker) : bool :=
  match wk with
  | WRelease | WWgDone | WExited => true
  | _ => false
  end.

(** A worker is accounted for in the wait group until its [wg.Done()]. *)
Definition pending (wk : Worker) : bool :=
  match wk with
  | WExited => false
  | _ => true
  end.

(** How many goroutines of a list satisfy [f]. *)
Definition count_in (f : Worker → bool) (ws : list (Channel * Worker)) : nat :=
  length (filter (λ cw : Channel * Worker, f cw.2 = true) ws).

Definition count_workers {σ : Type} (f : Worker → bool) (st : Pool σ) : nat :=
  count_in f (workers st).

(** The channel names of the goroutines that have sent their result. *)
Definition names_sent (ws : list (Channel * Worker)) : list string :=
  (λ cw : Channel * Worker, Name cw.1)
    <$> filter (λ cw : Channel * Worker, has_sent cw.2 = true) ws.

Section Dispatcher.
Context {σ : Type} (session : Session σ).

(** [K] is the capacity of [semaphore], [N] the capacity of [results]. *)
Variables (K N : nat).

Definition set_worker (i : nat) (channel : Channel) (wk : Worker) (st : Pool σ)
  : Pool σ :=
  mkPool (world st) (<[i := (channel, wk)]> (workers st)) (semaphore st) (wg st)
         (results st) (results_closed st) (closer st) (caller st) (received st).

Definition worker_step (i : nat) (st : Pool σ) : option (Pool σ) :=
  match workers st !! i with
  | None => None
  | Some (channel, wk) =>
      match wk with
      | WAcquire =>
          (* a send on a buffered channel goes through when the buffer has room *)
          if decide (semaphore st < K)%nat then
            Some (set_worker i channel (WCounting "" 0)
                    (mkPool (world st) (workers st) (S (semaphore st)) (wg st)
                       (results st) (results_closed st) (closer st) (caller st)
                       (received st)))
          else None
      | WCounting lastMessageID totalCount =>
          let '(r, s') :=
            countChannelMessages_body session (ID channel) lastMessageID totalCount
              (upstream (world st)) in
          let wk' :=
            match r with
            | LoopReturn (n, e) => WSend n e
            | LoopContinue lastMessageID' totalCount' =>
                WCounting lastMessageID' totalCount'
            | LoopPanic => WPanicked
            end in
          Some (set_worker i channel wk'
                  (mkPool (set_upstream s' (world st)) (workers st) (semaphore st)
                     (wg st) (results st) (results_closed st) (closer st) (caller st)
                     (received st)))
      | WSend totalCount e =>
          (* a send on a closed channel panics *)
          if results_closed st then Some (set_worker i channel WPanicked st)
          else if decide (length (results st) < N)%nat then
            Some (set_worker i channel WRelease
                    (mkPool (world st) (workers st) (semaphore st) (wg st)
                       (results st ++ [mkResult (Name channel) totalCount e])
                       (results_closed st) (closer st) (caller st) (received st)))
          else None
      | WRelease =>
          match semaphore st with
          | S n =>
              Some (set_worker i channel WWgDone
                      (mkPool (world st) (workers st) n (wg st) (results st)
                         (results_closed st) (closer st) (caller st) (received st)))
          | O => None
          end
      | WWgDone =>
          match wg st with
          | S n =>
              Some (set_worker i channel WExited
                      (mkPool (world st) (workers st) (semaphore st) n (results st)
                         (results_closed st) (closer st) (caller st) (received st)))
          | O => (* negative wait-group counter *)
              Some (set_worker i channel WPanicked st)
          end
      | WExited | WPanicked => None
      end
  end.

Definition caller_step (st : Pool σ) : option (Pool σ) :=
  match caller st with
  | MSpawn (channel :: todo) =>
      (* [wg.Add(1)] and the [go] statement *)
      Some (mkPool (world st) (workers st ++ [(channel, WAcquire)]) (semaphore st)
              (S (wg st)) (results st) (results_closed st) (closer st)
              (MSpawn todo) (received st))
  | MSpawn [] =>
      Some (mkPool (world st) (workers st) (semaphore st) (wg st) (results st)
              (results_closed st) CWaiting (MCollect 0 0) (received st))
  | MCollect successCount errorCount =>
      match results st with
      | result :: rest =>
          let '(w', successCount', errorCount') :=
            collect_result result (world st, successCount, errorCount) in
          Some (mkPool w' (workers st) (semaphore st) (wg st) rest
                  (results_closed st) (closer st)
                  (MCollect successCount' errorCount') (received st ++ [result]))
      | [] =>
          if results_closed st then
            Some (mkPool (log_Printf (LogCompleted successCount errorCount) (world st))
                    (workers st) (semaphore st) (wg st) (results st)
                    (results_closed st) (closer st) MDone (received st))
          else None
      end
  | MDone => None
  end.

Definition closer_step (st : Pool σ) : option (Pool σ) :=
  match closer st with
  | CWaiting =>
      match wg st with
      | O =>
          Some (mkPool (world st) (workers st) (semaphore st) (wg st) (results st)
                  true CClosed (caller st) (received st))
      | S _ => None
      end
  | CNotStarted | CClosed => None
  end.

Definition step (t : Thread) (st : Pool σ) : option (Pool σ) :=
  match t with
  | TCaller => caller_step st
  | TCloser => closer_step st
  | TWorker i => worker_step i st
  end.

Definition pool_step (st st' : Pool σ) : Prop := ∃ t, step t st = Some st'.

(** Running a schedule: the threads that move, in order. *)
Fixpoint run (schedule : list Thread) (st : Pool σ) : option (Pool σ) :=
  match schedule with
  | [] => Some st
  | t :: schedule' =>
      match step t st with
      | Some st' => run schedule' st'
      | None => None
      end
  end.

End Dispatcher.

(** The pool when the dispatch loop is entered. *)
Definition pool_init {σ : Type} (w : World σ) (active : list Channel) : Pool σ :=
  mkPool w [] 0 0 [] false CNotStarted (MSpawn active) [].

(** ** The invariant of the pool

    What holds in every state that the pool reaches from [pool_init w0 active]
    when [semaphore] has capacity [K]. *)

Section Invariant.
Context {σ : Type}.
Variables (K : nat) (w0 : World σ) (active : list Channel).

(** The goroutines started so far are those of the first channels of
    [active]; the closing goroutine exists once the dispatch loop is over. *)
Definition caller_inv (st : Pool σ) : Prop :=
  match caller st with
  | MSpawn todo =>
      (workers st).*1 ++ todo = active ∧ closer st = CNotStarted ∧ received st = []
  | MCollect _ _ | MDone =>
      (workers st).*1 = active ∧ closer st ≠ CNotStarted
  end.

(** Up to the state of the upstream, the world is the starting world with the
    results received so far published, in the order of their arrival. *)
Definition publish_inv (st : Pool σ) : Prop :=
  let '(wp, successCount, errorCount) := collect_results (received st) (w0, 0, 0) in
  match caller st with
  | MSpawn _ => world st = set_upstream (upstream (world st)) wp
  | MCollect s e =>
      world st = set_upstream (upstream (world st)) wp
      ∧ s = successCount ∧ e = errorCount
  | MDone =>
      world st
      = set_upstream (upstream (world st))
          (log_Printf (LogCompleted successCount errorCount) wp)
  end.

Record pool_inv (st : Pool σ) : Prop := mkPoolInv {
  inv_sem : semaphore st = count_workers holding st;
  inv_cap : (semaphore st ≤ K)%nat;
  inv_wg : wg st = count_workers pending st;
  inv_sent : channelName <$> (received st ++ results st) ≡ₚ names_sent (workers st);
  inv_caller : caller_inv st;
  inv_closed : results_closed st = true ↔ closer st = CClosed;
  inv_closer : closer st = CClosed → wg st = 0%nat;
  inv_panic : Forall (λ cw : Channel * Worker, cw.2 ≠ WPanicked) (workers st);
  inv_done : caller st = MDone → results st = [] ∧ results_closed st = true;
  inv_publish : publish_inv st
}.

End Invariant.

(** ** The work left in a pool

    The steps a goroutine still has to take before it ends, not counting the
    passes of a counting loop that ask for one more page. A result waiting in
    the buffer stands for the step of the caller that will take it. *)

Definition worker_weight (wk : Worker) : nat :=
  match wk with
  | WAcquire => 6
  | WCounting _ _ => 5
  | WSend _ _ => 4
  | WRelease => 2
  | WWgDone => 1
  | WExited | WPanicked => 0
  end.

Definition caller_weight (c : Caller) : nat :=
  match c with
  | MSpawn todo => 7 * length todo + 3
  | MCollect _ _ => 1
  | MDone => 0
  end.

Definition closer_weight (c : Closer) : nat :=
  match c with
  | CNotStarted | CWaiting => 1
  | CClosed => 0
  end.

Definition pool_measure {σ : Type} (st : Pool σ) : nat :=
  caller_weight (caller st) + closer_weight (closer st)
  + sum_list_with (λ cw : Channel * Worker, worker_weight cw.2) (workers st)
  + length (results st).

(** ** One collection cycle and the collector loop *)

Section Collector.
Context {σ : Type} (session : Session σ).

Definition log_all (entries : list LogEntry) (w : World σ) : World σ :=
  foldl (λ w e, log_Printf e w) w entries.

(** [updateMessageCount], its goroutines interleaved as [schedule] says.
    [None] when the schedule asks a waiting goroutine to move or stops before
    the function has returned. The elapsed time that the last log line prints
    is left out of the line. *)
Definition updateMessageCount_with (schedule : list Thread) (config : Config)
    (w : World σ) : option (World σ) :=
  let '(r, s') := GuildChannels session (ServerID config) (upstream w) in
  let w := set_upstream s' w in
  match r with
  | Err e => Some (log_Printf (LogFailedChannels e) w)
  | Ok channels =>
      let '(active, skipped) := activeChannels_loop config channels in
      let w := log_all skipped w in
      if decide (length active = 0%nat) then Some (log_Printf LogNoActive w)
      else
        let w :=
          log_Printf (LogProcessing (Z.of_nat (length active))
                        (Z.of_nat maxConcurrentChannels)) w in
        match run session maxConcurrentChannels (length active) schedule
                (pool_init w active) with
        | Some st =>
            match caller st with
            | MDone => Some (world st)
            | _ => None
            end
        | None => None
        end
  end.

(** [updateMessageCount] can take the world from [w] to [w']. *)
Definition updateMessageCount (config : Config) (w w' : World σ) : Prop :=
  ∃ schedule, updateMessageCount_with schedule config w = Some w'.

(** What a call of [updateMessageCount] leaves behind, by the way it went:
    the enumeration failed; no channel was eligible; or the pool ran to its
    end and the results received, one per eligible channel, were published in
    the order of their arrival. *)
Inductive cycle_outcome (config : Config) (w w' : World σ) : Prop :=
| outcome_enum_failed e s' :
    GuildChannels session (ServerID config) (upstream w) = (Err e, s') →
    w' = log_Printf (LogFailedChannels e) (set_upstream s' w) →
    cycle_outcome config w w'
| outcome_no_active channels s' :
    GuildChannels session (ServerID config) (upstream w) = (Ok channels, s') →
    activeChannels config channels = [] →
    w' = log_Printf LogNoActive
           (log_all (activeChannels_loop config channels).2 (set_upstream s' w)) →
    cycle_outcome config w w'
| outcome_dispatched channels s' received s'' :
    GuildChannels session (ServerID config) (upstream w) = (Ok channels, s') →
    activeChannels config channels ≠ [] →
    channelName <$> received ≡ₚ Name <$> activeChannels config channels →
    w' = set_upstream s''
           (let '(wp, successCount, errorCount) :=
              collect_results received
                (log_Printf
                   (LogProcessing
                      (Z.of_nat (length (activeChannels config channels)))
                      (Z.of_nat maxConcurrentChannels))
                   (log_all (activeChannels_loop config channels).2
                      (set_upstream s' w)), 0, 0) in
            log_Printf (LogCompleted successCount errorCount) wp) →
    cycle_outcome config w w'.

(** Where the goroutine of [startMetricsCollector] stands in its loop. *)
Inductive CollectorPc : Type :=
| AtMemberCount
| AtMessageCount
| AtSleep.

(** The collector: its place in the loop, the world, the clock in
    nanoseconds, the time at which the cycle under way began, and the begin
    and end times of the cycles completed so far. *)
Record Collector : Type := mkCollector {
  pc : CollectorPc;
  cworld : World σ;
  now : Z;
  begun : Z;
  history : list (Z * Z)
}.

(** One statement of the loop body. The two calls take any time; the sleep
    takes the time asked for (the Go runtime wakes the goroutine no earlier). *)
Inductive collector_step (config : Config) : Collector → Collector → Prop :=
| step_member w (t t' b : Z) hist :
    (t ≤ t')%Z →
    collector_step config
      (mkCollector AtMemberCount w t b hist)
      (mkCollector AtMessageCount (updateMemberCount session (ServerID config) w)
                   t' t hist)
| step_message w w' (t t' b : Z) hist :
    updateMessageCount config w w' →
    (t ≤ t')%Z →
    collector_step config
      (mkCollector AtMessageCount w t b hist)
      (mkCollector AtSleep w' t' b (hist ++ [(b, t')]))
| step_sleep w (t b : Z) hist :
    collector_step config
      (mkCollector AtSleep w t b hist)
      (mkCollector AtMemberCount w (t + defaultUpdateInterval) b hist).

(** When the next cycle is due to begin, after the cycles of [hist], for a
    collector started at [t0]. *)
Definition next_begin (t0 : Z) (hist : list (Z * Z)) : Z :=
  match last hist with
  | None => t0
  | Some (_, ended) => ended + defaultUpdateInterval
  end.

(** The statement that follows a place of the loop. *)
Definition next_pc (p : CollectorPc) : CollectorPc :=
  match p with
  | AtMemberCount => AtMessageCount
  | AtMessageCount => AtSleep
  | AtSleep => AtMemberCount
  end.

(** The collector when its goroutine starts at time [t0]. *)
Definition collector_init (w : World σ) (t0 : Z) : Collector :=
  mkCollector AtMemberCount w t0 t0 [].

End Collector.
Arguments mkCollector {σ} _ _ _ _ _.
Arguments pc {σ} _.
Arguments cworld {σ} _.
Arguments now {σ} _.
Arguments begun {σ} _.
Arguments history {σ} _.

(** The world of a process that has just started: both gauges registered,
    nothing published, nothing logged. *)
Definition world_init {σ : Type} (s : σ) : World σ := mkWorld s 0 ∅ [] Running.

(** [main] up to [startMetricsCollector]: either a fatal start-up error ends
    the process, or the collector goroutine is started with the loaded
    configuration. [newSession] is the error of [discordgo.New], if any. After
    this point [main] serves the metrics endpoint. *)
Inductive Startup (σ : Type) : Type :=
| StartupFatal (w : World σ)
| CollectorStarted (config : Config) (w : World σ).
Arguments StartupFatal {σ} w.
Arguments CollectorStarted {σ} config w.

Definition main {σ : Type} (f : ConfigFile) (newSession : option error) (w : World σ)
  : Startup σ :=
  match loadConfig f with
  | Err e => StartupFatal (log_Fatalf (LogFailedConfig e) w)
  | Ok config =>
      let w := log_Printf (LogConfigLoaded (ServerID config)) w in
      let w :=
        log_Printf (LogExcludedCount (Z.of_nat (size (ExcludedChannels config)))) w in
      match newSession with
      | Some e => StartupFatal (log_Fatalf (LogFailedSession e) w)
      | None =>
          let w := log_Printf LogSessionCreated w in
          CollectorStarted config w
      end
  end.


(** The eligible channels of the cycle that starts in world [w]: those the
    enumeration returns and the filter keeps; none when the enumeration fails. *)
Definition cycle_channels {σ : Type} (session : Session σ) (config : Config)
    (w : World σ) : list Channel :=
  match GuildChannels session (ServerID config) (upstream w) with
  | (Ok channels, _) => activeChannels config channels
  | (Err _, _) => []
  end.

(** ** The single-loop form of the exporter (src/main.go)

    In this form [updateMessageCount] does everything in one loop, with the
    exclusion list written in the code and no filter on the channel type;
    there is no configuration file, no [countChannelMessages] and no pool. *)

Module Legacy.
Section Legacy.
Context {σ : Type} (session : Session σ).

(** [updateMemberCount]: the failure is reported with [log.Fatalf]. *)
Definition updateMemberCount (serverID : string) (w : World σ) : World σ :=
  let '(r, s') := GuildMembers session serverID "" 1000 (upstream w) in
  let w := set_upstream s' w in
  match r with
  | Err e => log_Fatalf (LogFailedMembers e) w
  | Ok members =>
      let memberCount := Z.of_nat (length members) in
      log_Printf (LogMemberCount memberCount) (memberCountGauge_Set memberCount w)
  end.

(** The exclusion list of [updateMessageCount]. *)
Definition excludedChannels : gmap string () :=
  <["入室通知" := ()]> (<["パダワン部屋" := ()]> ∅).

(** The inner [for] loop of [updateMessageCount], for at most [fuel] passes:
    a failed request is logged and breaks the loop with the total reached so
    far. ([messages[messageCount-1]] is the last message of a page that holds
    100 of them.) *)
Fixpoint count_loop (fuel : nat) (channelID lastMessageID : string)
    (totalMessageCount : Z) (w : World σ) : option (Z * World σ) :=
  match fuel with
  | O => None
  | S fuel' =>
      let '(r, s') :=
        ChannelMessages session channelID 100 lastMessageID "" "" (upstream w) in
      let w := set_upstream s' w in
      match r with
      | Err e => Some (totalMessageCount, log_Printf (LogFailedCount channelID e) w)
      | Ok messages =>
          let messageCount := Z.of_nat (length messages) in
          let totalMessageCount := totalMessageCount + messageCount in
          if decide (messageCount < 100) then Some (totalMessageCount, w)
          else count_loop fuel' channelID
                 (cursor_after lastMessageID (Ok messages)) totalMessageCount w
      end
  end.

(** The body of the loop over the channels. *)
Definition count_channel (fuel : nat) (channel : Channel) (w : World σ)
  : option (World σ) :=
  if decide (is_Some (excludedChannels !! Name channel)) then Some w
  else
    match count_loop fuel (ID channel) "" 0 w with
    | None => None
    | Some (totalMessageCount, w) =>
        Some (log_Printf (LogChannel (Name channel) totalMessageCount)
                (messageCountGauge_Set (Name channel) totalMessageCount w))
    end.

(** [updateMessageCount]; [None] when an inner loop is still running after
    [fuel] passes. *)
Definition updateMessageCount (fuel : nat) (serverID : string) (w : World σ)
  : option (World σ) :=
  let '(r, s') := GuildChannels session serverID (upstream w) in
  let w := set_upstream s' w in
  match r with
  | Err e => Some (log_Fatalf (LogFailedChannels e) w)
  | Ok channels =>
      foldl (λ (acc : option (World σ)) (channel : Channel),
               match acc with
               | None => None
               | Some w => count_channel fuel channel w
               end)
            (Some w) channels
  end.

End Legacy.
End Legacy.

(** ** Sample upstreams *)

(** Three channels whose histories come in pages of 100, 100, 30 messages,
    of 0 messages, and of 100, 100, 100, 100 and then 0 messages; a voice
    channel and an excluded channel beside them. *)
Definition demo_channels : list Channel :=
  [ mkChannel "c1" "general" ChannelTypeGuildText;
    mkChannel "c2" "random" ChannelTypeGuildText;
    mkChannel "c3" "dev" ChannelTypeGuildText;
    mkChannel "c4" "lounge" ChannelTypeGuildVoice;
    mkChannel "c5" "general-archive" ChannelTypeGuildText ].

Definition demo_messages (channelID : string) : nat → Result (list Message) :=
  if decide (channelID = "c1") then
    from_list [Ok (page 100); Ok (page 100); Ok (page 30)] (Err "unexpected request")
  else if decide (channelID = "c2") then
    from_list [Ok (page 0)] (Err "unexpected request")
  else if decide (channelID = "c3") then
    from_list [Ok (page 100); Ok (page 100); Ok (page 100); Ok (page 100); Ok (page 0)]
              (Err "unexpected request")
  else λ _, Err "unknown channel".

Definition demo_script : Script :=
  mkScript (λ _, Ok [mkMember "u1"; mkMember "u2"])
           (λ _, Ok demo_channels)
           demo_messages.

(** An upstream whose third request on any channel fails. *)
Definition flaky_script : Script :=
  mkScript (λ _, Err "members unavailable")
           (λ _, Err "channels unavailable")
           (λ _, from_list [Ok (page 100); Ok (page 100)] (Err "rate limited")).

(** An upstream that has a full page for every request. *)
Definition endless_script : Script :=
  mkScript (λ _, Ok []) (λ _, Ok []) (λ _ _, Ok (page 100)).

Definition demo_config : Config :=
  mkConfig "secret" "guild" (parseExcludedChannels "general-archive, bots").

(** The channels of [demo_channels] that [demo_config] lets through. *)
Definition demo_active : list Channel := activeChannels demo_config demo_channels.

(** An interleaving of the pool on [demo_active] in which two permits are
    enough: the third goroutine gets its permit when the second has given its
    own back. *)
Definition demo_schedule : list Thread :=
  [ TCaller; TCaller; TCaller; TCaller;
    TWorker 0; TWorker 1;
    TWorker 0; TWorker 0; TWorker 0;
    TWorker 1; TWorker 1; TWorker 1;
    TWorker 2; TWorker 1;
    TWorker 2; TWorker 2; TWorker 2; TWorker 2; TWorker 2;
    TWorker 0; TWorker 0; TWorker 0;
    TWorker 2; TWorker 2; TWorker 2;
    TCloser;
    TCaller; TCaller; TCaller; TCaller ].




(** A world in which an earlier cycle has published 230 for "general". *)
Definition world_after_earlier_cycle : World Served :=
  messageCountGauge_Set "general" 230 (world_init nothing_served).

(** A server where one channel cannot be read and another can. *)
Definition outage_channels : list Channel :=
  [ mkChannel "c1" "general" ChannelTypeGuildText;
    mkChannel "c2" "random" ChannelTypeGuildText ].

Definition outage_script : Script :=
  mkScript (λ _, Ok [mkMember "u1"])
           (λ _, Ok outage_channels)
           (λ channelID,
              if decide (channelID = "c1") then
                from_list [Ok (page 100)] (Err "rate limited")
              else from_list [Ok (page 30)] (Err "unexpected request")).

Definition outage_schedule : list Thread :=
  [ TCaller; TCaller; TCaller;
    TWorker 0; TWorker 1; TWorker 0; TWorker 1; TWorker 0;
    TWorker 1; TWorker 1; TWorker 1;
    TWorker 0; TWorker 0; TWorker 0;
    TCloser;
    TCaller; TCaller; TCaller ].

(** A configuration file with every setting present. *)
Definition demo_file : ConfigFile :=
  mkConfigFile None "secret" "guild" "general-archive, bots".

(** The same pool with its goroutines run one after the other. *)
Definition demo_schedule_in_turn : list Thread :=
  [ TCaller; TCaller; TCaller; TCaller ]
  ++ replicate 7 (TWorker 0) ++ replicate 5 (TWorker 1) ++ replicate 9 (TWorker 2)
  ++ [ TCloser; TCaller; TCaller; TCaller; TCaller ].

(** ** White space at the ends of a string *)

(** Whether [s] begins with the encoding of a white-space rune. *)
Definition leading_space (s : string) : bool :=
  match s with
  | EmptyString => false
  | String a s1 =>
      GoStrings.asciiSpace a
      || match s1 with
         | EmptyString => false
         | String b s2 =>
             GoStrings.space2 a b
             || match s2 with
                | EmptyString => false
                | String c _ => GoStrings.space3 a b c
                end
         end
  end.

(** Whether [r], a string reversed, begins with the reversed encoding of a
    white-space rune. *)
Definition trailing_space_rev (r : string) : bool :=
  match r with
  | EmptyString => false
  | String a r1 =>
      GoStrings.asciiSpace a
      || match r1 with
         | EmptyString => false
         | String b r2 =>
             GoStrings.space2 b a
             || match r2 with
                | EmptyString => false
                | String c _ => GoStrings.space3 c b a
                end
         end
  end.


(** The line that the loop over the results writes for one result. *)
Definition result_line (result : channelCountResult) : LogEntry :=
  match err result with
  | Some e => LogFailedCount (channelName result) e
  | None => LogChannel (channelName result) (count result)
  end.

(** ** [processChannel], one call after the other *)

Section InTurn.
Context {σ : Type} (session : Session σ).

(** [processChannel] without its send: the value that it puts on [results]. *)
Definition processChannel (fuel : nat) (channel : Channel) (s : σ)
  : option (Outcome channelCountResult * σ) :=
  match countChannelMessages session fuel (ID channel) s with
  | None => None
  | Some (Panicked, s') => Some (Panicked, s')
  | Some (Returned (totalCount, err), s') =>
      Some (Returned (mkResult (Name channel) totalCount err), s')
  end.

(** The calls of [processChannel] for the channels of a list, each one begun
    when the one before it has returned: the results in the order of the
    channels, and the state in which the upstream is left. [None] when a
    call is still running after [fuel] passes of its loop. *)
Fixpoint count_in_turn (fuel : nat) (channels : list Channel) (s : σ)
  : option (list channelCountResult * σ) :=
  match channels with
  | [] => Some ([], s)
  | channel :: channels' =>
      match processChannel fuel channel s with
      | Some (Returned result, s1) =>
          match count_in_turn fuel channels' s1 with
          | Some (results, s2) => Some (result :: results, s2)
          | None => None
          end
      | _ => None
      end
  end.

End InTurn.

(** ** The sequential form of the exporter (src/unnamed/part_001)

    This form has the configuration file and [countChannelMessages], but no
    pool: [updateMessageCount] counts the channels one after the other in the
    order of the enumeration, and has no filter on the channel type. *)

Module Sequential.
Section Sequential.
Context {σ : Type} (session : Session σ).

(** The body of the loop over the channels. *)
Definition count_channel (fuel : nat) (config : Config) (channel : Channel)
    (w : World σ) : option (Outcome (World σ)) :=
  if decide (is_Some (ExcludedChannels config !! Name channel))
  then Some (Returned (log_Printf (LogSkipping (Name channel)) w))
  else
    match countChannelMessages session fuel (ID channel) (upstream w) with
    | None => None
    | Some (Panicked, _) => Some Panicked
    | Some (Returned (totalCount, err), s') =>
        let w := set_upstream s' w in
        match err with
        | Some e =>
            Some (Returned (log_Printf (LogFailedCount (Name channel) e) w))
        | None =>
            Some (Returned
                    (log_Printf (LogChannel (Name channel) totalCount)
                       (messageCountGauge_Set (Name channel) totalCount w)))
        end
    end.

(** [updateMessageCount]; [None] when a count is still running after [fuel]
    passes of its loop. *)
Definition updateMessageCount (fuel : nat) (config : Config) (w : World σ)
  : option (Outcome (World σ)) :=
  let '(r, s') := GuildChannels session (ServerID config) (upstream w) in
  let w := set_upstream s' w in
  match r with
  | Err e => Some (Returned (log_Printf (LogFailedChannels e) w))
  | Ok channels =>
      foldl (λ (acc : option (Outcome (World σ))) (channel : Channel),
               match acc with
               | Some (Returned w) => count_channel fuel config channel w
               | _ => acc
               end)
            (Some (Returned w)) channels
  end.

End Sequential.
End Sequential.

(** ** The pool on a scripted upstream

    What the goroutines of the pool keep true when each channel has a script
    of its own: [s0] is the upstream when the pool starts, [active] the
    channels it was started for. *)

Section ScriptedPool.
Variables (sc : Script) (s0 : Served) (active : list Channel).

(** Counted alone from [s0], the channel gives [r]. *)
Definition counted_alone (channel : Channel) (r : Z * option error) : Prop :=
  ∃ fuel s',
    countChannelMessages (scripted sc) fuel (ID channel) s0 = Some (Returned r, s').

(** A goroutine that has not begun has found its script untouched; one that
    is counting, or has counted, can only end with what its channel gives
    when it is counted alone. *)
Definition worker_ok (s : Served) (cw : Channel * Worker) : Prop :=
  match cw.2 with
  | WAcquire => requests_on s (ID cw.1) = requests_on s0 (ID cw.1)
  | WCounting lastMessageID totalCount =>
      ∀ fuel r s',
        countChannelMessages_loop (scripted sc) fuel (ID cw.1) lastMessageID
          totalCount s = Some (Returned r, s') →
        counted_alone cw.1 r
  | WSend totalCount e => counted_alone cw.1 (totalCount, e)
  | _ => True
  end.

Definition result_ok (result : channelCountResult) : Prop :=
  ∃ channel,
    channel ∈ active
    ∧ channelName result = Name channel
    ∧ counted_alone channel (count result, err result).

Definition script_inv (st : Pool Served) : Prop :=
  Forall (worker_ok (upstream (world st))) (workers st)
  ∧ (∀ todo, caller st = MSpawn todo →
             Forall (λ channel,
                       requests_on (upstream (world st)) (ID channel)
                       = requests_on s0 (ID channel)) todo)
  ∧ Forall result_ok (received st ++ results st).

End ScriptedPool.

(** * Properties *)

Example Split_three : GoStrings.Split "a,,b" "," = ["a"; ""; "b"].
Proof. reflexivity. Qed.

Example Split_empty : GoStrings.Split "" "," = [""].
Proof. reflexivity. Qed.

Example Split_trailing : GoStrings.Split "a," "," = ["a"; ""].
Proof. reflexivity. Qed.

Example TrimSpace_inner : GoStrings.TrimSpace "  dev ops  " = "dev ops".
Proof. reflexivity. Qed.

Example TrimSpace_blank : GoStrings.TrimSpace "    " = "".
Proof. reflexivity. Qed.

(** Tab, line feed and carriage return are trimmed ... *)
Example TrimSpace_control :
  GoStrings.TrimSpace (String "009" (String "010" ("bots" +:+ String "013" "")))
  = "bots".
Proof. reflexivity. Qed.

(** ... and so are the white-space runes beyond ASCII (here U+3000 and
    U+00A0), while other runes stay. *)
Example TrimSpace_unicode : GoStrings.TrimSpace "　café　 " = "café".
Proof. vm_compute. reflexivity. Qed.

Example parseExcludedChannels_ex :
  dom (parseExcludedChannels " general-archive , ,bots,,  ") =
  ({["general-archive"; "bots"]} : gset string).
Proof. vm_compute. reflexivity. Qed.


(** ** Properties of the configuration parser *)

Section ParseFacts.

Lemma Split_nonempty (s : string) (sep : ascii) : GoStrings.Split s sep ≠ [].
Proof.
  destruct s as [|c rest]; [done|]. cbn [GoStrings.Split].
  destruct (decide (c = sep)); [done|].
  by destruct (GoStrings.Split rest sep).
Qed.

(** Joining the pieces of [Split] with the separator gives the string back. *)
Lemma Split_concat (s : string) (sep : ascii) :
  String.concat (String sep EmptyString) (GoStrings.Split s sep) = s.
Proof.
  induction s as [|c rest IH]; [reflexivity|].
  cbn [GoStrings.Split].
  pose proof (Split_nonempty rest sep) as Hne.
  destruct (GoStrings.Split rest sep) as [|p ps]; [done|].
  destruct (decide (c = sep)) as [->|Hc].
  - change (String.concat (String sep "") ("" :: p :: ps))
      with (String sep (String.concat (String sep "") (p :: ps))).
    by rewrite IH.
  - destruct ps; cbn in *; by rewrite <- IH.
Qed.

(** The loop of [parseExcludedChannels] from any map built so far. *)
Lemma parse_loop_dom (names : list string) (acc : gmap string ()) :
  dom (foldl (λ (excluded : gmap string ()) (name : string),
                let trimmedName := GoStrings.TrimSpace name in
                if decide (trimmedName ≠ "") then <[trimmedName := ()]> excluded
                else excluded) acc names)
  = dom acc ∪ list_to_set (filter (λ t, t ≠ "") (GoStrings.TrimSpace <$> names)).
Proof.
  revert acc. induction names as [|name names IH]; intros acc.
  - cbn. set_solver.
  - cbn [foldl fmap list_fmap]. rewrite IH. cbn zeta.
    rewrite filter_cons. destruct (decide (GoStrings.TrimSpace name ≠ "")).
    + rewrite dom_insert_L. set_solver.
    + set_solver.
Qed.

End ParseFacts.

(** C9. For every value of [excludeChannels], the keys of the parsed map are
    exactly the components obtained by splitting the string on commas,
    trimming the white space around each component and dropping the components
    that are then empty; the empty string gives the empty map. *)
Theorem parseExcludedChannels_spec (channelsStr : string) :
  dom (parseExcludedChannels channelsStr)
    = list_to_set (spec_exclusion_names channelsStr)
  ∧ (∀ name : string,
       is_Some (parseExcludedChannels channelsStr !! name)
       ↔ name ∈ spec_exclusion_names channelsStr)
  ∧ parseExcludedChannels "" = ∅.
Proof.
  assert (Hdom : dom (parseExcludedChannels channelsStr)
                 = list_to_set (spec_exclusion_names channelsStr)).
  { unfold parseExcludedChannels, spec_exclusion_names.
    destruct (decide (channelsStr = "")) as [->|Hne].
    - vm_compute. reflexivity.
    - rewrite parse_loop_dom. set_solver. }
  split; [exact Hdom|]. split; [|reflexivity].
  intros name. rewrite <- elem_of_dom, Hdom. apply elem_of_list_to_set.
Qed.

Lemma parseExcludedChannels_spec_witness :
  dom (parseExcludedChannels " general-archive , ,bots,,  ")
  = ({["general-archive"; "bots"]} : gset string)
  ∧ spec_exclusion_names " general-archive , ,bots,,  " = ["general-archive"; "bots"]
  ∧ parseExcludedChannels "" = ∅.
Proof.
  destruct (parseExcludedChannels_spec " general-archive , ,bots,,  ")
    as (Hdom & _ & Hempty).
  split; [|split; [vm_compute; reflexivity|exact Hempty]].
  rewrite Hdom. vm_compute. reflexivity.
Defined.

(** ** Channel Enumerator *)

Lemma activeChannels_loop_from (config : Config) (channels : list Channel)
    (acc : list Channel) (logged : list LogEntry) :
  fst (foldl (λ (acc : list Channel * list LogEntry) (channel : Channel),
                let '(activeChannels, logged) := acc in
                if decide (Type_ channel ≠ ChannelTypeGuildText) then acc
                else if decide (is_Some (ExcludedChannels config !! Name channel))
                     then (activeChannels, logged ++ [LogSkipping (Name channel)])
                     else (activeChannels ++ [channel], logged))
             (acc, logged) channels)
  = acc ++ filter (eligible config) channels.
Proof.
  revert acc logged. induction channels as [|c channels IH]; intros acc logged.
  - cbn. by rewrite app_nil_r.
  - cbn [foldl]. rewrite filter_cons. unfold eligible at 2.
    destruct (decide (Type_ c ≠ ChannelTypeGuildText)) as [Hty|Hty].
    + rewrite IH. rewrite decide_False; [done|]. intros [? _]. done.
    + apply dec_stable in Hty.
      destruct (decide (is_Some (ExcludedChannels config !! Name c))) as [Hex|Hex].
      * rewrite IH. rewrite decide_False; [done|].
        intros [_ Hnone]. rewrite Hnone in Hex. by destruct Hex.
      * rewrite IH. rewrite decide_True.
        -- by rewrite <- app_assoc.
        -- split; [done|]. by apply eq_None_not_Some.
Qed.

(** The dispatch list is the enumerated list filtered, order kept. *)
Lemma activeChannels_filter (config : Config) (channels : list Channel) :
  activeChannels config channels = filter (eligible config) channels.
Proof.
  unfold activeChannels, activeChannels_loop.
  by rewrite activeChannels_loop_from.
Qed.

(** ** Properties of the Paginated Counter *)

Section CounterFacts.
Context {σ : Type} (session : Session σ).

Lemma body_error channelID cursor total s e s1 :
  ChannelMessages session channelID maxMessagesPerRequest cursor "" "" s = (Err e, s1) →
  countChannelMessages_body session channelID cursor total s
  = (LoopReturn (0, Some ("failed to get messages: " +:+ e)), s1).
Proof. intros H. unfold countChannelMessages_body. by rewrite H. Qed.

Lemma body_short channelID cursor total s messages s1 :
  ChannelMessages session channelID maxMessagesPerRequest cursor "" "" s
    = (Ok messages, s1) →
  (length messages < 100)%nat →
  countChannelMessages_body session channelID cursor total s
  = (LoopReturn (total + Z.of_nat (length messages), None), s1).
Proof.
  intros H Hlen. unfold countChannelMessages_body. rewrite H.
  unfold maxMessagesPerRequest. case_decide; [done|lia].
Qed.

Lemma body_full channelID cursor total s messages s1 :
  ChannelMessages session channelID maxMessagesPerRequest cursor "" "" s
    = (Ok messages, s1) →
  (100 ≤ length messages)%nat →
  countChannelMessages_body session channelID cursor total s
  = (LoopContinue (cursor_after cursor (Ok messages))
                  (total + Z.of_nat (length messages)), s1).
Proof.
  intros H Hlen. unfold countChannelMessages_body. rewrite H.
  unfold maxMessagesPerRequest. case_decide; [lia|].
  replace (Z.to_nat (Z.of_nat (length messages) - 1)) with (pred (length messages))
    by lia.
  rewrite <- last_lookup. cbn [cursor_after].
  destruct (last messages) as [m|] eqn:E; [done|].
  apply last_None in E. subst messages. cbn in Hlen. lia.
Qed.

(** The index [messageCount-1] is always inside the page: the body never
    panics. *)
Lemma body_no_panic channelID cursor total s s1 :
  countChannelMessages_body session channelID cursor total s ≠ (LoopPanic, s1).
Proof.
  unfold countChannelMessages_body.
  destruct (ChannelMessages _ _ _ _ _ _ _) as [[messages|e] s2]; [|done].
  case_decide as Hd; [done|].
  destruct (messages !! _) as [m|] eqn:E; [done|].
  apply lookup_ge_None in E. unfold maxMessagesPerRequest in Hd. lia.
Qed.

Lemma loop_no_panic fuel channelID cursor total s s1 :
  countChannelMessages_loop session fuel channelID cursor total s
    ≠ Some (Panicked, s1).
Proof.
  revert cursor total s. induction fuel as [|fuel IH]; intros cursor total s; [done|].
  cbn [countChannelMessages_loop].
  destruct (countChannelMessages_body _ _ _ _ _) as [[r|c t|] s2] eqn:E.
  - done.
  - apply IH.
  - by apply body_no_panic in E.
Qed.

(** More fuel does not change a result already reached. *)
Lemma loop_fuel_mono fuel fuel' channelID cursor total s out :
  (fuel ≤ fuel')%nat →
  countChannelMessages_loop session fuel channelID cursor total s = Some out →
  countChannelMessages_loop session fuel' channelID cursor total s = Some out.
Proof.
  revert fuel' cursor total s.
  induction fuel as [|fuel IH]; intros fuel' cursor total s Hle H; [done|].
  destruct fuel' as [|fuel']; [lia|].
  cbn [countChannelMessages_loop] in *.
  destruct (countChannelMessages_body _ _ _ _ _) as [[r|c t|] s2]; try done.
  apply IH; [lia|done].
Qed.

(** Against an upstream that respects the page limit, a total returned after
    [fuel] passes lies between 0 and [100 * fuel] above the starting total:
    machine integers hold it for every run that can be carried out. *)
Lemma loop_total_bound :
  (∀ channelID cursor s messages s1,
      ChannelMessages session channelID maxMessagesPerRequest cursor "" "" s
        = (Ok messages, s1) →
      (length messages ≤ 100)%nat) →
  ∀ fuel channelID cursor total s n e s',
    0 ≤ total →
    countChannelMessages_loop session fuel channelID cursor total s
      = Some (Returned (n, e), s') →
    0 ≤ n ≤ total + 100 * Z.of_nat fuel.
Proof.
  intros Hlimit fuel. induction fuel as [|fuel IH];
    intros channelID cursor total s n e s' Htotal Hloop; [done|].
  cbn [countChannelMessages_loop] in Hloop.
  unfold countChannelMessages_body in Hloop.
  destruct (ChannelMessages _ _ _ _ _ _ _) as [[messages|e'] s1] eqn:Hreq.
  - specialize (Hlimit _ _ _ _ _ Hreq).
    case_decide.
    + injection Hloop as <- <- <-. lia.
    + destruct (messages !! _); [|done].
      apply IH in Hloop; lia.
  - injection Hloop as <- <- <-. lia.
Qed.

(** A run of full pages is consumed one pass per page, adding 100 each. *)
Lemma loop_full_pages channelID pages :
  Forall (λ p : list Message, length p = 100%nat) pages →
  ∀ rs cursor total s s2,
    answers session channelID cursor s ((Ok <$> pages) ++ rs) s2 →
    ∃ cursor1 s1,
      answers session channelID cursor1 s1 rs s2
      ∧ ∀ fuel,
          countChannelMessages_loop session (length pages + fuel)
            channelID cursor total s
          = countChannelMessages_loop session fuel
              channelID cursor1 (total + 100 * Z.of_nat (length pages)) s1.
Proof.
  induction 1 as [|p pages Hp Hps IH]; intros rs cursor total s s2 Hans.
  - exists cursor, s. split; [done|]. intros fuel. cbn. f_equal. lia.
  - cbn [fmap list_fmap app] in Hans.
    inversion Hans as [|? ? ? s1 ? ? Hreq Hrest]; subst.
    destruct (IH rs _ (total + 100) _ _ Hrest) as (cursor1 & s1' & Hans1 & Hloop).
    exists cursor1, s1'. split; [done|]. intros fuel.
    cbn [length Nat.add countChannelMessages_loop].
    rewrite (body_full _ _ _ _ _ _ Hreq) by lia.
    rewrite Hp, Hloop. f_equal. lia.
Qed.

End CounterFacts.

(** ** The Paginated Counter on a sequence of pages *)

Section CounterClaims.
Context {σ : Type} (session : Session σ).

(** The loop returns as soon as a short page arrives, whatever came before. *)
Lemma loop_terminates channelID rs lastPage :
  (length lastPage < 100)%nat →
  ∀ cursor total s s',
    answers session channelID cursor s (rs ++ [Ok lastPage]) s' →
    ∃ fuel r s'',
      (fuel ≤ length rs + 1)%nat
      ∧ countChannelMessages_loop session fuel channelID cursor total s
        = Some (Returned r, s'').
Proof.
  intros Hshort. induction rs as [|r rs IH]; intros cursor total s s' Hans.
  - inversion Hans as [|? ? ? s1 ? ? Hreq Hnil]; subst.
    exists 1%nat. eexists _, _. split; [cbn; lia|].
    cbn [countChannelMessages_loop].
    by rewrite (body_short _ _ _ _ _ _ _ Hreq Hshort).
  - cbn [app] in Hans. inversion Hans as [|? ? ? s1 ? ? Hreq Hrest]; subst.
    destruct r as [messages|e].
    + destruct (decide (length messages < 100)%nat) as [Hlt|Hge].
      * exists 1%nat. eexists _, _. split; [cbn; lia|].
        cbn [countChannelMessages_loop].
        by rewrite (body_short _ _ _ _ _ _ _ Hreq Hlt).
      * destruct (IH _ (total + Z.of_nat (length messages)) _ _ Hrest)
          as (fuel & r & s'' & Hfuel & Hloop).
        exists (S fuel), r, s''. split; [cbn [length]; lia|].
        cbn [countChannelMessages_loop].
        rewrite (body_full _ _ _ _ _ _ _ Hreq) by lia. exact Hloop.
    + exists 1%nat. eexists _, _. split; [cbn; lia|].
      cbn [countChannelMessages_loop].
      by rewrite (body_error _ _ _ _ _ _ _ Hreq).
Qed.

(** Against an upstream that answers every request with a full page the loop
    is still running after any number of passes. *)
Lemma loop_runs_forever :
  (∀ channelID cursor s, ∃ messages s1,
      ChannelMessages session channelID maxMessagesPerRequest cursor "" "" s
        = (Ok messages, s1)
      ∧ (100 ≤ length messages)%nat) →
  ∀ fuel channelID cursor total s,
    countChannelMessages_loop session fuel channelID cursor total s = None.
Proof.
  intros Hfull fuel channelID.
  induction fuel as [|fuel IH]; intros cursor total s; [done|].
  cbn [countChannelMessages_loop].
  destruct (Hfull channelID cursor s) as (messages & s1 & Hreq & Hlen).
  rewrite (body_full _ _ _ _ _ _ _ Hreq Hlen). apply IH.
Qed.

End CounterClaims.

(** The scripted upstream answers with its script, from the first response
    not yet served. *)
Lemma scripted_answers (sc : Script) (channelID : string) (n : nat) :
  ∀ cursor st, ∃ st',
    answers (scripted sc) channelID cursor st
      ((λ i, messages_script sc channelID (requests_on st channelID + i)%nat)
         <$> seq 0 n) st'
    ∧ requests_on st' channelID = (requests_on st channelID + n)%nat.
Proof.
  induction n as [|n IH]; intros cursor st.
  - exists st. split; [constructor|lia].
  - set (st1 := mkServed (members_served st) (channels_served st)
                  (<[channelID := S (requests_on st channelID)]> (messages_served st))).
    assert (Hreq : requests_on st1 channelID = S (requests_on st channelID)).
    { unfold requests_on, st1. cbn. by rewrite lookup_insert_eq. }
    destruct (IH (cursor_after cursor
                    (messages_script sc channelID (requests_on st channelID))) st1)
      as (st' & Hans & Hcount).
    exists st'. split; [|lia].
    cbn [seq fmap list_fmap]. rewrite Nat.add_0_r.
    econstructor; [reflexivity|].
    rewrite <- seq_shift, <- list_fmap_compose.
    erewrite list_fmap_ext; [exact Hans|].
    intros i x _. cbn. rewrite Hreq. f_equal. lia.
Qed.

(** ** Claims on the Paginated Counter *)

(** C2. When the upstream answers the successive requests on a channel with
    pages of exactly 100 entries followed by a page of [r < 100] entries,
    [countChannelMessages] returns without error the total
    [100 * (number of full pages) + r]; it returns on that first short page
    (an empty one included), leaving the upstream as the request for that page
    left it. *)
Theorem countChannelMessages_total {σ : Type} (session : Session σ)
    (channelID : string) (pages : list (list Message)) (lastPage : list Message)
    (s s' : σ) (fuel : nat) :
  Forall (λ p : list Message, length p = 100%nat) pages →
  (length lastPage < 100)%nat →
  answers session channelID "" s ((Ok <$> pages) ++ [Ok lastPage]) s' →
  (length pages < fuel)%nat →
  countChannelMessages session fuel channelID s
  = Some (Returned (100 * Z.of_nat (length pages) + Z.of_nat (length lastPage), None),
          s').
Proof.
  intros Hfull Hshort Hans Hfuel. unfold countChannelMessages.
  (* the full pages: one pass each, 100 more each time *)
  destruct (loop_full_pages session channelID pages Hfull _ "" 0 _ _ Hans)
    as (cursor1 & s1 & Hlast & Hloop).
  replace fuel with (length pages + S (fuel - length pages - 1))%nat by lia.
  rewrite Hloop. cbn [countChannelMessages_loop].
  (* the short page: the loop breaks and the total is returned *)
  inversion Hlast as [|? ? ? s2 ? ? Hreq Hnil]; subst.
  inversion Hnil; subst.
  by rewrite (body_short _ _ _ _ _ _ _ Hreq Hshort).
Qed.

Lemma countChannelMessages_total_witness :
  ∃ st, countChannelMessages (scripted demo_script) 3 "c1" nothing_served
        = Some (Returned (230, None), st)
        ∧ requests_on st "c1" = 3%nat.
Proof.
  eexists. split.
  - apply (countChannelMessages_total (scripted demo_script) "c1"
             [page 100; page 100] (page 30)).
    + repeat constructor.
    + vm_compute. lia.
    + repeat (econstructor; [reflexivity|]). constructor.
    + vm_compute. lia.
  - reflexivity.
Defined.



(** C10. Whenever [countChannelMessages] returns an error, the count returned
    with it is 0, and the error is the wrapped error of a page request: the
    total accumulated over the pages before the failure is not returned. *)
Theorem countChannelMessages_error_count_zero {σ : Type} (session : Session σ)
    (fuel : nat) (channelID : string) (s s' : σ) (n : Z) (e : error) :
  countChannelMessages session fuel channelID s = Some (Returned (n, Some e), s') →
  n = 0 ∧ ∃ e0 : error, e = "failed to get messages: " +:+ e0.
Proof.
  unfold countChannelMessages. generalize "" at 1. generalize 0 at 1.
  revert s. induction fuel as [|fuel IH]; intros s total cursor; [done|].
  cbn [countChannelMessages_loop]. unfold countChannelMessages_body.
  destruct (ChannelMessages _ _ _ _ _ _ _) as [[messages|e'] s1].
  - (* a page: either an error-free return or one more pass *)
    case_decide; [congruence|].
    destruct (messages !! _); [apply IH|congruence].
  - (* a failed request: [return 0, err], the running total is dropped *)
    intros [= <- <- <-]. eauto.
Qed.

Lemma countChannelMessages_error_count_zero_witness :
  ∃ st,
    countChannelMessages (scripted flaky_script) 5 "c9" nothing_served
    = Some (Returned (0, Some "failed to get messages: rate limited"), st)
    ∧ (0 : Z) = 0
    ∧ ∃ e0 : error,
        "failed to get messages: rate limited" = "failed to get messages: " +:+ e0.
Proof.
  eexists. split; [reflexivity|].
  eapply (countChannelMessages_error_count_zero (scripted flaky_script) 5 "c9"
            nothing_served).
  reflexivity.
Defined.

(** C6. If the upstream, asked page after page, comes to answer with a page
    of fewer than 100 entries, [countChannelMessages] returns, after at most
    one pass per response; a page of fewer than 100 entries ends the loop
    whatever the cursor and the running total; and nothing else bounds the
    loop: against an upstream that always has a full page it is still running
    after any number of passes. *)
Theorem pagination_terminates {σ : Type} (session : Session σ)
    (channelID : string) (rs : list (Result (list Message)))
    (lastPage : list Message) (s s' : σ) :
  (length lastPage < 100)%nat →
  answers session channelID "" s (rs ++ [Ok lastPage]) s' →
  (∃ fuel r s'',
      (fuel ≤ length rs + 1)%nat
      ∧ ∀ fuel', (fuel ≤ fuel')%nat →
          countChannelMessages session fuel' channelID s = Some (Returned r, s''))
  ∧ (∀ cursor total s0 messages s1,
       ChannelMessages session channelID maxMessagesPerRequest cursor "" "" s0
         = (Ok messages, s1) →
       (length messages < 100)%nat →
       countChannelMessages_body session channelID cursor total s0
       = (LoopReturn (total + Z.of_nat (length messages), None), s1))
  ∧ (∀ (τ : Type) (endless : Session τ),
       (∀ channelID cursor s, ∃ messages s1,
           ChannelMessages endless channelID maxMessagesPerRequest cursor "" "" s
             = (Ok messages, s1)
           ∧ (100 ≤ length messages)%nat) →
       ∀ fuel channelID s, countChannelMessages endless fuel channelID s = None).
Proof.
  intros Hshort Hans. split; [|split].
  - destruct (loop_terminates session channelID rs lastPage Hshort "" 0 s s' Hans)
      as (fuel & r & s'' & Hfuel & Hloop).
    exists fuel, r, s''. split; [done|]. intros fuel' Hle.
    by apply (loop_fuel_mono session fuel fuel').
  - intros cursor total s0 messages s1. apply body_short.
  - intros τ endless Hfull fuel channelID' s0.
    by apply loop_runs_forever.
Qed.

Lemma pagination_terminates_witness :
  (∃ fuel r s'',
      (fuel ≤ 3)%nat
      ∧ ∀ fuel', (fuel ≤ fuel')%nat →
          countChannelMessages (scripted demo_script) fuel' "c1" nothing_served
          = Some (Returned r, s''))
  ∧ ∀ fuel, countChannelMessages (scripted endless_script) fuel "c1" nothing_served
            = None.
Proof.
  assert (Hans : ∃ st, answers (scripted demo_script) "c1" "" nothing_served
                         ([Ok (page 100); Ok (page 100)] ++ [Ok (page 30)]) st).
  { eexists. repeat (econstructor; [reflexivity|]). constructor. }
  destruct Hans as [st Hans].
  assert (Hshort : (length (page 30) < 100)%nat) by (vm_compute; lia).
  destruct (pagination_terminates (scripted demo_script) "c1" _ _ _ _ Hshort Hans)
    as (Hterm & _ & Hforever).
  split; [exact Hterm|].
  intros fuel. apply Hforever. intros channelID cursor s.
  eexists _, _. split; [reflexivity|]. vm_compute. lia.
Defined.

(** ** Lists of goroutines *)

Section ListFacts.
Context {A : Type}.

Lemma insert_split (l : list A) (i : nat) (x y : A) :
  l !! i = Some x →
  ∃ l1 l2, l = l1 ++ x :: l2 ∧ <[i := y]> l = l1 ++ y :: l2.
Proof.
  intros Hi. exists (take i l), (drop (S i) l). split.
  - by rewrite take_drop_middle.
  - apply insert_take_drop. by eapply lookup_lt_Some.
Qed.

Context (P : A → Prop) `{!∀ x, Decision (P x)}.

Lemma filter_insert_length (l : list A) (i : nat) (x y : A) :
  l !! i = Some x →
  (length (filter P (<[i := y]> l)) + (if decide (P x) then 1 else 0)
   = length (filter P l) + (if decide (P y) then 1 else 0))%nat.
Proof.
  intros Hi. destruct (insert_split l i x y Hi) as (l1 & l2 & -> & ->).
  rewrite !filter_app, !filter_cons, !length_app.
  destruct (decide (P x)), (decide (P y)); cbn [length]; lia.
Qed.

Lemma filter_lookup_pos (l : list A) (i : nat) (x : A) :
  l !! i = Some x → P x → (0 < length (filter P l))%nat.
Proof.
  intros Hi HP.
  assert (Hin : x ∈ filter P l).
  { apply list_elem_of_filter. split; [done|]. by eapply list_elem_of_lookup_2. }
  destruct (filter P l); [by apply not_elem_of_nil in Hin|cbn; lia].
Qed.

Lemma filter_pos_lookup (l : list A) :
  (0 < length (filter P l))%nat → ∃ i x, l !! i = Some x ∧ P x.
Proof.
  intros Hpos. destruct (filter P l) as [|x f] eqn:E; [cbn in Hpos; lia|].
  assert (Hin : x ∈ filter P l) by (rewrite E; left).
  apply list_elem_of_filter in Hin as [HP Hin].
  apply list_elem_of_lookup_1 in Hin as [i Hi]. eauto.
Qed.

Lemma filter_none_length (l : list A) :
  length (filter P l) = 0%nat → ∀ x, x ∈ l → ¬ P x.
Proof.
  intros Hlen x Hin HP.
  apply list_elem_of_lookup_1 in Hin as [i Hi].
  pose proof (filter_lookup_pos l i x Hi HP). lia.
Qed.

End ListFacts.

(** ** Counting goroutines *)

Section PoolLists.
Implicit Types (ws : list (Channel * Worker)) (f : Worker → bool).

Lemma count_in_insert f ws i ch wk wk' :
  ws !! i = Some (ch, wk) →
  (count_in f (<[i := (ch, wk')]> ws) + (if f wk then 1 else 0)
   = count_in f ws + (if f wk' then 1 else 0))%nat.
Proof.
  intros Hi. unfold count_in.
  pose proof (filter_insert_length (λ cw : Channel * Worker, f cw.2 = true)
                ws i (ch, wk) (ch, wk') Hi) as H.
  cbn in H. destruct (f wk), (f wk'); repeat case_decide; try done; lia.
Qed.

Lemma count_in_app f ws ch wk :
  count_in f (ws ++ [(ch, wk)]) = (count_in f ws + (if f wk then 1 else 0))%nat.
Proof.
  unfold count_in. rewrite filter_app, length_app, filter_cons. cbn.
  destruct (f wk); case_decide; try done; cbn; lia.
Qed.

Lemma count_in_pos f ws i ch wk :
  ws !! i = Some (ch, wk) → f wk = true → (0 < count_in f ws)%nat.
Proof.
  intros Hi Hf. unfold count_in.
  by apply (filter_lookup_pos _ ws i (ch, wk)).
Qed.

Lemma count_in_pos_inv f ws :
  (0 < count_in f ws)%nat → ∃ i ch wk, ws !! i = Some (ch, wk) ∧ f wk = true.
Proof.
  intros Hpos. apply filter_pos_lookup in Hpos as (i & [ch wk] & Hi & Hf). eauto.
Qed.

Lemma names_sent_insert_same ws i ch wk wk' :
  ws !! i = Some (ch, wk) →
  has_sent wk = has_sent wk' →
  names_sent (<[i := (ch, wk')]> ws) = names_sent ws.
Proof.
  intros Hi Heq.
  destruct (insert_split ws i (ch, wk) (ch, wk') Hi) as (l1 & l2 & -> & ->).
  unfold names_sent. rewrite !filter_app, !filter_cons. cbn. rewrite Heq.
  destruct (decide (has_sent wk' = true)); [|done].
  by rewrite !fmap_app.
Qed.

Lemma names_sent_insert_send ws i ch wk wk' :
  ws !! i = Some (ch, wk) →
  has_sent wk = false →
  has_sent wk' = true →
  names_sent (<[i := (ch, wk')]> ws) ≡ₚ names_sent ws ++ [Name ch].
Proof.
  intros Hi Hno Hyes.
  destruct (insert_split ws i (ch, wk) (ch, wk') Hi) as (l1 & l2 & -> & ->).
  unfold names_sent. rewrite !filter_app, !filter_cons. cbn. rewrite Hno, Hyes.
  repeat case_decide; try done.
  rewrite !fmap_app. cbn. rewrite <- app_assoc.
  apply Permutation_app_head. by rewrite Permutation_cons_append.
Qed.

Lemma names_sent_app ws ch :
  names_sent (ws ++ [(ch, WAcquire)]) = names_sent ws.
Proof.
  unfold names_sent. rewrite filter_app. cbn. by rewrite app_nil_r.
Qed.

Lemma fst_insert ws i ch wk wk' :
  ws !! i = Some (ch, wk) → (<[i := (ch, wk')]> ws).*1 = ws.*1.
Proof.
  intros Hi. rewrite list_fmap_insert. cbn.
  apply list_insert_id. by rewrite list_lookup_fmap, Hi.
Qed.

(** When no goroutine is pending and none has panicked, all have exited, so
    each has sent its result. *)
Lemma names_sent_all ws :
  count_in pending ws = 0%nat →
  names_sent ws = Name <$> ws.*1.
Proof.
  intros Hzero. unfold names_sent.
  assert (Hall : ∀ cw, cw ∈ ws → has_sent cw.2 = true).
  { intros [ch wk] Hin.
    pose proof (filter_none_length _ ws Hzero _ Hin) as Hnp. cbn in *.
    destruct wk; cbn in *; done. }
  clear Hzero. induction ws as [|cw ws IH]; [done|].
  rewrite filter_cons. rewrite decide_True by (apply Hall; left).
  cbn. f_equal. apply IH. intros cw' Hin. apply Hall. by right.
Qed.

End PoolLists.

(** ** The invariant is kept by every step *)

Section PoolInvariant.
Context {σ : Type} (session : Session σ).
Variables (K : nat) (w0 : World σ) (active : list Channel).
Abbreviation N := (length active).
Abbreviation Inv := (pool_inv K w0 active).

Ltac pool_simpl :=
  cbn [world workers semaphore wg results results_closed closer caller received
       set_worker] in *.

Ltac pool_split :=
  constructor; pool_simpl; unfold caller_inv, publish_inv, count_workers in *;
  pool_simpl; try done.

Ltac worker_goal :=
  match goal with
  | Hcnt : ∀ (f : Worker → bool) (wk' : Worker), _
    |- context [count_in ?f (<[_ := (_, ?wk')]> _)] =>
      pose proof (Hcnt f wk'); cbn [holding pending has_sent] in *; lia
  | Hfst : ∀ wk' : Worker, (<[_ := _]> _).*1 = _ |- _ =>
      rewrite Hfst; done
  | |- Forall _ (<[_ := _]> _) => apply Forall_insert; done
  | Hi : _ !! _ = Some _ |- _ ≡ₚ names_sent (<[_ := _]> _) =>
      rewrite (names_sent_insert_same _ _ _ _ _ Hi) by reflexivity; done
  end.

Ltac publish_upstream Hpub :=
  match goal with
  | |- context [collect_results ?rs ?acc] =>
      destruct (collect_results rs acc) as [[?wp ?sc] ?ec]
  end;
  match goal with
  | |- context [match caller ?st with _ => _ end] => destruct (caller st)
  end;
  cbn [upstream set_upstream];
  [ by rewrite Hpub at 1
  | let H := fresh in
    destruct Hpub as (H & ? & ?); split; [by rewrite H at 1|done]
  | by rewrite Hpub at 1 ].

Lemma collect_result_set_upstream (s : σ) result (w : World σ) a b :
  collect_result result (set_upstream s w, a, b)
  = (set_upstream s (collect_result result (w, a, b)).1.1,
     (collect_result result (w, a, b)).1.2,
     (collect_result result (w, a, b)).2).
Proof. unfold collect_result. by destruct (err result). Qed.

Lemma collect_results_snoc results result (acc : World σ * Z * Z) :
  collect_results (results ++ [result]) acc
  = collect_result result (collect_results results acc).
Proof. unfold collect_results. by rewrite foldl_app. Qed.

Lemma pool_inv_init : Inv (pool_init w0 active).
Proof.
  constructor; cbn; try done.
  - lia.
  - by destruct w0.
Qed.

Lemma pool_inv_caller st st' :
  Inv st → caller_step st = Some st' → Inv st'.
Proof.
  intros [Hsem Hcap Hwg Hsent Hcaller Hclosed Hcloser Hpanic Hdone Hpub] Hstep.
  unfold caller_step in Hstep. unfold caller_inv, publish_inv in *.
  destruct (caller st) as [[|channel todo]|successCount errorCount|] eqn:Hc;
    [| | |done].
  - (* the dispatch loop is over: start the closing goroutine *)
    injection Hstep as <-. destruct Hcaller as (Hws & Hcl & Hrecv).
    pool_split.
    + rewrite app_nil_r in Hws. done.
    + rewrite Hcl in Hclosed. split; [|done]. intros Ht. by apply Hclosed in Ht.
    + rewrite Hrecv in *. cbn in *. done.
  - (* start one more goroutine *)
    injection Hstep as <-. destruct Hcaller as (Hws & Hcl & Hrecv).
    pool_split.
    + by rewrite count_in_app, Nat.add_0_r.
    + rewrite count_in_app. cbn. lia.
    + by rewrite names_sent_app.
    + rewrite fmap_app. cbn. by rewrite <- app_assoc.
    + by rewrite Hcl.
    + apply Forall_app. split; [done|]. by repeat constructor.
  - (* the range loop *)
    destruct (results st) as [|result rest] eqn:Hres.
    + destruct (results_closed st) eqn:Hcl; [|done]. injection Hstep as <-.
      pool_split.
      destruct (collect_results (received st) (w0, 0, 0)) as [[wp sc] ec].
      destruct Hpub as (Hw & -> & ->). by rewrite Hw at 1.
    + destruct (collect_result result (world st, successCount, errorCount))
        as [[w' sc'] ec'] eqn:Hcr.
      injection Hstep as <-.
      pool_split.
      * by rewrite <- Hsent, <- app_assoc.
      * rewrite collect_results_snoc.
        destruct (collect_results (received st) (w0, 0, 0)) as [[wp sc] ec].
        destruct Hpub as (Hw & -> & ->). rewrite Hw in Hcr.
        rewrite collect_result_set_upstream in Hcr.
        destruct (collect_result result (wp, sc, ec)) as [[wq sq] eq] eqn:Hq.
        cbn in Hcr. injection Hcr as <- <- <-. done.
Qed.

Lemma pool_inv_closer st st' :
  Inv st → closer_step st = Some st' → Inv st'.
Proof.
  intros [Hsem Hcap Hwg Hsent Hcaller Hclosed Hcloser Hpanic Hdone Hpub] Hstep.
  unfold closer_step in Hstep.
  destruct (closer st) eqn:Hcl; try done.
  destruct (wg st) eqn:Hwg0; [|done]. injection Hstep as <-.
  pool_split.
  - destruct (caller st); [|naive_solver..].
    destruct Hcaller as (_ & Hn & _). congruence.
  - intros Hd. destruct (Hdone Hd) as [? Ht]. apply Hclosed in Ht. congruence.
Qed.

Lemma pool_inv_worker i st st' :
  Inv st → worker_step session K N i st = Some st' → Inv st'.
Proof.
  intros [Hsem Hcap Hwg Hsent Hcaller Hclosed Hcloser Hpanic Hdone Hpub] Hstep.
  unfold worker_step in Hstep.
  destruct (workers st !! i) as [[channel wk]|] eqn:Hi; [|done].
  assert (Hcnt := λ f wk', count_in_insert f (workers st) i channel wk wk' Hi).
  assert (Hfst := λ wk', fst_insert (workers st) i channel wk wk' Hi).
  assert (Hpos := λ f, count_in_pos f (workers st) i channel wk Hi).
  destruct wk as [|lastMessageID totalCount|totalCount e| | | |]; try done.
  - (* acquire *)
    case_decide as Hroom; [|done]. injection Hstep as <-.
    pool_split; try worker_goal.
  - (* one pass of the counting loop *)
    destruct (countChannelMessages_body _ _ _ _ _) as [r s'] eqn:Hbody.
    injection Hstep as <-.
    assert (Hr : r ≠ LoopPanic).
    { intros ->. by apply body_no_panic in Hbody. }
    destruct r as [[n e]|lastMessageID' totalCount'|]; [| |done].
    + pool_split; try worker_goal. publish_upstream Hpub.
    + pool_split; try worker_goal. publish_upstream Hpub.
  - (* send the result *)
    destruct (results_closed st) eqn:Hcl.
    { (* the channel cannot be closed while a goroutine is pending *)
      pose proof (Hcloser (proj1 Hclosed eq_refl)).
      pose proof (Hpos pending eq_refl).
      unfold count_workers in *. lia. }
    case_decide as Hroom; [|done]. injection Hstep as <-.
    pool_split; try worker_goal.
    + rewrite (names_sent_insert_send _ _ _ _ WRelease Hi) by done.
      by rewrite app_assoc, fmap_app, Hsent.
    + intros Hd. by destruct (Hdone Hd).
  - (* give the permit back *)
    destruct (semaphore st) as [|n] eqn:Hn; [done|]. injection Hstep as <-.
    pool_split; try worker_goal. lia.
  - (* leave the wait group *)
    destruct (wg st) as [|n] eqn:Hn.
    { pose proof (Hpos pending eq_refl). unfold count_workers in *. lia. }
    injection Hstep as <-.
    pool_split; try worker_goal.
    intros Hc. by apply Hcloser in Hc.
Qed.

(** Every step keeps the invariant, so every reachable state has it. *)
Lemma pool_inv_step st st' :
  Inv st → pool_step session K N st st' → Inv st'.
Proof.
  intros Hinv [[| |i] Hstep]; cbn [step] in Hstep.
  - by eapply pool_inv_caller.
  - by eapply pool_inv_closer.
  - by eapply pool_inv_worker.
Qed.

Lemma pool_inv_reachable st :
  rtc (pool_step session K N) (pool_init w0 active) st → Inv st.
Proof.
  intros Hreach. apply rtc_nsteps in Hreach as [n Hn].
  revert st Hn. induction n as [|n IH]; intros st Hn.
  - inversion Hn; subst. apply pool_inv_init.
  - apply nsteps_inv_r in Hn as (st1 & Hn & Hstep).
    eapply pool_inv_step; eauto.
Qed.

Lemma run_reachable schedule st st' :
  run session K N schedule st = Some st' → rtc (pool_step session K N) st st'.
Proof.
  revert st. induction schedule as [|t schedule IH]; intros st Hrun.
  - cbn in Hrun. injection Hrun as <-. constructor.
  - cbn [run] in Hrun. destruct (step session K N t st) as [st1|] eqn:Hstep; [|done].
    eapply rtc_l; [by exists t|]. by apply IH.
Qed.

(** When the caller has left the range loop, every goroutine has exited, one
    result per dispatched channel has been received, and every permit is back. *)
Lemma pool_inv_done st :
  Inv st → caller st = MDone →
  channelName <$> received st ≡ₚ Name <$> active
  ∧ Forall (λ cw : Channel * Worker, cw.2 = WExited) (workers st)
  ∧ semaphore st = 0%nat
  ∧ results st = [].
Proof.
  intros [Hsem Hcap Hwg Hsent Hcaller Hclosed Hcloser Hpanic Hdone Hpub] Hd.
  destruct (Hdone Hd) as [Hres Hcl].
  pose proof (Hcloser (proj1 Hclosed Hcl)) as Hwg0.
  unfold caller_inv in Hcaller. rewrite Hd in Hcaller. destruct Hcaller as [Hws _].
  rewrite Hwg0 in Hwg. unfold count_workers in *. symmetry in Hwg.
  assert (Hex : Forall (λ cw : Channel * Worker, cw.2 = WExited) (workers st)).
  { apply Forall_forall. intros [ch wk] Hin.
    pose proof (filter_none_length _ _ Hwg _ Hin) as Hnp. cbn in *.
    by destruct wk. }
  split; [|split; [done|split; [|done]]].
  - rewrite Hres, app_nil_r in Hsent. rewrite Hsent, <- Hws.
    by rewrite names_sent_all.
  - rewrite Hsem. unfold count_in.
    destruct (filter _ (workers st)) as [|[ch wk] f] eqn:E; [done|].
    assert (Hin : (ch, wk) ∈ filter (λ cw : Channel * Worker, holding cw.2 = true)
                                    (workers st)) by (rewrite E; left).
    apply list_elem_of_filter in Hin as [Hh Hin].
    rewrite Forall_forall in Hex. specialize (Hex _ Hin). cbn in *. by subst wk.
Qed.

(** No deadlock: as long as the caller has not left the range loop, some
    goroutine can move, provided the semaphore has room for one permit. *)
Lemma pool_progress st :
  (1 ≤ K)%nat → Inv st → caller st ≠ MDone →
  ∃ t st', step session K N t st = Some st'.
Proof.
  intros HK [Hsem Hcap Hwg Hsent Hcaller Hclosed Hcloser Hpanic Hdone Hpub] Hnd.
  unfold caller_inv, count_workers in *.
  destruct (caller st) as [todo|successCount errorCount|] eqn:Hc; [| |done].
  { exists TCaller. cbn. unfold caller_step. rewrite Hc. destruct todo; eauto. }
  destruct Hcaller as [Hws Hstarted].
  destruct (results st) as [|result rest] eqn:Hres; cycle 1.
  { exists TCaller. cbn. unfold caller_step. rewrite Hc, Hres.
    destruct (collect_result _ _) as [[? ?] ?]. eauto. }
  destruct (results_closed st) eqn:Hcl.
  { exists TCaller. cbn. unfold caller_step. rewrite Hc, Hres, Hcl. eauto. }
  destruct (closer st) eqn:Hclo; [done| |].
  2:{ destruct Hclosed as [_ Hclosed]. by specialize (Hclosed eq_refl). }
  destruct (wg st) as [|n] eqn:Hwg0.
  { exists TCloser. cbn. unfold closer_step. rewrite Hclo, Hwg0. eauto. }
  assert (Hmove : ∀ i channel wk,
             workers st !! i = Some (channel, wk) →
             (wk = WAcquire ∧ (semaphore st < K)%nat)
             ∨ holding wk = true ∨ wk = WWgDone →
             ∃ st', worker_step session K N i st = Some st').
  { intros i channel wk Hi Hcase. unfold worker_step. rewrite Hi.
    assert (HN : (0 < N)%nat).
    { rewrite <- Hws, length_fmap. by eapply lookup_lt_Some, Nat.lt_lt_0 in Hi. }
    destruct Hcase as [[-> Hroom]|[Hh| ->]].
    - rewrite decide_True by done. eauto.
    - destruct wk; try done.
      + destruct (countChannelMessages_body _ _ _ _ _). eauto.
      + rewrite Hcl, Hres. rewrite decide_True by (cbn; lia). eauto.
      + pose proof (count_in_pos holding _ _ _ _ Hi eq_refl).
        destruct (semaphore st); [lia|eauto].
    - rewrite Hwg0. eauto. }
  destruct (decide (semaphore st = 0%nat)) as [Hzero|Hheld].
  - assert (Hpend : (0 < count_in pending (workers st))%nat) by lia.
    apply count_in_pos_inv in Hpend as (i & channel & wk & Hi & Hp).
    destruct (Hmove i channel wk Hi) as [st' Hst']; [|by exists (TWorker i), st'].
    destruct wk; try done.
    + left. split; [done|lia].
    + pose proof (count_in_pos holding _ _ _ _ Hi eq_refl). lia.
    + pose proof (count_in_pos holding _ _ _ _ Hi eq_refl). lia.
    + pose proof (count_in_pos holding _ _ _ _ Hi eq_refl). lia.
    + by right; right.
    + rewrite Forall_forall in Hpanic.
      by specialize (Hpanic _ (list_elem_of_lookup_2 _ _ _ Hi)).
  - assert (Hhold : (0 < count_in holding (workers st))%nat) by lia.
    apply count_in_pos_inv in Hhold as (i & channel & wk & Hi & Hh).
    destruct (Hmove i channel wk Hi) as [st' Hst']; [by right; left|].
    by exists (TWorker i), st'.
Qed.

End PoolInvariant.

(** ** A measure of the work left in the pool *)

Section PoolMeasure.
Context {σ : Type} (session : Session σ).
Variables (K N : nat).

Lemma worker_weight_insert (ws : list (Channel * Worker)) i ch wk wk' :
  ws !! i = Some (ch, wk) →
  (sum_list_with (λ cw : Channel * Worker, worker_weight cw.2) (<[i := (ch, wk')]> ws)
   + worker_weight wk
   = sum_list_with (λ cw : Channel * Worker, worker_weight cw.2) ws
     + worker_weight wk')%nat.
Proof.
  intros Hi. destruct (insert_split ws i (ch, wk) (ch, wk') Hi) as (l1 & l2 & -> & ->).
  rewrite !sum_list_with_app. cbn. lia.
Qed.

(** Every step uses up some of the work left, except a pass of a counting
    loop that asks for a further page. *)
Lemma pool_measure_step t st st' :
  step session K N t st = Some st' →
  (pool_measure st' < pool_measure st)%nat
  ∨ (pool_measure st' = pool_measure st
     ∧ ∃ i channel cursor total cursor' total',
         t = TWorker i
         ∧ workers st !! i = Some (channel, WCounting cursor total)
         ∧ workers st' !! i = Some (channel, WCounting cursor' total')).
Proof.
  destruct t as [| |i]; cbn [step]; intros Hstep.
  - left. unfold caller_step in Hstep.
    destruct (caller st) as [[|channel todo]|successCount errorCount|] eqn:Hc;
      [| | |done].
    + injection Hstep as <-. unfold pool_measure. cbn. rewrite Hc. cbn.
      destruct (closer st); cbn; lia.
    + injection Hstep as <-. unfold pool_measure. cbn. rewrite Hc. cbn.
      rewrite sum_list_with_app. cbn. lia.
    + destruct (results st) as [|result rest] eqn:Hres.
      * destruct (results_closed st); [|done]. injection Hstep as <-.
        unfold pool_measure. cbn. rewrite Hc, Hres. cbn. lia.
      * destruct (collect_result _ _) as [[? ?] ?]. injection Hstep as <-.
        unfold pool_measure. cbn. rewrite Hc, Hres. cbn. lia.
  - left. unfold closer_step in Hstep.
    destruct (closer st) eqn:Hcl; try done.
    destruct (wg st); [|done]. injection Hstep as <-.
    unfold pool_measure. cbn. rewrite Hcl. cbn. lia.
  - unfold worker_step in Hstep.
    destruct (workers st !! i) as [[channel wk]|] eqn:Hi; [|done].
    assert (Hw := λ wk', worker_weight_insert (workers st) i channel wk wk' Hi).
    destruct wk as [|cursor total|total e| | | |]; try done.
    + case_decide; [|done]. injection Hstep as <-. left.
      unfold pool_measure. cbn. specialize (Hw (WCounting "" 0)). cbn in Hw. lia.
    + destruct (countChannelMessages_body _ _ _ _ _) as [r s'].
      injection Hstep as <-.
      destruct r as [[n e]|cursor' total'|].
      * left. unfold pool_measure. cbn. specialize (Hw (WSend n e)). cbn in Hw. lia.
      * right. split.
        -- unfold pool_measure. cbn.
           specialize (Hw (WCounting cursor' total')). cbn in Hw. lia.
        -- exists i, channel, cursor, total, cursor', total'.
           split; [done|]. split; [done|]. cbn.
           apply list_lookup_insert_eq. by eapply lookup_lt_Some.
      * left. unfold pool_measure. cbn. specialize (Hw WPanicked). cbn in Hw. lia.
    + destruct (results_closed st).
      * injection Hstep as <-. left.
        unfold pool_measure. cbn. specialize (Hw WPanicked). cbn in Hw. lia.
      * case_decide; [|done]. injection Hstep as <-. left.
        unfold pool_measure. cbn. rewrite length_app. cbn.
        specialize (Hw WRelease). cbn in Hw. lia.
    + destruct (semaphore st); [done|]. injection Hstep as <-. left.
      unfold pool_measure. cbn. specialize (Hw WWgDone). cbn in Hw. lia.
    + destruct (wg st); injection Hstep as <-; left.
      * unfold pool_measure. cbn. specialize (Hw WPanicked). cbn in Hw. lia.
      * unfold pool_measure. cbn. specialize (Hw WExited). cbn in Hw. lia.
Qed.

End PoolMeasure.

(** ** Sending the result and giving the permit back *)

Section PoolRelease.
Context {σ : Type} (session : Session σ).
Variables (K : nat) (w0 : World σ) (active : list Channel).

(** A goroutine whose count has ended, with an error or without, sends its
    result and gives its permit back: its next two steps are never blocked. *)
Lemma pool_send_release (st : Pool σ) i channel n e :
  pool_inv K w0 active st →
  workers st !! i = Some (channel, WSend n e) →
  ∃ st1 st2,
    step session K (length active) (TWorker i) st = Some st1
    ∧ step session K (length active) (TWorker i) st1 = Some st2
    ∧ results st1 = results st ++ [mkResult (Name channel) n e]
    ∧ workers st2 !! i = Some (channel, WWgDone)
    ∧ S (semaphore st2) = semaphore st.
Proof.
  intros [Hsem Hcap Hwg Hsent Hcaller Hclosed Hcloser Hpanic Hdone Hpub] Hi.
  unfold count_workers in *.
  pose proof (count_in_pos pending _ _ _ _ Hi eq_refl) as Hpending.
  pose proof (count_in_pos holding _ _ _ _ Hi eq_refl) as Hholding.
  assert (Hopen : results_closed st = false).
  { destruct (results_closed st) eqn:Hcl; [|done].
    pose proof (Hcloser (proj1 Hclosed eq_refl)). lia. }
  assert (Hroom : (length (results st) < length active)%nat).
  { assert (Hlen : length (received st ++ results st)
                   = length (names_sent (workers st))).
    { rewrite <- (length_fmap channelName). by rewrite Hsent. }
    rewrite length_app in Hlen. unfold names_sent in Hlen.
    rewrite length_fmap in Hlen.
    assert (Hlt : (length (filter (λ cw : Channel * Worker, has_sent cw.2 = true)
                             (workers st)) < length (workers st))%nat).
    { apply (length_filter_lt _ _ (channel, WSend n e));
        [by eapply list_elem_of_lookup_2|done]. }
    assert (Hws : (length (workers st) ≤ length active)%nat).
    { unfold caller_inv in Hcaller. rewrite <- (length_fmap fst (workers st)).
      destruct (caller st); destruct Hcaller as [Hc _]; rewrite <- Hc;
        rewrite ?length_app; lia. }
    lia. }
  destruct (semaphore st) as [|m] eqn:Hm; [lia|].
  eexists _, _. split; [|split].
  - cbn [step]. unfold worker_step. rewrite Hi, Hopen.
    rewrite decide_True by done. reflexivity.
  - cbn [step]. unfold worker_step. cbn.
    rewrite list_lookup_insert_eq by (by eapply lookup_lt_Some).
    rewrite Hm. reflexivity.
  - cbn. split; [done|]. split; [|done].
    rewrite list_insert_insert_eq.
    apply list_lookup_insert_eq. by eapply lookup_lt_Some.
Qed.

End PoolRelease.

(** ** Claims on the Bounded Dispatcher *)

Lemma filter_length_le {A : Type} (P Q : A → Prop)
    `{!∀ x, Decision (P x)} `{!∀ x, Decision (Q x)} (l : list A) :
  (∀ x, P x → Q x) → (length (filter P l) ≤ length (filter Q l))%nat.
Proof.
  intros HPQ. induction l as [|x l IH]; [done|].
  rewrite !filter_cons.
  destruct (decide (P x)) as [HP|HP].
  - rewrite decide_True by auto. cbn. lia.
  - destruct (decide (Q x)); cbn; lia.
Qed.

(** Only a goroutine inside [countChannelMessages] talks to the upstream. *)
Lemma step_upstream {σ : Type} (session : Session σ) (K N : nat)
    (t : Thread) (st st' : Pool σ) :
  step session K N t st = Some st' →
  upstream (world st') ≠ upstream (world st) →
  ∃ i channel wk,
    t = TWorker i ∧ workers st !! i = Some (channel, wk) ∧ counting wk = true.
Proof.
  destruct t as [| |i]; cbn [step]; intros Hstep Hup.
  - exfalso. apply Hup. unfold caller_step in Hstep.
    destruct (caller st) as [[|channel todo]|successCount errorCount|];
      [| | |done]; try (by injection Hstep as <-).
    destruct (results st) as [|result rest].
    + destruct (results_closed st); [|done]. by injection Hstep as <-.
    + destruct (collect_result _ _) as [[w' ?] ?] eqn:Hcr. injection Hstep as <-.
      cbn. unfold collect_result in Hcr.
      destruct (err result); by injection Hcr as <- _ _.
  - exfalso. apply Hup. unfold closer_step in Hstep.
    destruct (closer st); try done. destruct (wg st); [|done].
    by injection Hstep as <-.
  - unfold worker_step in Hstep.
    destruct (workers st !! i) as [[channel wk]|] eqn:Hi; [|done].
    destruct wk as [|cursor total|total e| | | |]; try done;
      [|by exists i, channel, (WCounting cursor total)|..]; exfalso; apply Hup.
    + case_decide; [|done]. by injection Hstep as <-.
    + destruct (results_closed st); [by injection Hstep as <-|].
      case_decide; [|done]. by injection Hstep as <-.
    + destruct (semaphore st); [done|]. by injection Hstep as <-.
    + destruct (wg st); by injection Hstep as <-.
Qed.

(** C1. In every state that the worker pool of [updateMessageCount] reaches
    on [N] channels with a semaphore of capacity [K]:
    - the goroutines inside [countChannelMessages] are among those holding a
      permit, these are as many as the elements in [semaphore], and at most
      [K]; a request to the upstream is made only by such a goroutine;
    - the results sent so far are one for each goroutine past its send, never
      more than [N], and no goroutine has panicked;
    - once the caller has left the range loop it has received one result per
      channel ([N] in all, in the order of arrival), every goroutine has
      ended and every permit is back, whether the counts failed or not;
    - until then some goroutine can always move when [K >= 1], and every
      step uses up work left except a further page request of a counting
      loop;
    - a goroutine whose count has ended, with an error or without, sends its
      result and gives its permit back in its next two steps, which nothing
      blocks.
    [updateMessageCount] runs the pool with [K = maxConcurrentChannels = 5]. *)
Theorem dispatcher_bounded {σ : Type} (session : Session σ) (K : nat)
    (w0 : World σ) (active : list Channel) (st : Pool σ) :
  rtc (pool_step session K (length active)) (pool_init w0 active) st →
  ((count_workers counting st ≤ count_workers holding st)%nat
   ∧ count_workers holding st = semaphore st
   ∧ (semaphore st ≤ K)%nat
   ∧ ∀ t st', step session K (length active) t st = Some st' →
              upstream (world st') ≠ upstream (world st) →
              ∃ i channel wk, t = TWorker i
                              ∧ workers st !! i = Some (channel, wk)
                              ∧ counting wk = true)
  ∧ (channelName <$> (received st ++ results st) ≡ₚ names_sent (workers st)
     ∧ (length (received st ++ results st) ≤ length active)%nat
     ∧ Forall (λ cw : Channel * Worker, cw.2 ≠ WPanicked) (workers st))
  ∧ (caller st = MDone →
     channelName <$> received st ≡ₚ Name <$> active
     ∧ length (received st) = length active
     ∧ Forall (λ cw : Channel * Worker, cw.2 = WExited) (workers st)
     ∧ semaphore st = 0%nat
     ∧ results st = [])
  ∧ ((1 ≤ K)%nat → caller st ≠ MDone →
     ∃ t st', step session K (length active) t st = Some st')
  ∧ (∀ t st', step session K (length active) t st = Some st' →
       (pool_measure st' < pool_measure st)%nat
       ∨ (pool_measure st' = pool_measure st
          ∧ ∃ i channel cursor total cursor' total',
              t = TWorker i
              ∧ workers st !! i = Some (channel, WCounting cursor total)
              ∧ workers st' !! i = Some (channel, WCounting cursor' total')))
  ∧ (∀ i channel n e,
       workers st !! i = Some (channel, WSend n e) →
       ∃ st1 st2,
         step session K (length active) (TWorker i) st = Some st1
         ∧ step session K (length active) (TWorker i) st1 = Some st2
         ∧ results st1 = results st ++ [mkResult (Name channel) n e]
         ∧ workers st2 !! i = Some (channel, WWgDone)
         ∧ S (semaphore st2) = semaphore st)
  ∧ maxConcurrentChannels = 5%nat.
Proof.
  intros Hreach.
  pose proof (pool_inv_reachable session K w0 active st Hreach) as Hinv.
  split; [|split; [|split; [|split; [|split; [|split; [|reflexivity]]]]]];
    [| | | | |intros i channel n e; by apply (pool_send_release session K w0)].
  - split; [|split; [|split]].
    + unfold count_workers, count_in. apply filter_length_le.
      intros [ch wk]; cbn. by destruct wk.
    + symmetry. apply Hinv.
    + apply Hinv.
    + intros t st'. apply step_upstream.
  - split; [apply Hinv|]. split; [|apply Hinv].
    assert (Hlen : length (received st ++ results st)
                   = length (names_sent (workers st))).
    { rewrite <- (length_fmap channelName). by rewrite (inv_sent _ _ _ _ Hinv). }
    rewrite Hlen. unfold names_sent. rewrite length_fmap.
    etrans; [apply length_filter|].
    pose proof (inv_caller _ _ _ _ Hinv) as Hc. unfold caller_inv in Hc.
    rewrite <- (length_fmap fst (workers st)).
    destruct (caller st); destruct Hc as [Hc _]; rewrite <- Hc;
      rewrite ?length_app; lia.
  - intros Hd.
    destruct (pool_inv_done K w0 active st Hinv Hd) as (Hperm & Hex & Hsem & Hres).
    split; [done|]. split; [|done].
    rewrite <- (length_fmap channelName), Hperm. by rewrite length_fmap.
  - intros HK Hnd. by eapply pool_progress.
  - intros t st'. apply pool_measure_step.
Qed.

Lemma dispatcher_bounded_witness :
  ∃ st,
    run (scripted demo_script) 2 (length demo_active) demo_schedule
        (pool_init (world_init nothing_served) demo_active) = Some st
    ∧ caller st = MDone
    ∧ (semaphore st ≤ 2)%nat
    ∧ channelName <$> received st ≡ₚ Name <$> demo_active
    ∧ length (received st) = length demo_active
    ∧ semaphore st = 0%nat.
Proof.
  assert (Hc : caller <$> run (scripted demo_script) 2 (length demo_active)
                            demo_schedule
                            (pool_init (world_init nothing_served) demo_active)
               = Some MDone) by (vm_compute; reflexivity).
  destruct (run (scripted demo_script) 2 (length demo_active) demo_schedule
              (pool_init (world_init nothing_served) demo_active))
    as [st|] eqn:Hrun; [|discriminate Hc].
  exists st. split; [reflexivity|].
  assert (Hdone : caller st = MDone) by (by injection Hc).
  pose proof (dispatcher_bounded (scripted demo_script) 2
                (world_init nothing_served) demo_active st
                (run_reachable (scripted demo_script) 2 demo_active demo_schedule
                   _ _ Hrun))
    as ((_ & _ & Hcap & _) & _ & Hend & _).
  destruct (Hend Hdone) as (Hperm & Hlen & _ & Hsem & _).
  repeat split; assumption.
Defined.

(** ** Metric Publisher *)

Section PublisherFacts.
Context {σ : Type}.
Implicit Types (w : World σ) (results : list channelCountResult).

Lemma last_success_snoc name results result :
  last_success name (results ++ [result])
  = if decide (channelName result = name ∧ err result = None)
    then Some (count result) else last_success name results.
Proof. unfold last_success. by rewrite foldl_app. Qed.

(** After the loop, a gauge holds the count of the last error-free result for
    its label, and what it held before when there was none. *)
Lemma collect_results_gauge results w a b name :
  messageCountGauge (collect_results results (w, a, b)).1.1 !! name
  = match last_success name results with
    | Some n => Some n
    | None => messageCountGauge w !! name
    end.
Proof.
  induction results as [|result results IH] using rev_ind; [done|].
  rewrite collect_results_snoc, last_success_snoc.
  destruct (collect_results results (w, a, b)) as [[wp sc] ec]. cbn in IH.
  unfold collect_result. destruct (err result) as [e|] eqn:He; cbn.
  - rewrite decide_False by (intros [_ ?]; done). exact IH.
  - destruct (decide (channelName result = name)) as [->|Hne].
    + rewrite decide_True by done. apply lookup_insert_eq.
    + rewrite decide_False by (intros [? _]; done).
      rewrite lookup_insert_ne by done. exact IH.
Qed.

Lemma last_success_None name results :
  (∀ result, result ∈ results → channelName result = name →
             is_Some (err result)) →
  last_success name results = None.
Proof.
  induction results as [|result results IH] using rev_ind; intros Hfail; [done|].
  rewrite last_success_snoc. rewrite decide_False.
  - apply IH. intros r Hin. apply Hfail. apply elem_of_app. by left.
  - intros [Hn He]. destruct (Hfail result) as [e He']; [|done|congruence].
    apply elem_of_app. right. by left.
Qed.

Lemma last_success_Some name results n :
  last_success name results = Some n →
  ∃ result, result ∈ results ∧ channelName result = name
            ∧ err result = None ∧ count result = n.
Proof.
  induction results as [|result results IH] using rev_ind; [done|].
  rewrite last_success_snoc. case_decide as Hd.
  - intros [= <-]. exists result. destruct Hd. split; [|done].
    apply elem_of_app. right. by left.
  - intros H. destruct (IH H) as (r & Hin & ?). exists r. split; [|done].
    apply elem_of_app. by left.
Qed.

(** The loop touches neither the membership gauge nor the status of the
    process nor the upstream, and only adds lines to the log. *)
Lemma collect_results_frame results w a b :
  memberCountGauge (collect_results results (w, a, b)).1.1 = memberCountGauge w
  ∧ status (collect_results results (w, a, b)).1.1 = status w
  ∧ upstream (collect_results results (w, a, b)).1.1 = upstream w
  ∧ ∃ lines, log (collect_results results (w, a, b)).1.1 = log w ++ lines.
Proof.
  induction results as [|result results IH] using rev_ind.
  - cbn. repeat split; try done. exists []. by rewrite app_nil_r.
  - rewrite collect_results_snoc.
    destruct (collect_results results (w, a, b)) as [[wp sc] ec]. cbn in IH.
    destruct IH as (Hm & Hs & Hu & lines & Hl).
    unfold collect_result. destruct (err result); cbn;
      (repeat split; try done; rewrite Hl, <- app_assoc; eauto).
Qed.

Lemma log_all_frame entries w :
  memberCountGauge (log_all entries w) = memberCountGauge w
  ∧ messageCountGauge (log_all entries w) = messageCountGauge w
  ∧ status (log_all entries w) = status w
  ∧ upstream (log_all entries w) = upstream w
  ∧ log (log_all entries w) = log w ++ entries.
Proof.
  revert w. induction entries as [|e entries IH]; intros w.
  - cbn. by rewrite app_nil_r.
  - change (log_all (e :: entries) w) with (log_all entries (log_Printf e w)).
    destruct (IH (log_Printf e w)) as (-> & -> & -> & -> & ->).
    cbn. by rewrite <- app_assoc.
Qed.

End PublisherFacts.

(** ** One call of [updateMessageCount] *)

Section CycleFacts.
Context {σ : Type} (session : Session σ).

Lemma updateMessageCount_outcome config w w' :
  updateMessageCount session config w w' → cycle_outcome session config w w'.
Proof.
  intros [schedule Hrun]. unfold updateMessageCount_with in Hrun.
  destruct (GuildChannels session (ServerID config) (upstream w))
    as [[channels|e] s'] eqn:Hreq.
  2:{ injection Hrun as <-. by eapply outcome_enum_failed. }
  unfold activeChannels in *.
  destruct (activeChannels_loop config channels) as [active skipped] eqn:Hact.
  case_decide as Hlen.
  { injection Hrun as <-. eapply outcome_no_active; [done| |].
    - unfold activeChannels. rewrite Hact. cbn. by destruct active.
    - by rewrite Hact. }
  destruct (run _ _ _ _ _) as [st|] eqn:Hst; [|done].
  destruct (caller st) eqn:Hc; try done. injection Hrun as <-.
  apply run_reachable in Hst. apply pool_inv_reachable in Hst as Hinv.
  destruct (pool_inv_done _ _ _ _ Hinv Hc) as (Hperm & _).
  pose proof (inv_publish _ _ _ _ Hinv) as Hpub. unfold publish_inv in Hpub.
  rewrite Hc in Hpub.
  eapply (outcome_dispatched _ _ _ _ channels s' (received st) (upstream (world st)));
    [done| | |].
  - unfold activeChannels. rewrite Hact. cbn. by destruct active.
  - unfold activeChannels. by rewrite Hact.
  - unfold activeChannels. rewrite Hact. cbn [fst snd].
    destruct (collect_results _ _) as [[wp sc] ec]. exact Hpub.
Qed.

End CycleFacts.

(** ** What a cycle does to the gauges *)

Section CycleGauges.
Context {σ : Type} (session : Session σ).

Lemma updateMemberCount_frame serverID (w : World σ) :
  messageCountGauge (updateMemberCount session serverID w) = messageCountGauge w
  ∧ status (updateMemberCount session serverID w) = status w.
Proof.
  unfold updateMemberCount.
  destruct (GuildMembers _ _ _ _ _) as [[members|e] s']; done.
Qed.


Lemma updateMemberCount_succeeded serverID (w : World σ) members s' :
  GuildMembers session serverID "" maxMembersPerRequest (upstream w)
    = (Ok members, s') →
  memberCountGauge (updateMemberCount session serverID w)
  = Z.of_nat (length members).
Proof. intros H. unfold updateMemberCount. by rewrite H. Qed.

(** The gauges after [updateMessageCount]: one result per eligible channel of
    the cycle was received, and each label holds the count of the last
    error-free result for it, or what it held before. *)
Lemma updateMessageCount_gauge config (w w' : World σ) :
  updateMessageCount session config w w' →
  ∃ received,
    channelName <$> received ≡ₚ Name <$> cycle_channels session config w
    ∧ (∀ name,
         messageCountGauge w' !! name
         = match last_success name received with
           | Some n => Some n
           | None => messageCountGauge w !! name
           end)
    ∧ memberCountGauge w' = memberCountGauge w
    ∧ status w' = status w.
Proof.
  intros Hrun. apply updateMessageCount_outcome in Hrun.
  unfold cycle_channels.
  destruct Hrun as [e s' Hreq ->|channels s' Hreq Hnone ->
                    |channels s' received s'' Hreq Hsome Hperm ->]; rewrite Hreq.
  - exists []. done.
  - exists []. rewrite Hnone. split; [done|].
    destruct (log_all_frame (activeChannels_loop config channels).2
                (set_upstream s' w)) as (Hm & Hg & Hs & _).
    cbn. by rewrite Hm, Hg, Hs.
  - exists received. split; [done|].
    set (w1 := log_Printf _ _).
    pose proof (collect_results_gauge received w1 0 0) as Hg.
    destruct (collect_results_frame received w1 0 0) as (Hm & Hs & _).
    destruct (collect_results received (w1, 0, 0)) as [[wp sc] ec].
    cbn in *.
    destruct (log_all_frame (activeChannels_loop config channels).2
                (set_upstream s' w)) as (Hm1 & Hg1 & Hs1 & _).
    split; [|split].
    + intros name. rewrite Hg. unfold w1. cbn. by rewrite Hg1.
    + rewrite Hm. unfold w1. cbn. by rewrite Hm1.
    + rewrite Hs. unfold w1. cbn. by rewrite Hs1.
Qed.

(** No result of a cycle carries the name of an excluded channel. *)
Lemma cycle_channels_eligible config (w : World σ) channel :
  channel ∈ cycle_channels session config w → eligible config channel.
Proof.
  unfold cycle_channels.
  destruct (GuildChannels _ _ _) as [[channels|e] s']; [|by intros ?%not_elem_of_nil].
  rewrite activeChannels_filter. intros Hin.
  by apply list_elem_of_filter in Hin as [? _].
Qed.

Lemma updateMessageCount_excluded config (w w' : World σ) name :
  updateMessageCount session config w w' →
  is_Some (ExcludedChannels config !! name) →
  messageCountGauge w' !! name = messageCountGauge w !! name.
Proof.
  intros Hrun Hex.
  destruct (updateMessageCount_gauge config w w' Hrun) as (received & Hperm & Hg & _).
  rewrite Hg. rewrite last_success_None; [done|].
  intros result Hin Hname. exfalso.
  assert (Hn : name ∈ channelName <$> received).
  { rewrite <- Hname. by apply list_elem_of_fmap_2. }
  rewrite Hperm in Hn. apply list_elem_of_fmap in Hn as (channel & -> & Hc).
  apply cycle_channels_eligible in Hc as [_ Hnone].
  rewrite Hnone in Hex. by destruct Hex.
Qed.

End CycleGauges.

(** ** The collector loop *)

Section CollectorFacts.
Context {σ : Type} (session : Session σ) (config : Config).

Lemma next_begin_snoc t0 hist (b e : Z) :
  next_begin t0 (hist ++ [(b, e)]) = e + defaultUpdateInterval.
Proof. unfold next_begin. by rewrite last_snoc. Qed.

(** What holds of the collector wherever it stands: the world is alive as it
    was at the start, no excluded name has been written, every completed
    cycle began when it was due and ended no earlier, and the clock is where
    the place in the loop says. *)
Lemma collector_reachable_inv (w0 : World σ) (t0 : Z) (c : @Collector σ) :
  rtc (collector_step session config) (collector_init w0 t0) c →
  status (cworld c) = status w0
  ∧ (∀ name, is_Some (ExcludedChannels config !! name) →
       messageCountGauge (cworld c) !! name = messageCountGauge w0 !! name)
  ∧ (∀ k b e, history c !! k = Some (b, e) →
       b = next_begin t0 (take k (history c)) ∧ b ≤ e)
  ∧ match pc c with
    | AtMemberCount => now c = next_begin t0 (history c)
    | AtMessageCount => begun c = next_begin t0 (history c) ∧ begun c ≤ now c
    | AtSleep => ∃ b, last (history c) = Some (b, now c)
    end.
Proof.
  revert c. apply rtc_ind_r; [|intros c1 c2 Hreach Hstep IH].
  - cbn. repeat split; done.
  - destruct IH as (Hst & Hex & Htl & Hpc).
    destruct Hstep as [w t t' b hist Hle|w w' t t' b hist Hrun Hle|w t b hist];
      cbn [pc cworld now begun history] in *.
    + destruct (updateMemberCount_frame session (ServerID config) w) as [Hg Hs].
      split; [by rewrite Hs|]. split; [|split; [done|]].
      * intros name Hn. rewrite Hg. by apply Hex.
      * split; [done|lia].
    + destruct (updateMessageCount_gauge session config w w' Hrun)
        as (received & _ & _ & _ & Hs).
      split; [by rewrite Hs|]. split; [|split].
      * intros name Hn.
        rewrite (updateMessageCount_excluded session config w w' name Hrun Hn).
        by apply Hex.
      * intros k b' e' Hk.
        destruct (decide (k < length hist)%nat) as [Hlt|Hge].
        -- rewrite lookup_app_l in Hk by done.
           rewrite take_app_le by lia. by apply Htl.
        -- rewrite lookup_app_r in Hk by lia.
           destruct (k - length hist)%nat as [|j] eqn:Hj; [|by destruct j].
           cbn in Hk. injection Hk as <- <-.
           assert (k = length hist) as -> by lia.
           rewrite take_app_length. destruct Hpc as [-> Hb]. split; [done|lia].
      * exists b. apply last_snoc.
    + split; [done|]. split; [done|]. split; [done|].
      destruct Hpc as [b' Hlast]. unfold next_begin. by rewrite Hlast.
Qed.

(** Each statement of the loop is followed by the next one. *)
Lemma collector_step_pc (c c' : @Collector σ) :
  collector_step session config c c' → pc c' = next_pc (pc c).
Proof. by intros []. Qed.

End CollectorFacts.

(** ** Claim on the Scheduler *)

(** C8. The collector started at [t0] runs the membership count first, with
    no wait before it, then the message count, then sleeps, and so on in that
    order for ever; each completed cycle began when the loop reached it and
    ended no earlier; the first began at [t0] and every later one began
    exactly [defaultUpdateInterval] (15 minutes) after the end of the cycle
    before it, hence after it and never on top of it; the sleep is the same
    whatever the cycle did; and the loop has no way out: from the sleep and
    from the membership count it always goes on, and from the message count
    it goes on as soon as [updateMessageCount] returns. Two cycles thus begin
    one cycle's duration plus the interval apart, not at a fixed cadence. *)
Theorem scheduler_timing {σ : Type} (session : Session σ) (config : Config)
    (w0 : World σ) (t0 : Z) (c : @Collector σ) :
  rtc (collector_step session config) (collector_init w0 t0) c →
  (pc (collector_init w0 t0) = AtMemberCount ∧ now (collector_init w0 t0) = t0)
  ∧ (∀ c', collector_step session config c c' → pc c' = next_pc (pc c))
  ∧ (∀ k b e, history c !! k = Some (b, e) →
       b ≤ e
       ∧ (k = 0%nat → b = t0)
       ∧ ∀ b' e', history c !! S k = Some (b', e') →
                  b' = e + defaultUpdateInterval
                  ∧ e < b'
                  ∧ b' - b = (e - b) + defaultUpdateInterval)
  ∧ defaultUpdateInterval = 15 * 60 * 1000000000
  ∧ (pc c = AtSleep →
     ∀ c', collector_step session config c c' →
           now c' = now c + defaultUpdateInterval ∧ cworld c' = cworld c)
  ∧ (pc c ≠ AtMessageCount → ∃ c', collector_step session config c c')
  ∧ (pc c = AtMessageCount →
     ∀ w', updateMessageCount session config (cworld c) w' →
           ∃ c', collector_step session config c c' ∧ cworld c' = w').
Proof.
  intros Hreach.
  destruct (collector_reachable_inv session config w0 t0 c Hreach)
    as (_ & _ & Htl & _).
  split; [done|]. split; [apply collector_step_pc|].
  split; [|split; [reflexivity|split; [|split]]].
  - intros k b e Hk. destruct (Htl k b e Hk) as [Hb Hle].
    split; [done|]. split.
    + intros ->. by rewrite take_0 in Hb.
    + intros b' e' Hk'. destruct (Htl (S k) b' e' Hk') as [Hb' _].
      rewrite (take_S_r _ _ _ Hk), next_begin_snoc in Hb'.
      split; [done|]. rewrite Hb'. unfold defaultUpdateInterval, Minute. lia.
  - intros Hpc c' Hstep. destruct Hstep; try done.
  - destruct c as [p w t b hist]. cbn. intros Hpc. destruct p; [|done|].
    + eexists. by apply (step_member session config w t t b hist).
    + eexists. apply step_sleep.
  - destruct c as [p w t b hist]. cbn. intros -> w' Hrun.
    eexists. split; [by apply (step_message session config w w' t t b hist)|done].
Qed.

Lemma scheduler_timing_witness :
  ∃ c : @Collector Served,
    rtc (collector_step (scripted flaky_script) demo_config)
        (collector_init (world_init nothing_served) 0) c
    ∧ history c = [(0, 7); (900000000007, 900000000009)]
    ∧ (∀ k b e, history c !! k = Some (b, e) →
         b ≤ e
         ∧ (k = 0%nat → b = 0)
         ∧ ∀ b' e', history c !! S k = Some (b', e') →
                    b' = e + defaultUpdateInterval
                    ∧ e < b'
                    ∧ b' - b = (e - b) + defaultUpdateInterval).
Proof.
  assert (Hrun : ∀ w : World Served, ∃ w',
             updateMessageCount (scripted flaky_script) demo_config w w').
  { intros w. eexists. exists []. reflexivity. }
  set (w1 := updateMemberCount (scripted flaky_script) (ServerID demo_config)
               (world_init nothing_served)).
  destruct (Hrun w1) as [w2 Hw2].
  set (w3 := updateMemberCount (scripted flaky_script) (ServerID demo_config) w2).
  destruct (Hrun w3) as [w4 Hw4].
  assert (Hreach :
    rtc (collector_step (scripted flaky_script) demo_config)
        (collector_init (world_init nothing_served) 0)
        (mkCollector AtSleep w4 900000000009 900000000007
                     [(0, 7); (900000000007, 900000000009)])).
  { eapply rtc_l; [apply (step_member _ _ _ 0 5); lia|].
    eapply rtc_l; [apply (step_message _ _ _ w2 5 7); [exact Hw2|lia]|].
    eapply rtc_l; [apply step_sleep|].
    eapply rtc_l; [apply (step_member _ _ _ _ 900000000008); vm_compute; congruence|].
    eapply rtc_l; [apply (step_message _ _ _ w4 _ 900000000009); [exact Hw4|lia]|].
    apply rtc_refl. }
  eexists. split; [exact Hreach|]. split; [reflexivity|].
  apply (scheduler_timing (scripted flaky_script) demo_config
           (world_init nothing_served) 0 _ Hreach).
Defined.

(** ** Claims on the Channel Enumerator and the Metric Publisher *)



Example demo_active_channels :
  Name <$> activeChannels demo_config demo_channels = ["general"; "random"; "dev"].
Proof. vm_compute. reflexivity. Qed.

Section PublisherClaims.
Context {σ : Type}.
Implicit Types (w : World σ) (results : list channelCountResult).

Lemma last_success_is_Some results result :
  result ∈ results → err result = None →
  is_Some (last_success (channelName result) results).
Proof.
  induction results as [|r results IH] using rev_ind; intros Hin He.
  - by apply not_elem_of_nil in Hin.
  - rewrite last_success_snoc. case_decide as Hd; [done|].
    apply elem_of_app in Hin as [Hin|Hin]; [by apply IH|].
    apply list_elem_of_singleton in Hin as ->. by destruct Hd.
Qed.

Lemma NoDup_fmap_eq {A B : Type} (f : A → B) (l : list A) (x y : A) :
  NoDup (f <$> l) → x ∈ l → y ∈ l → f x = f y → x = y.
Proof.
  induction l as [|a l IH]; intros Hnd Hx Hy Hf.
  - by apply not_elem_of_nil in Hx.
  - cbn in Hnd. apply NoDup_cons in Hnd as [Hna Hnd].
    apply elem_of_cons in Hx as [->|Hx]; apply elem_of_cons in Hy as [->|Hy].
    + done.
    + exfalso. apply Hna. rewrite Hf. by apply list_elem_of_fmap_2.
    + exfalso. apply Hna. rewrite <- Hf. by apply list_elem_of_fmap_2.
    + by apply IH.
Qed.


End PublisherClaims.




(** ** Claim on error containment *)

Section Containment.
Context {σ : Type} (session : Session σ) (config : Config).


(** ... and the call returns whatever the schedule. *)
Lemma updateMessageCount_enum_failed_returns (w : World σ) e s' :
  GuildChannels session (ServerID config) (upstream w) = (Err e, s') →
  updateMessageCount session config w
    (log_Printf (LogFailedChannels e) (set_upstream s' w)).
Proof.
  intros Hreq. exists []. unfold updateMessageCount_with. by rewrite Hreq.
Qed.

End Containment.






(** ** The single-loop form of the exporter *)

(** On pages of 100, 100 and 30 messages the inner loop of src/main.go counts
    230, as [countChannelMessages] does. *)
Example Legacy_count_loop_total :
  fst <$> Legacy.count_loop (scripted demo_script) 3 "c1" "" 0
            (world_init nothing_served)
  = Some 230.
Proof. vm_compute. reflexivity. Qed.

(** There a failed request ends the count with the total reached so far,
    which is then published: 200 after two full pages and a failure. *)
Example Legacy_partial_total_published :
  (λ w : World Served, (messageCountGauge w !! "general", log w))
    <$> Legacy.count_channel (scripted flaky_script) 3
          (mkChannel "c1" "general" ChannelTypeGuildText)
          (world_init nothing_served)
  = Some (Some 200, [LogFailedCount "c1" "rate limited"; LogChannel "general" 200]).
Proof. vm_compute. reflexivity. Qed.

(** There a failed membership fetch ends the process. *)
Lemma Legacy_member_fetch_fatal {σ : Type} (session : Session σ)
    (serverID : string) (w : World σ) e s' :
  GuildMembers session serverID "" 1000 (upstream w) = (Err e, s') →
  status (Legacy.updateMemberCount session serverID w) = Exited 1.
Proof. intros H. unfold Legacy.updateMemberCount. by rewrite H. Qed.

(** ... and so does a failed enumeration. *)
Lemma Legacy_enum_fatal {σ : Type} (session : Session σ)
    (fuel : nat) (serverID : string) (w : World σ) e s' :
  GuildChannels session serverID (upstream w) = (Err e, s') →
  status <$> Legacy.updateMessageCount session fuel serverID w = Some (Exited 1).
Proof. intros H. unfold Legacy.updateMessageCount. by rewrite H. Qed.

(** ** The sample server, end to end *)

(** With pages of 100, 100, 30 messages, of 0 messages and of four times 100
    messages, two permits and the interleaving [demo_schedule], the gauges
    come out as 230, 0 and 400; the voice channel and the excluded channel get
    no entry. *)
Example demo_cycle_gauges :
  (λ w : World Served,
     (messageCountGauge w !! "general", messageCountGauge w !! "random",
      messageCountGauge w !! "dev", messageCountGauge w !! "lounge",
      messageCountGauge w !! "general-archive"))
    <$> updateMessageCount_with (scripted demo_script) demo_schedule demo_config
          (world_init nothing_served)
  = Some (Some 230, Some 0, Some 400, None, None).
Proof. vm_compute. reflexivity. Qed.

(** The order in which the results arrive depends on the interleaving; the
    gauges do not. *)
Example demo_results_order :
  (λ st : Pool Served, channelName <$> received st)
    <$> run (scripted demo_script) 2 3 demo_schedule
          (pool_init (world_init nothing_served) demo_active)
  = Some ["random"; "general"; "dev"]
  ∧ (λ st : Pool Served, channelName <$> received st)
      <$> run (scripted demo_script) 2 3 demo_schedule_in_turn
            (pool_init (world_init nothing_served) demo_active)
    = Some ["general"; "random"; "dev"]
  ∧ (messageCountGauge
       <$> updateMessageCount_with (scripted demo_script) demo_schedule
             demo_config (world_init nothing_served))
    = (messageCountGauge
         <$> updateMessageCount_with (scripted demo_script) demo_schedule_in_turn
               demo_config (world_init nothing_served)).
Proof. vm_compute. repeat split; reflexivity. Qed.

(** With two permits a third goroutine has to wait: asked to take a permit
    while two are held, it has no step. *)
Example demo_third_worker_waits :
  run (scripted demo_script) 2 3
      [TCaller; TCaller; TCaller; TCaller; TWorker 0; TWorker 1; TWorker 2]
      (pool_init (world_init nothing_served) demo_active)
  = None.
Proof. vm_compute. reflexivity. Qed.

(** * Further properties *)

(** ** Facts on the strings that [parseExcludedChannels] handles *)

Section StringFacts.
Import GoStrings.

Lemma rev_app_rev_app (s a b : string) :
  String.rev_app (String.rev_app s a) b = String.rev_app a (s +:+ b).
Proof.
  revert a b. induction s as [|c s IH]; intros a b; [done|].
  cbn [String.rev_app]. by rewrite IH.
Qed.

Lemma append_cons (c : ascii) (a b : string) :
  String c a +:+ b = String c (a +:+ b).
Proof. reflexivity. Qed.

Lemma append_empty_r (s : string) : s +:+ "" = s.
Proof. induction s as [|c s IH]; [done|]. by rewrite append_cons, IH. Qed.

Lemma append_assoc' (a b c : string) : (a +:+ b) +:+ c = a +:+ (b +:+ c).
Proof. induction a as [|x a IH]; [done|]. by rewrite !append_cons, IH. Qed.

Lemma rev_rev (s : string) : String.rev (String.rev s) = s.
Proof. unfold String.rev. rewrite rev_app_rev_app. cbn. apply append_empty_r. Qed.

Lemma rev_app_append (s a : string) :
  String.rev_app s a = String.rev s +:+ a.
Proof.
  unfold String.rev. revert a. induction s as [|c s IH]; intros a; [done|].
  cbn [String.rev_app]. rewrite (IH (String c "")), (IH (String c a)).
  by rewrite append_assoc'.
Qed.

Lemma rev_append (a b : string) :
  String.rev (a +:+ b) = String.rev b +:+ String.rev a.
Proof.
  induction a as [|c a IH].
  - change ("" +:+ b) with b. by rewrite append_empty_r.
  - rewrite append_cons. unfold String.rev in *. cbn [String.rev_app].
    rewrite (rev_app_append (a +:+ b)), (rev_app_append a (String c "")).
    unfold String.rev. rewrite IH. by rewrite append_assoc'.
Qed.

Lemma TrimLeftSpace_fixed (s : string) :
  leading_space s = false → TrimLeftSpace s = s.
Proof.
  intros H. destruct s as [|a [|b [|c s]]]; [done| | |];
    cbn in H |- *; destruct (asciiSpace a); try done;
    destruct (space2 a b); try done.
  by destruct (space3 a b c).
Qed.

Lemma TrimLeftSpace_suffix_bounded (n : nat) (s : string) :
  (String.length s ≤ n)%nat →
  leading_space (TrimLeftSpace s) = false
  ∧ ∃ p, s = p +:+ TrimLeftSpace s.
Proof.
  revert s. induction n as [n IH] using lt_wf_ind; intros s Hn.
  destruct s as [|a s1]; [split; [done|by exists ""]|].
  cbn [TrimLeftSpace]. destruct (asciiSpace a) eqn:Ha.
  { destruct (IH (String.length s1) ltac:(cbn in Hn; lia) s1 ltac:(lia)) as [H1 [p Hp]].
    split; [done|]. exists (String a p). rewrite !append_cons. by rewrite <- Hp. }
  destruct s1 as [|b s2].
  { split; [cbn; by rewrite Ha|by exists ""]. }
  destruct (space2 a b) eqn:Hb.
  { destruct (IH (String.length s2) ltac:(cbn in Hn; lia) s2 ltac:(lia)) as [H1 [p Hp]].
    split; [done|]. exists (String a (String b p)). rewrite !append_cons. by rewrite <- Hp. }
  destruct s2 as [|c s3].
  { split; [cbn; by rewrite Ha, Hb|by exists ""]. }
  destruct (space3 a b c) eqn:Hc.
  { destruct (IH (String.length s3) ltac:(cbn in Hn; lia) s3 ltac:(lia)) as [H1 [p Hp]].
    split; [done|]. exists (String a (String b (String c p))). rewrite !append_cons. by rewrite <- Hp. }
  split; [cbn; by rewrite Ha, Hb, Hc|by exists ""].
Qed.

Lemma TrimLeftSpace_no_leading (s : string) :
  leading_space (TrimLeftSpace s) = false.
Proof. by apply (TrimLeftSpace_suffix_bounded (String.length s)). Qed.

Lemma TrimLeftSpace_suffix (s : string) : ∃ p, s = p +:+ TrimLeftSpace s.
Proof. by apply (TrimLeftSpace_suffix_bounded (String.length s)). Qed.

Lemma TrimLeftSpaceRev_fixed (r : string) :
  trailing_space_rev r = false → TrimLeftSpaceRev r = r.
Proof.
  intros H. destruct r as [|a [|b [|c r]]]; [done| | |];
    cbn in H |- *; destruct (asciiSpace a); try done;
    destruct (space2 b a); try done.
  by destruct (space3 c b a).
Qed.

Lemma TrimLeftSpaceRev_suffix_bounded (n : nat) (r : string) :
  (String.length r ≤ n)%nat →
  trailing_space_rev (TrimLeftSpaceRev r) = false
  ∧ ∃ p, r = p +:+ TrimLeftSpaceRev r.
Proof.
  revert r. induction n as [n IH] using lt_wf_ind; intros s Hn.
  destruct s as [|a s1]; [split; [done|by exists ""]|].
  cbn [TrimLeftSpaceRev]. destruct (asciiSpace a) eqn:Ha.
  { destruct (IH (String.length s1) ltac:(cbn in Hn; lia) s1 ltac:(lia)) as [H1 [p Hp]].
    split; [done|]. exists (String a p). rewrite !append_cons. by rewrite <- Hp. }
  destruct s1 as [|b s2].
  { split; [cbn; by rewrite Ha|by exists ""]. }
  destruct (space2 b a) eqn:Hb.
  { destruct (IH (String.length s2) ltac:(cbn in Hn; lia) s2 ltac:(lia)) as [H1 [p Hp]].
    split; [done|]. exists (String a (String b p)). rewrite !append_cons. by rewrite <- Hp. }
  destruct s2 as [|c s3].
  { split; [cbn; by rewrite Ha, Hb|by exists ""]. }
  destruct (space3 c b a) eqn:Hc.
  { destruct (IH (String.length s3) ltac:(cbn in Hn; lia) s3 ltac:(lia)) as [H1 [p Hp]].
    split; [done|]. exists (String a (String b (String c p))). rewrite !append_cons. by rewrite <- Hp. }
  split; [cbn; by rewrite Ha, Hb, Hc|by exists ""].
Qed.

Lemma TrimRightSpace_prefix (s : string) : ∃ u, s = TrimRightSpace s +:+ u.
Proof.
  unfold TrimRightSpace.
  destruct (TrimLeftSpaceRev_suffix_bounded (String.length (String.rev s)) (String.rev s))
    as [_ [p Hp]]; [done|].
  exists (String.rev p).
  rewrite <- rev_append, <- Hp. by rewrite rev_rev.
Qed.

Lemma TrimRightSpace_idemp (s : string) :
  TrimRightSpace (TrimRightSpace s) = TrimRightSpace s.
Proof.
  unfold TrimRightSpace. rewrite rev_rev. f_equal.
  apply TrimLeftSpaceRev_fixed.
  by apply (TrimLeftSpaceRev_suffix_bounded (String.length (String.rev s))).
Qed.

Lemma leading_space_prefix (p u : string) :
  leading_space p = true → leading_space (p +:+ u) = true.
Proof.
  intros H. destruct p as [|a p]; [done|].
  rewrite append_cons. cbn in H |- *. destruct (asciiSpace a); [done|].
  destruct p as [|b p]; [done|].
  rewrite append_cons. cbn in H |- *. destruct (space2 a b); [done|].
  destruct p as [|c p]; [done|].
  rewrite append_cons. done.
Qed.

Lemma TrimSpace_idemp (s : string) : TrimSpace (TrimSpace s) = TrimSpace s.
Proof.
  unfold TrimSpace.
  assert (leading_space (TrimRightSpace (TrimLeftSpace s)) = false) as Hlead.
  { destruct (TrimRightSpace_prefix (TrimLeftSpace s)) as [u Hu].
    destruct (leading_space (TrimRightSpace (TrimLeftSpace s))) eqn:H; [|done].
    apply (leading_space_prefix _ u) in H. rewrite <- Hu in H.
    by rewrite TrimLeftSpace_no_leading in H. }
  rewrite (TrimLeftSpace_fixed _ Hlead). apply TrimRightSpace_idemp.
Qed.

Lemma list_ascii_append (a b : string) :
  list_ascii_of_string (a +:+ b) = list_ascii_of_string a ++ list_ascii_of_string b.
Proof.
  induction a as [|c a IH]; [done|].
  rewrite append_cons. cbn [list_ascii_of_string]. by rewrite IH.
Qed.

(** Trimming takes bytes away at both ends and adds none. *)
Lemma TrimSpace_bytes (s : string) (c : ascii) :
  c ∈ list_ascii_of_string (TrimSpace s) → c ∈ list_ascii_of_string s.
Proof.
  unfold TrimSpace. intros Hc.
  destruct (TrimRightSpace_prefix (TrimLeftSpace s)) as [u Hu].
  destruct (TrimLeftSpace_suffix s) as [p Hp].
  rewrite Hp, list_ascii_append, Hu, list_ascii_append.
  set_solver.
Qed.

(** No piece of a split holds the separator. *)
Lemma Split_pieces (s : string) (sep : ascii) :
  Forall (λ piece, sep ∉ list_ascii_of_string piece) (Split s sep).
Proof.
  induction s as [|c s IH]; cbn.
  - repeat constructor. set_solver.
  - case_decide as Hc.
    + constructor; [set_solver|done].
    + destruct (Split s sep) as [|piece pieces]; [repeat constructor; set_solver|].
      inversion_clear IH as [|? ? H1 H2]. constructor; [|done].
      cbn. set_solver.
Qed.

(** Splitting what was joined gives the pieces back, when no piece holds
    the separator. *)
Lemma Split_join (names : list string) (sep : ascii) :
  names ≠ [] →
  Forall (λ name, sep ∉ list_ascii_of_string name) names →
  Split (String.concat (String sep "") names) sep = names.
Proof.
  intros Hne Hall. induction Hall as [|name names Hname Hall IH]; [done|].
  clear Hne. destruct names as [|name' names].
  - cbn. clear IH Hall. induction name as [|c name IHn]; [done|].
    cbn. rewrite decide_False by set_solver.
    rewrite IHn by (cbn in Hname; set_solver). done.
  - specialize (IH ltac:(done)).
    change (String.concat (String sep "") (name :: name' :: names))
      with (name +:+ String sep "" +:+ String.concat (String sep "") (name' :: names)).
    set (rest := String.concat (String sep "") (name' :: names)) in *.
    induction name as [|c name IHn].
    + change ("" +:+ String sep "" +:+ rest) with (String sep rest).
      cbn [Split]. rewrite decide_True by done. by rewrite IH.
    + rewrite append_cons. cbn [Split].
      rewrite decide_False by (cbn in Hname; set_solver).
      rewrite IHn by (cbn in Hname; set_solver). done.
Qed.

End StringFacts.

(** ** Configuration: what [loadConfig] and [main] let through *)

(** X1. [main] starts the collector exactly when the configuration file can
    be read, its token and its server identifier are not empty and the
    session can be created; the configuration it hands to the collector then
    holds these two settings and the parsed exclusion list, and the start-up
    has written its three log lines and touched nothing else. *)
Theorem main_starts_with_valid_config {σ : Type} (f : ConfigFile)
    (newSession : option error) (w w' : World σ) (config : Config) :
  main f newSession w = CollectorStarted config w'
  ↔ (readError f = None ∧ token f ≠ "" ∧ serverID f ≠ "" ∧ newSession = None)
    ∧ config = mkConfig (token f) (serverID f)
                 (parseExcludedChannels (excludeChannels f))
    ∧ w' = mkWorld (upstream w) (memberCountGauge w) (messageCountGauge w)
             (log w ++ [LogConfigLoaded (serverID f);
                        LogExcludedCount
                          (Z.of_nat (size (parseExcludedChannels (excludeChannels f))));
                        LogSessionCreated])
             (status w).
Proof.
  unfold main, loadConfig. split.
  - destruct (readError f); [done|]. cbn [Token ServerID].
    repeat case_decide; try done.
    destruct newSession; [done|]. intros [= <- <-].
    repeat split; try done.
    unfold log_Printf. cbn. by rewrite <- !(assoc_L (++)).
  - intros ((-> & Ht & Hs & ->) & -> & ->). cbn [Token ServerID].
    rewrite !decide_False by done. f_equal.
    unfold log_Printf. cbn. by rewrite <- !(assoc_L (++)).
Qed.

Lemma main_starts_with_valid_config_witness :
  main demo_file None (world_init ())
  = CollectorStarted
      (mkConfig "secret" "guild" (parseExcludedChannels "general-archive, bots"))
      (mkWorld () 0 ∅
         [LogConfigLoaded "guild";
          LogExcludedCount
            (Z.of_nat (size (parseExcludedChannels "general-archive, bots")));
          LogSessionCreated]
         Running).
Proof.
  apply (proj2 (main_starts_with_valid_config demo_file None (world_init ()) _ _)).
  repeat split; done.
Defined.

(** X2. No key of the exclusion map is empty, holds a comma, or has white
    space at either end: a channel whose name does cannot be excluded. *)
Theorem parseExcludedChannels_keys (channelsStr name : string) :
  is_Some (parseExcludedChannels channelsStr !! name) →
  name ≠ ""
  ∧ (","%char ∉ list_ascii_of_string name)
  ∧ GoStrings.TrimSpace name = name.
Proof.
  intros Hname%elem_of_dom. unfold parseExcludedChannels in Hname.
  case_decide; [set_solver|].
  rewrite parse_loop_dom in Hname.
  apply elem_of_union in Hname as [Hname|Hname]; [set_solver|].
  apply elem_of_list_to_set, list_elem_of_filter in Hname as [Hne Hname].
  apply list_elem_of_fmap in Hname as (piece & -> & Hpiece).
  split; [done|]. split.
  - intros Hc%TrimSpace_bytes.
    pose proof (Split_pieces channelsStr ",") as Hall.
    rewrite Forall_forall in Hall. by apply (Hall piece).
  - apply TrimSpace_idemp.
Qed.

Lemma parseExcludedChannels_keys_witness :
  is_Some (parseExcludedChannels " general-archive , ,bots,,  " !! "bots")
  ∧ "bots" ≠ ""
  ∧ (","%char ∉ list_ascii_of_string "bots")
  ∧ GoStrings.TrimSpace "bots" = "bots".
Proof.
  assert (is_Some (parseExcludedChannels " general-archive , ,bots,,  " !! "bots"))
    as H by (exists (); vm_compute; reflexivity).
  split; [exact H|].
  exact (parseExcludedChannels_keys _ _ H).
Defined.

(** X3. A list of names written with commas between them is read back as
    the set of these names, when each name is one that can be a key: not
    empty, without a comma, without white space at either end. *)
Theorem parseExcludedChannels_join (names : list string) :
  Forall (λ name, name ≠ ""
                  ∧ (","%char ∉ list_ascii_of_string name)
                  ∧ GoStrings.TrimSpace name = name) names →
  dom (parseExcludedChannels (String.concat "," names)) = list_to_set names.
Proof.
  intros Hall. destruct names as [|name names]; [done|].
  unfold parseExcludedChannels. rewrite decide_False.
  - rewrite Split_join; [|done|].
    + rewrite parse_loop_dom, dom_empty_L, (left_id_L ∅ (∪)). f_equal.
      induction Hall as [|n ns (Hne & _ & Htrim) Hall IH]; [done|].
      rewrite fmap_cons, Htrim, filter_cons_True by done. by f_equal.
    + eapply Forall_impl; [exact Hall|]. by intros n (_ & Hn & _).
  - inversion_clear Hall as [|? ? (Hne & _ & _) _].
    destruct name as [|c name]; [done|].
    destruct names; cbn; [done|]. rewrite append_cons. done.
Qed.

Lemma parseExcludedChannels_join_witness :
  dom (parseExcludedChannels (String.concat "," ["general-archive"; "bots"]))
  = list_to_set ["general-archive"; "bots"].
Proof.
  apply parseExcludedChannels_join.
  repeat constructor; try done; vm_compute; intros H;
    repeat (apply elem_of_cons in H as [H|H]; [discriminate H|]);
    by apply elem_of_nil in H.
Defined.

(** ** Paginated Counter: the requests behind a result *)

Section CounterRequests.
Context {σ : Type} (session : Session σ).

Lemma loop_requests fuel channelID :
  ∀ cursor total s r s',
    countChannelMessages_loop session fuel channelID cursor total s
      = Some (Returned r, s') →
    ∃ (pages : list (list Message)) (final : Result (list Message)),
      answers session channelID cursor s ((Ok <$> pages) ++ [final]) s'
      ∧ (length pages < fuel)%nat
      ∧ Forall (λ p : list Message, (100 ≤ length p)%nat) pages
      ∧ match final with
        | Ok lastPage =>
            (length lastPage < 100)%nat
            ∧ r = (total + Z.of_nat (sum_list_with length pages + length lastPage),
                   None)
        | Err e => r = (0, Some ("failed to get messages: " +:+ e))
        end.
Proof.
  induction fuel as [|fuel IH]; intros cursor total s r s' Hrun; [done|].
  cbn [countChannelMessages_loop] in Hrun.
  destruct (ChannelMessages session channelID maxMessagesPerRequest cursor "" "" s)
    as [[messages|e] s1] eqn:Hcall.
  - destruct (decide (length messages < 100)%nat) as [Hshort|Hfull].
    + rewrite (body_short session _ _ _ _ _ _ Hcall Hshort) in Hrun.
      injection Hrun as <- <-.
      exists [], (Ok messages). split; [|split; [cbn; lia|split; [done|]]].
      * econstructor; [exact Hcall|constructor].
      * split; [done|]. cbn. done.
    + rewrite (body_full session _ _ _ _ _ _ Hcall ltac:(lia)) in Hrun.
      apply IH in Hrun as (pages & final & Hans & Hlen & Hall & Hfinal).
      exists (messages :: pages), final.
      split; [|split; [cbn; lia|split; [constructor; [lia|done]|]]].
      * econstructor; [exact Hcall|exact Hans].
      * destruct final as [lastPage|e]; [|done].
        destruct Hfinal as [? ->]. split; [done|]. cbn. f_equal. lia.
  - rewrite (body_error session _ _ _ _ _ _ Hcall) in Hrun.
    injection Hrun as <- <-.
    exists [], (Err e). split; [|split; [cbn; lia|split; [done|done]]].
    econstructor; [exact Hcall|constructor].
Qed.

End CounterRequests.

(** X4. Every result of [countChannelMessages] comes from one or more
    requests made in cursor order, of which all but the last were answered
    with a page of 100 messages or more: the result is the sum of the lengths
    of all the pages when the last answer is a page of fewer than 100, and 0
    with the wrapped error when the last answer is an error. *)
Theorem countChannelMessages_requests {σ : Type} (session : Session σ)
    (fuel : nat) (channelID : string) (s s' : σ) (r : Z * option error) :
  countChannelMessages session fuel channelID s = Some (Returned r, s') →
  ∃ (pages : list (list Message)) (final : Result (list Message)),
    answers session channelID "" s ((Ok <$> pages) ++ [final]) s'
    ∧ (length pages < fuel)%nat
    ∧ Forall (λ p : list Message, (100 ≤ length p)%nat) pages
    ∧ match final with
      | Ok lastPage =>
          (length lastPage < 100)%nat
          ∧ r = (Z.of_nat (sum_list_with length pages + length lastPage), None)
      | Err e => r = (0, Some ("failed to get messages: " +:+ e))
      end.
Proof.
  intros Hrun. apply loop_requests in Hrun as (pages & final & H1 & H2 & H3 & H4).
  by exists pages, final.
Qed.

Lemma countChannelMessages_requests_witness :
  ∃ (st : Served) (pages : list (list Message)) (final : Result (list Message)),
    answers (scripted demo_script) "c1" "" nothing_served
      ((Ok <$> pages) ++ [final]) st
    ∧ (length pages < 5)%nat
    ∧ Forall (λ p : list Message, (100 ≤ length p)%nat) pages
    ∧ match final with
      | Ok lastPage =>
          (length lastPage < 100)%nat
          ∧ (230, @None error)
            = (Z.of_nat (sum_list_with length pages + length lastPage), None)
      | Err e => (230, @None error) = (0, Some ("failed to get messages: " +:+ e))
      end.
Proof.
  assert (∃ st, countChannelMessages (scripted demo_script) 5 "c1" nothing_served
                = Some (Returned (230, None), st)) as [st Hst].
  { eexists. vm_compute. reflexivity. }
  exists st.
  exact (countChannelMessages_requests (scripted demo_script) 5 "c1"
           nothing_served st (230, None) Hst).
Defined.

(** X5. [countChannelMessages] has no run-time panic, and no count it
    returns is negative: the index [messageCount-1] is only used on a page of
    100 messages or more. *)
Theorem countChannelMessages_safe {σ : Type} (session : Session σ)
    (fuel : nat) (channelID : string) (s : σ) :
  (∀ s', countChannelMessages session fuel channelID s ≠ Some (Panicked, s'))
  ∧ (∀ n e s',
       countChannelMessages session fuel channelID s = Some (Returned (n, e), s') →
       0 ≤ n).
Proof.
  split.
  - intros s'. apply loop_no_panic.
  - intros n e s' Hrun.
    apply loop_requests in Hrun as (pages & final & _ & _ & _ & Hfinal).
    destruct final as [lastPage|e0].
    + destruct Hfinal as [_ [= -> _]]. lia.
    + injection Hfinal as -> _. done.
Qed.

(** ** Channel Enumerator: what the filter logs *)

Lemma activeChannels_loop_log_from (config : Config) (channels : list Channel)
    (acc : list Channel) (logged : list LogEntry) :
  snd (foldl (λ (acc : list Channel * list LogEntry) (channel : Channel),
                let '(activeChannels, logged) := acc in
                if decide (Type_ channel ≠ ChannelTypeGuildText) then acc
                else if decide (is_Some (ExcludedChannels config !! Name channel))
                     then (activeChannels, logged ++ [LogSkipping (Name channel)])
                     else (activeChannels ++ [channel], logged))
             (acc, logged) channels)
  = logged
    ++ (LogSkipping ∘ Name
        <$> filter (λ channel, Type_ channel = ChannelTypeGuildText
                               ∧ is_Some (ExcludedChannels config !! Name channel))
              channels).
Proof.
  revert acc logged. induction channels as [|channel channels IH]; intros acc logged.
  - cbn. by rewrite app_nil_r.
  - cbn [foldl]. destruct (decide (Type_ channel ≠ ChannelTypeGuildText)) as [Hty|Hty].
    + rewrite IH, filter_cons_False by naive_solver. done.
    + apply dec_stable in Hty.
      destruct (decide (is_Some (ExcludedChannels config !! Name channel))) as [Hex|Hex].
      * rewrite IH, filter_cons_True by done. cbn. by rewrite <- (assoc_L (++)).
      * rewrite IH, filter_cons_False by naive_solver. done.
Qed.

(** X6. The filter of [updateMessageCount] writes one "skipping" line for
    each text channel that is excluded, in the order of the enumeration, and
    none for the other channels: a channel that is not a text channel is
    dropped without a line, excluded or not. Every enumerated channel is
    kept, logged as skipped, or not a text channel. *)
Theorem activeChannels_loop_log (config : Config) (channels : list Channel) :
  (activeChannels_loop config channels).2
  = (LogSkipping ∘ Name
     <$> filter (λ channel, Type_ channel = ChannelTypeGuildText
                            ∧ is_Some (ExcludedChannels config !! Name channel))
           channels)
  ∧ (length (activeChannels_loop config channels).1
     + length (activeChannels_loop config channels).2
     + length (filter (λ channel, Type_ channel ≠ ChannelTypeGuildText) channels)
     = length channels)%nat.
Proof.
  split; [apply (activeChannels_loop_log_from config channels [] [])|].
  unfold activeChannels_loop.
  rewrite (activeChannels_loop_log_from config channels [] []).
  rewrite (activeChannels_loop_from config channels [] []).
  cbn [app]. rewrite length_fmap.
  induction channels as [|channel channels IH]; [done|].
  unfold eligible in *.
  destruct (decide (Type_ channel = ChannelTypeGuildText)) as [Hty|Hty].
  - rewrite (filter_cons_False (λ channel, Type_ channel ≠ _)) by naive_solver.
    destruct (decide (is_Some (ExcludedChannels config !! Name channel))) as [Hex|Hex].
    + rewrite (filter_cons_False (λ channel, _ ∧ _ !! _ = None)); last first.
      { intros [_ Hn]. rewrite Hn in Hex. by destruct Hex. }
      rewrite filter_cons_True by done. cbn [length]. lia.
    + rewrite (filter_cons_True (λ channel, _ ∧ _ !! _ = None)); last first.
      { split; [done|]. by apply eq_None_not_Some. }
      rewrite filter_cons_False by naive_solver. cbn [length]. lia.
  - rewrite (filter_cons_True (λ channel, Type_ channel ≠ _)) by done.
    rewrite !filter_cons_False by naive_solver. cbn [length]. lia.
Qed.

(** ** One cycle: its log lines, its counters, its labels *)

Section CycleLog.
Context {σ : Type} (session : Session σ).

Lemma collect_results_counts results (w : World σ) (a b : Z) :
  (collect_results results (w, a, b)).1.2
  = a + Z.of_nat (length (filter (λ r, err r = None) results))
  ∧ (collect_results results (w, a, b)).2
    = b + Z.of_nat (length (filter (λ r, is_Some (err r)) results))
  ∧ log (collect_results results (w, a, b)).1.1
    = log w ++ (result_line <$> results).
Proof.
  induction results as [|result results IH] using rev_ind.
  - cbn. rewrite app_nil_r. repeat split; lia.
  - rewrite collect_results_snoc, !filter_app, !length_app, fmap_app.
    destruct (collect_results results (w, a, b)) as [[wp sc] ec].
    cbn [fst snd] in IH. destruct IH as (-> & -> & Hlog).
    unfold collect_result, result_line. cbn [fmap list_fmap].
    destruct (err result) as [e|] eqn:He.
    + rewrite filter_cons_False by (cbn; congruence).
      rewrite filter_cons_True by (cbn; by rewrite He).
      cbn [fst snd length log log_Printf filter]. rewrite Hlog.
      rewrite <- (assoc_L (++)), !filter_nil. cbn [length].
      split; [lia|split; [lia|reflexivity]].
    + rewrite filter_cons_True by done.
      rewrite filter_cons_False by (cbn; rewrite He; by intros []).
      cbn [fst snd length log log_Printf messageCountGauge_Set].
      rewrite Hlog. rewrite <- (assoc_L (++)), !filter_nil. cbn [length].
      split; [lia|split; [lia|reflexivity]].
Qed.

Lemma filter_err_partition (results : list channelCountResult) :
  (length (filter (λ r, err r = None) results)
   + length (filter (λ r, is_Some (err r)) results) = length results)%nat.
Proof.
  induction results as [|r results IH]; [done|].
  destruct (err r) as [e|] eqn:He.
  - rewrite filter_cons_False by (cbn; congruence).
    rewrite filter_cons_True by (cbn; by rewrite He). cbn. lia.
  - rewrite filter_cons_True by done.
    rewrite filter_cons_False by (cbn; rewrite He; by intros []). cbn. lia.
Qed.

End CycleLog.

(** X7. When at least one channel is eligible, a call of
    [updateMessageCount] that returns has written, after the "skipping"
    lines of the filter and the "processing" line, one line for each result
    in the order of arrival and then the closing line; the two counters of
    the closing line are the numbers of results without and with an error,
    and they add up to the number of eligible channels. *)
Theorem updateMessageCount_log {σ : Type} (session : Session σ) (config : Config)
    (w w' : World σ) :
  updateMessageCount session config w w' →
  cycle_channels session config w ≠ [] →
  ∃ (channels : list Channel) (s1 : σ) (received : list channelCountResult)
    (successCount errorCount : Z),
    GuildChannels session (ServerID config) (upstream w) = (Ok channels, s1)
    ∧ channelName <$> received ≡ₚ Name <$> activeChannels config channels
    ∧ log w'
      = log w ++ (activeChannels_loop config channels).2
        ++ [LogProcessing (Z.of_nat (length (activeChannels config channels)))
              (Z.of_nat maxConcurrentChannels)]
        ++ (result_line <$> received)
        ++ [LogCompleted successCount errorCount]
    ∧ successCount = Z.of_nat (length (filter (λ r, err r = None) received))
    ∧ errorCount = Z.of_nat (length (filter (λ r, is_Some (err r)) received))
    ∧ successCount + errorCount
      = Z.of_nat (length (activeChannels config channels)).
Proof.
  intros Hcycle%updateMessageCount_outcome Hne.
  unfold cycle_channels in Hne.
  destruct Hcycle as [e s' Henum _|channels s' Henum Hnone _
                     |channels s' received s'' Henum _ Hperm ->];
    rewrite Henum in Hne; try done.
  pose proof (collect_results_counts received
    (log_Printf
       (LogProcessing (Z.of_nat (length (activeChannels config channels)))
          (Z.of_nat maxConcurrentChannels))
       (log_all (activeChannels_loop config channels).2 (set_upstream s' w))) 0 0)
    as (Hsc & Hec & Hlog).
  destruct (collect_results received _) as [[wp sc] ec].
  cbn [fst snd] in Hsc, Hec, Hlog.
  exists channels, s', received, sc, ec.
  split; [done|]. split; [done|]. split; [|split; [lia|split; [lia|]]].
  - cbn [set_upstream log log_Printf]. rewrite Hlog. cbn [log log_Printf].
    destruct (log_all_frame (activeChannels_loop config channels).2
                (set_upstream s' w)) as (_ & _ & _ & _ & ->).
    cbn [log set_upstream]. by rewrite <- !(assoc_L (++)).
  - pose proof (filter_err_partition received) as Hpart.
    apply Permutation_length in Hperm. rewrite !length_fmap in Hperm. lia.
Qed.

Lemma updateMessageCount_log_witness :
  ∃ (w' : World Served) (channels : list Channel) (s1 : Served)
    (received : list channelCountResult) (successCount errorCount : Z),
    updateMessageCount (scripted outage_script) demo_config
      world_after_earlier_cycle w'
    ∧ GuildChannels (scripted outage_script) (ServerID demo_config)
        (upstream world_after_earlier_cycle) = (Ok channels, s1)
    ∧ channelName <$> received ≡ₚ Name <$> activeChannels demo_config channels
    ∧ log w'
      = log world_after_earlier_cycle ++ (activeChannels_loop demo_config channels).2
        ++ [LogProcessing (Z.of_nat (length (activeChannels demo_config channels)))
              (Z.of_nat maxConcurrentChannels)]
        ++ (result_line <$> received)
        ++ [LogCompleted successCount errorCount]
    ∧ successCount = Z.of_nat (length (filter (λ r, err r = None) received))
    ∧ errorCount = Z.of_nat (length (filter (λ r, is_Some (err r)) received))
    ∧ successCount + errorCount
      = Z.of_nat (length (activeChannels demo_config channels)).
Proof.
  assert (is_Some (updateMessageCount_with (scripted outage_script) outage_schedule
                     demo_config world_after_earlier_cycle)) as Hsome.
  { vm_compute. eexists. reflexivity. }
  destruct (updateMessageCount_with (scripted outage_script) outage_schedule
              demo_config world_after_earlier_cycle) as [w'|] eqn:Hrun;
    [clear Hsome|exfalso; by destruct Hsome].
  assert (updateMessageCount (scripted outage_script) demo_config
            world_after_earlier_cycle w') as Hcycle.
  { exists outage_schedule. exact Hrun. }
  assert (cycle_channels (scripted outage_script) demo_config
            world_after_earlier_cycle ≠ []) as Hne.
  { vm_compute. discriminate. }
  destruct (updateMessageCount_log (scripted outage_script) demo_config
              world_after_earlier_cycle w' Hcycle Hne)
    as (channels & s1 & received & sc & ec & H).
  exists w', channels, s1, received, sc, ec. split; [exact Hcycle|exact H].
Defined.

(** X8. With no eligible channel, [updateMessageCount] returns right after
    the enumeration: it writes the "skipping" lines of the filter and the
    line "no active channels", makes no request for messages and leaves both
    gauges as they were. *)
Theorem updateMessageCount_no_active {σ : Type} (session : Session σ)
    (config : Config) (w : World σ) (channels : list Channel) (s' : σ) :
  GuildChannels session (ServerID config) (upstream w) = (Ok channels, s') →
  activeChannels config channels = [] →
  ∀ w', updateMessageCount session config w w'
        ↔ w' = mkWorld s' (memberCountGauge w) (messageCountGauge w)
                 (log w ++ (activeChannels_loop config channels).2 ++ [LogNoActive])
                 (status w).
Proof.
  intros Henum Hnone w'.
  assert (log_Printf LogNoActive
            (log_all (activeChannels_loop config channels).2 (set_upstream s' w))
          = mkWorld s' (memberCountGauge w) (messageCountGauge w)
              (log w ++ (activeChannels_loop config channels).2 ++ [LogNoActive])
              (status w)) as Hworld.
  { destruct (log_all_frame (activeChannels_loop config channels).2
                (set_upstream s' w)) as (Hm & Hg & Hst & Hup & Hlog).
    unfold log_Printf. rewrite Hm, Hg, Hst, Hup, Hlog. cbn.
    by rewrite <- (assoc_L (++)). }
  split.
  - intros Hcycle%updateMessageCount_outcome.
    destruct Hcycle as [e s1 Henum' _|channels' s1 Henum' _ ->
                       |channels' s1 received s'' Henum' Hne _ _];
      rewrite Henum in Henum'; try done.
    + by injection Henum' as <- <-.
    + injection Henum' as <- <-. done.
  - intros ->. exists []. unfold updateMessageCount_with. rewrite Henum.
    unfold activeChannels in Hnone.
    destruct (activeChannels_loop config channels) as [active skipped].
    cbn [fst snd] in *. subst active. rewrite decide_True by done.
    by rewrite <- Hworld.
Qed.

Lemma updateMessageCount_no_active_witness :
  updateMessageCount (scripted endless_script) demo_config
    (world_init nothing_served)
    (mkWorld (mkServed 0 1 ∅) 0 ∅ [LogNoActive] Running).
Proof.
  apply (updateMessageCount_no_active (scripted endless_script) demo_config
           (world_init nothing_served) [] (mkServed 0 1 ∅)); reflexivity.
Defined.

(** X9. A cycle removes no label from the per-channel gauge, and every label
    it adds is the name of a channel that is eligible in this cycle. *)
Theorem updateMessageCount_labels {σ : Type} (session : Session σ)
    (config : Config) (w w' : World σ) :
  updateMessageCount session config w w' →
  dom (messageCountGauge w) ⊆ dom (messageCountGauge w')
  ∧ ∀ name : string,
      name ∈ dom (messageCountGauge w') →
      name ∉ dom (messageCountGauge w) →
      ∃ channel, channel ∈ cycle_channels session config w
                 ∧ Name channel = name
                 ∧ eligible config channel.
Proof.
  intros (received & Hperm & Hgauge & _)%updateMessageCount_gauge. split.
  - intros name [n Hn]%elem_of_dom. apply elem_of_dom. rewrite Hgauge.
    destruct (last_success name received); [done|]. by rewrite Hn.
  - intros name [n Hn]%elem_of_dom Hnot. rewrite Hgauge in Hn.
    destruct (last_success name received) as [m|] eqn:Hlast.
    + apply last_success_Some in Hlast as (result & Hin & Hname & _).
      assert (name ∈ Name <$> cycle_channels session config w) as Hin'.
      { rewrite <- Hperm, <- Hname. by apply list_elem_of_fmap_2. }
      apply list_elem_of_fmap in Hin' as (channel & -> & Hch).
      exists channel. split; [done|]. split; [done|].
      by eapply cycle_channels_eligible.
    + exfalso. apply Hnot, elem_of_dom. by rewrite Hn.
Qed.

Lemma updateMessageCount_labels_witness :
  ∃ w' : World Served,
    updateMessageCount (scripted outage_script) demo_config
      world_after_earlier_cycle w'
    ∧ dom (messageCountGauge world_after_earlier_cycle)
      ⊆ dom (messageCountGauge w').
Proof.
  assert (is_Some (updateMessageCount_with (scripted outage_script) outage_schedule
                     demo_config world_after_earlier_cycle)) as Hsome.
  { vm_compute. eexists. reflexivity. }
  destruct (updateMessageCount_with (scripted outage_script) outage_schedule
              demo_config world_after_earlier_cycle) as [w'|] eqn:Hrun;
    [clear Hsome|exfalso; by destruct Hsome].
  assert (updateMessageCount (scripted outage_script) demo_config
            world_after_earlier_cycle w') as Hcycle.
  { exists outage_schedule. exact Hrun. }
  exists w'. split; [exact Hcycle|].
  exact (proj1 (updateMessageCount_labels (scripted outage_script) demo_config
                  world_after_earlier_cycle w' Hcycle)).
Defined.

(** X10. In the life of the collector no label of the per-channel gauge is
    ever removed: a series that was published once stays, with the value of
    the last successful count, also when its channel is later deleted,
    renamed or excluded. *)
Theorem collector_labels_kept {σ : Type} (session : Session σ) (config : Config)
    (c c' : @Collector σ) :
  rtc (collector_step session config) c c' →
  dom (messageCountGauge (cworld c)) ⊆ dom (messageCountGauge (cworld c')).
Proof.
  induction 1 as [c|c c1 c' Hstep _ IH]; [done|].
  etrans; [|exact IH]. clear IH.
  destruct Hstep as [w t t' b hist _|w w1 t t' b hist Hcycle _|w t b hist];
    cbn [cworld].
  - by rewrite (proj1 (updateMemberCount_frame session (ServerID config) w)).
  - apply updateMessageCount_gauge in Hcycle as (received & _ & Hgauge & _).
    intros name [n Hn]%elem_of_dom. apply elem_of_dom. rewrite Hgauge.
    destruct (last_success name received); [done|]. by rewrite Hn.
  - done.
Qed.

Lemma collector_labels_kept_witness :
  dom (messageCountGauge world_after_earlier_cycle)
  ⊆ dom (messageCountGauge
           (log_Printf (LogFailedChannels "channels unavailable")
              (set_upstream (mkServed 1 1 ∅)
                 (updateMemberCount (scripted flaky_script) (ServerID demo_config)
                    world_after_earlier_cycle)))).
Proof.
  apply (collector_labels_kept (scripted flaky_script) demo_config
           (collector_init world_after_earlier_cycle 0)
           (mkCollector AtSleep
              (log_Printf (LogFailedChannels "channels unavailable")
                 (set_upstream (mkServed 1 1 ∅)
                    (updateMemberCount (scripted flaky_script) (ServerID demo_config)
                       world_after_earlier_cycle)))
              9 0 [(0, 9)])).
  eapply rtc_l; [apply (step_member _ _ _ 0 4); lia|].
  eapply rtc_l; [|apply rtc_refl].
  apply (step_message _ _ _ _ 4 9 0 []); [|lia].
  apply updateMessageCount_enum_failed_returns. reflexivity.
Defined.

(** ** A run of the pool in which the goroutines work one after the other *)

Section PoolInTurn.
Context {σ : Type} (session : Session σ).
Variables (K N : nat).

Lemma run_app (a b : list Thread) (st : Pool σ) :
  run session K N (a ++ b) st
  = match run session K N a st with
    | Some st' => run session K N b st'
    | None => None
    end.
Proof.
  revert st. induction a as [|t a IH]; intros st; [done|].
  cbn. destruct (step session K N t st); [apply IH|done].
Qed.

Lemma set_upstream_twice (s1 s2 : σ) (w : World σ) :
  set_upstream s2 (set_upstream s1 w) = set_upstream s2 w.
Proof. done. Qed.

Lemma set_upstream_same (w : World σ) : set_upstream (upstream w) w = w.
Proof. by destruct w. Qed.

(** The passes of one counting loop. *)
Lemma run_counting (fuel : nat) :
  ∀ i channel cursor total (st : Pool σ) n e s',
    workers st !! i = Some (channel, WCounting cursor total) →
    countChannelMessages_loop session fuel (ID channel) cursor total
      (upstream (world st)) = Some (Returned (n, e), s') →
    ∃ schedule,
      run session K N schedule st
      = Some (mkPool (set_upstream s' (world st))
                (<[i := (channel, WSend n e)]> (workers st)) (semaphore st) (wg st)
                (results st) (results_closed st) (closer st) (caller st)
                (received st)).
Proof.
  induction fuel as [|fuel IH]; intros i channel cursor total st n e s' Hi Hloop;
    [done|].
  cbn [countChannelMessages_loop] in Hloop.
  destruct (countChannelMessages_body session (ID channel) cursor total
              (upstream (world st))) as [[r|cursor' total'|] s1] eqn:Hbody.
  - injection Hloop as -> ->. exists [TWorker i].
    cbn [run step]. unfold worker_step. rewrite Hi, Hbody. done.
  - set (st1 := mkPool (set_upstream s1 (world st))
                  (<[i := (channel, WCounting cursor' total')]> (workers st))
                  (semaphore st) (wg st) (results st) (results_closed st)
                  (closer st) (caller st) (received st)).
    destruct (IH i channel cursor' total' st1 n e s') as [schedule Hrun].
    + cbn. apply list_lookup_insert_eq. by eapply lookup_lt_Some.
    + exact Hloop.
    + exists (TWorker i :: schedule).
      cbn [run step]. unfold worker_step. rewrite Hi, Hbody.
      change (set_worker i channel (WCounting cursor' total') _) with st1.
      rewrite Hrun. cbn. by rewrite list_insert_insert_eq.
  - done.
Qed.

(** One goroutine from its start to its end. *)
Lemma run_worker (fuel : nat) i channel (st : Pool σ) m result s' :
  workers st !! i = Some (channel, WAcquire) →
  (semaphore st < K)%nat →
  results_closed st = false →
  (length (results st) < N)%nat →
  wg st = S m →
  processChannel session fuel channel (upstream (world st))
    = Some (Returned result, s') →
  ∃ schedule,
    run session K N schedule st
    = Some (mkPool (set_upstream s' (world st))
              (<[i := (channel, WExited)]> (workers st)) (semaphore st) m
              (results st ++ [result]) false (closer st) (caller st) (received st)).
Proof.
  intros Hi Hsem Hclosed Hroom Hwg Hcall. unfold processChannel in Hcall.
  destruct (countChannelMessages session fuel (ID channel) (upstream (world st)))
    as [[[[n e]|] s1]|] eqn:Hloop; try done.
  injection Hcall as <- <-.
  assert (i < length (workers st))%nat as Hlt by (by eapply lookup_lt_Some).
  set (st1 := mkPool (world st) (<[i := (channel, WCounting "" 0)]> (workers st))
                (S (semaphore st)) (wg st) (results st) (results_closed st)
                (closer st) (caller st) (received st)).
  destruct (run_counting fuel i channel "" 0 st1 n e s1) as [schedule Hrun].
  { cbn. by apply list_lookup_insert_eq. }
  { exact Hloop. }
  exists ([TWorker i] ++ schedule ++ [TWorker i; TWorker i; TWorker i]).
  rewrite run_app. cbn [run step]. unfold worker_step at 1. rewrite Hi.
  rewrite decide_True by done.
  change (set_worker i channel (WCounting "" 0) _) with st1.
  rewrite run_app, Hrun. subst st1. cbn [run step]. unfold worker_step.
  cbn [workers results_closed results semaphore wg world closer caller received
       set_worker].
  rewrite ?list_insert_insert_eq, ?list_lookup_insert_eq by (by rewrite ?length_insert).
  rewrite Hclosed. rewrite decide_True by done.
  cbn [workers results_closed results semaphore wg world closer caller received
       set_worker].
  rewrite ?list_insert_insert_eq, ?list_lookup_insert_eq by (by rewrite ?length_insert).
  cbn [workers results_closed results semaphore wg world closer caller received
       set_worker].
  rewrite ?list_insert_insert_eq, ?list_lookup_insert_eq by (by rewrite ?length_insert).
  rewrite Hwg.
  cbn [workers results_closed results semaphore wg world closer caller received
       set_worker].
  unfold set_worker. cbn [workers]. by rewrite list_insert_insert_eq.
Qed.

(** All the goroutines, in the order in which they were started. *)
Lemma run_workers (fuel : nat) :
  ∀ (todo done : list Channel) (w : World σ) (rs0 : list channelCountResult)
    (cl : Closer) (ca : Caller) (rc : list channelCountResult)
    (results : list channelCountResult) (s' : σ),
    (1 ≤ K)%nat →
    (length rs0 + length todo ≤ N)%nat →
    count_in_turn session fuel todo (upstream w) = Some (results, s') →
    ∃ schedule,
      run session K N schedule
        (mkPool w (((λ c, (c, WExited)) <$> done) ++ ((λ c, (c, WAcquire)) <$> todo))
           0 (length todo) rs0 false cl ca rc)
      = Some (mkPool (set_upstream s' w) ((λ c, (c, WExited)) <$> (done ++ todo))
                0 0 (rs0 ++ results) false cl ca rc).
Proof.
  induction todo as [|channel todo IH];
    intros done w rs0 cl ca rc results s' HK HN Hcount.
  - injection Hcount as <- <-. exists [].
    cbn [run fmap list_fmap length]. by rewrite !app_nil_r, set_upstream_same.
  - cbn [count_in_turn] in Hcount.
    destruct (processChannel session fuel channel (upstream w))
      as [[[result|] s1]|] eqn:Hcall; try done.
    destruct (count_in_turn session fuel todo s1) as [[rs s2]|] eqn:Hrest; [|done].
    injection Hcount as <- <-.
    set (st := mkPool w (((λ c, (c, WExited)) <$> done)
                         ++ ((λ c, (c, WAcquire)) <$> channel :: todo))
                 0 (length (channel :: todo)) rs0 false cl ca rc).
    destruct (run_worker fuel (length done) channel st (length todo) result s1)
      as [schedule1 Hrun1]; subst st;
      cbn [workers semaphore results_closed results wg world closer caller received]
        in *; try done; try lia.
    { rewrite fmap_cons.
      rewrite <- (length_fmap (λ c, (c, WExited)) done) at 1.
      apply list_lookup_middle. done. }
    { cbn [length] in HN. lia. }
    rewrite fmap_cons in Hrun1.
    rewrite insert_app_r_alt in Hrun1 by (by rewrite length_fmap).
    rewrite length_fmap, Nat.sub_diag in Hrun1.
    change (<[0%nat := ?x]> (?y :: ?l)) with (x :: l) in Hrun1.
    destruct (IH (done ++ [channel]) (set_upstream s1 w) (rs0 ++ [result]) cl ca rc
                rs s2) as [schedule2 Hrun2]; [done| |done|].
    { rewrite length_app. cbn [length] in HN |- *. lia. }
    rewrite fmap_app in Hrun2. cbn [fmap list_fmap] in Hrun2.
    rewrite <- !(assoc_L (++)) in Hrun2. cbn [app] in Hrun2.
    exists (schedule1 ++ schedule2). rewrite run_app, fmap_cons, Hrun1, Hrun2.
    by rewrite set_upstream_twice.
Qed.

(** The dispatch loop and the start of the closing goroutine. *)
Lemma run_spawn :
  ∀ (todo : list Channel) (w : World σ) (ws : list (Channel * Worker))
    (sem n : nat) (rs : list channelCountResult) (closed : bool) (cl : Closer)
    (rc : list channelCountResult),
    run session K N (replicate (S (length todo)) TCaller)
      (mkPool w ws sem n rs closed cl (MSpawn todo) rc)
    = Some (mkPool w (ws ++ ((λ c, (c, WAcquire)) <$> todo)) sem (n + length todo)
              rs closed CWaiting (MCollect 0 0) rc).
Proof.
  induction todo as [|channel todo IH]; intros w ws sem n rs closed cl rc.
  - cbn. by rewrite app_nil_r, Nat.add_0_r.
  - change (replicate (S (length (channel :: todo))) TCaller)
      with ([TCaller] ++ replicate (S (length todo)) TCaller).
    rewrite run_app.
    change (run session K N [TCaller] ?st)
      with (match step session K N TCaller st with
            | Some st' => Some st'
            | None => None
            end).
    cbn [step caller_step caller world workers semaphore wg
         results results_closed closer received].
    rewrite (IH w (ws ++ [(channel, WAcquire)]) sem (S n) rs closed cl rc).
    rewrite <- (assoc_L (++)). cbn [app fmap list_fmap length].
    do 2 f_equal. lia.
Qed.

(** The loop over the results, once [results] is closed. *)
Lemma run_collect :
  ∀ (rs : list channelCountResult) (w : World σ) (a b : Z)
    (ws : list (Channel * Worker)) (sem n : nat) (cl : Closer)
    (rc : list channelCountResult),
    run session K N (replicate (S (length rs)) TCaller)
      (mkPool w ws sem n rs true cl (MCollect a b) rc)
    = Some (mkPool
              (log_Printf
                 (LogCompleted (collect_results rs (w, a, b)).1.2
                    (collect_results rs (w, a, b)).2)
                 (collect_results rs (w, a, b)).1.1)
              ws sem n [] true cl MDone (rc ++ rs)).
Proof.
  induction rs as [|result rs IH]; intros w a b ws sem n cl rc.
  - cbn. by rewrite app_nil_r.
  - change (replicate (S (length (result :: rs))) TCaller)
      with ([TCaller] ++ replicate (S (length rs)) TCaller).
    rewrite run_app.
    change (run session K N [TCaller] ?st)
      with (match step session K N TCaller st with
            | Some st' => Some st'
            | None => None
            end).
    cbn [step caller_step caller world workers semaphore wg
         results results_closed closer received].
    destruct (collect_result result (w, a, b)) as [[w1 a1] b1] eqn:Hone.
    rewrite (IH w1 a1 b1 ws sem n cl (rc ++ [result])).
    unfold collect_results. cbn [foldl]. rewrite Hone.
    by rewrite <- (assoc_L (++)).
Qed.

(** The whole pool. *)
Lemma run_in_turn (fuel : nat) (w0 : World σ) (active : list Channel)
    (rs : list channelCountResult) (s' : σ) :
  (1 ≤ K)%nat →
  (length active ≤ N)%nat →
  count_in_turn session fuel active (upstream w0) = Some (rs, s') →
  ∃ schedule,
    run session K N schedule (pool_init w0 active)
    = Some (mkPool
              (log_Printf
                 (LogCompleted
                    (collect_results rs (set_upstream s' w0, 0, 0)).1.2
                    (collect_results rs (set_upstream s' w0, 0, 0)).2)
                 (collect_results rs (set_upstream s' w0, 0, 0)).1.1)
              ((λ c, (c, WExited)) <$> active) 0 0 [] true CClosed MDone rs).
Proof.
  intros HK HN Hcount.
  destruct (run_workers fuel active [] w0 [] CWaiting (MCollect 0 0) [] rs s'
              HK ltac:(cbn; lia) Hcount) as [schedule Hrun].
  exists (replicate (S (length active)) TCaller ++ schedule ++ [TCloser]
          ++ replicate (S (length rs)) TCaller).
  rewrite run_app. unfold pool_init. rewrite run_spawn. cbn [app Nat.add].
  rewrite run_app. cbn [fmap list_fmap app] in Hrun. rewrite Hrun.
  cbn [run step closer_step closer wg world workers semaphore
       results results_closed caller received app].
  apply run_collect.
Qed.

End PoolInTurn.

(** ** A cycle that returns, and the sequential form of the cycle *)

Section CycleInTurn.
Context {σ : Type} (session : Session σ).

Lemma updateMessageCount_in_turn (config : Config) (w : World σ) (fuel : nat)
    (channels : list Channel) (s1 : σ) (rs : list channelCountResult) (s2 : σ) :
  GuildChannels session (ServerID config) (upstream w) = (Ok channels, s1) →
  count_in_turn session fuel (activeChannels config channels) s1 = Some (rs, s2) →
  ∃ w', updateMessageCount session config w w'
        ∧ upstream w' = s2
        ∧ (∀ name,
             messageCountGauge w' !! name
             = match last_success name rs with
               | Some n => Some n
               | None => messageCountGauge w !! name
               end)
        ∧ memberCountGauge w' = memberCountGauge w
        ∧ status w' = status w.
Proof.
  intros Henum Hcount. unfold updateMessageCount, updateMessageCount_with.
  rewrite Henum. unfold activeChannels in Hcount.
  destruct (activeChannels_loop config channels) as [active skipped].
  cbn [fst] in Hcount.
  destruct (log_all_frame skipped (set_upstream s1 w)) as (Hm & Hg & Hst & Hup & _).
  destruct (decide (length active = 0%nat)) as [Hnone|Hsome].
  - destruct active; [|done]. injection Hcount as <- <-.
    eexists. split; [by exists []|].
    cbn [upstream messageCountGauge memberCountGauge status log_Printf last_success
         foldl].
    rewrite Hm, Hg, Hst, Hup. done.
  - set (w0 := log_Printf
                 (LogProcessing (Z.of_nat (length active))
                    (Z.of_nat maxConcurrentChannels))
                 (log_all skipped (set_upstream s1 w))).
    destruct (run_in_turn session maxConcurrentChannels (length active) fuel w0
                active rs s2) as [schedule Hrun].
    + unfold maxConcurrentChannels. lia.
    + done.
    + subst w0. cbn [upstream log_Printf]. by rewrite Hup.
    + eexists. split; [exists schedule; rewrite Hrun; reflexivity|].
      cbn [world upstream messageCountGauge memberCountGauge status log_Printf].
      destruct (collect_results_frame rs (set_upstream s2 w0) 0 0)
        as (Hm' & Hst' & Hup' & _).
      rewrite Hm', Hst', Hup'. subst w0.
      cbn [upstream messageCountGauge memberCountGauge status log_Printf
           set_upstream].
      rewrite Hm, Hst. split; [done|]. split; [|done].
      intros name. rewrite collect_results_gauge.
      cbn [messageCountGauge log_Printf set_upstream]. by rewrite Hg.
Qed.

Lemma last_success_from (name : string) (rs : list channelCountResult)
    (acc : option Z) :
  foldl (λ acc result,
           if decide (channelName result = name ∧ err result = None)
           then Some (count result) else acc)
        acc rs
  = match last_success name rs with
    | Some n => Some n
    | None => acc
    end.
Proof.
  revert acc. induction rs as [|r rs IH] using rev_ind; intros acc; [done|].
  rewrite last_success_snoc, foldl_app. cbn [foldl].
  case_decide; [done|]. apply IH.
Qed.

Lemma last_success_cons (name : string) (r : channelCountResult)
    (rs : list channelCountResult) :
  last_success name (r :: rs)
  = match last_success name rs with
    | Some n => Some n
    | None => if decide (channelName r = name ∧ err r = None)
              then Some (count r) else None
    end.
Proof. unfold last_success at 1. cbn [foldl]. apply last_success_from. Qed.

Lemma sequential_fold_stuck (fuel : nat) (config : Config)
    (channels : list Channel) (acc : option (Outcome (World σ))) :
  (∀ w, acc ≠ Some (Returned w)) →
  foldl (λ (acc : option (Outcome (World σ))) (channel : Channel),
           match acc with
           | Some (Returned w) => Sequential.count_channel session fuel config channel w
           | _ => acc
           end) acc channels = acc.
Proof.
  intros Hacc. induction channels as [|channel channels IH]; [done|].
  cbn [foldl]. destruct acc as [[w|]|]; [by destruct (Hacc w)|done|done].
Qed.

Lemma sequential_fold (fuel : nat) (config : Config) :
  ∀ (channels : list Channel) (w w1 : World σ),
    foldl (λ (acc : option (Outcome (World σ))) (channel : Channel),
             match acc with
             | Some (Returned w) =>
                 Sequential.count_channel session fuel config channel w
             | _ => acc
             end) (Some (Returned w)) channels = Some (Returned w1) →
    ∃ rs,
      count_in_turn session fuel
        (filter (λ channel, ExcludedChannels config !! Name channel = None) channels)
        (upstream w) = Some (rs, upstream w1)
      ∧ (∀ name,
           messageCountGauge w1 !! name
           = match last_success name rs with
             | Some n => Some n
             | None => messageCountGauge w !! name
             end)
      ∧ memberCountGauge w1 = memberCountGauge w
      ∧ status w1 = status w.
Proof.
  induction channels as [|channel channels IH]; intros w w1 Hfold.
  - injection Hfold as <-. by exists [].
  - cbn [foldl] in Hfold. unfold Sequential.count_channel in Hfold at 2.
    destruct (decide (is_Some (ExcludedChannels config !! Name channel)))
      as [Hex|Hex].
    + apply IH in Hfold as (rs & Hcount & Hgauge & Hm & Hst).
      exists rs. rewrite filter_cons_False; [done|].
      intros Hnone. rewrite Hnone in Hex. by destruct Hex.
    + apply eq_None_not_Some in Hex. rewrite filter_cons_True by done.
      cbn [count_in_turn]. unfold processChannel.
      destruct (countChannelMessages session fuel (ID channel) (upstream w))
        as [[[[n e]|] s']|].
      * destruct e as [e|].
        -- apply IH in Hfold as (rs & Hcount & Hgauge & Hm & Hst).
           cbn [upstream log_Printf set_upstream] in Hcount.
           rewrite Hcount.
           exists (mkResult (Name channel) n (Some e) :: rs).
           split; [done|]. split; [|done].
           intros name. rewrite last_success_cons, Hgauge.
           destruct (last_success name rs); [done|].
           cbn [err]. rewrite decide_False by (by intros [_ ?]). done.
        -- apply IH in Hfold as (rs & Hcount & Hgauge & Hm & Hst).
           cbn [upstream log_Printf set_upstream messageCountGauge_Set] in Hcount.
           rewrite Hcount.
           exists (mkResult (Name channel) n None :: rs).
           split; [done|]. split; [|done].
           intros name. rewrite last_success_cons, Hgauge.
           destruct (last_success name rs); [done|].
           cbn [err channelName count messageCountGauge log_Printf
                messageCountGauge_Set set_upstream].
           destruct (decide (Name channel = name)) as [->|Hne].
           ++ rewrite decide_True by done. by rewrite lookup_insert_eq.
           ++ rewrite decide_False by (by intros [? _]).
              by rewrite lookup_insert_ne.
      * rewrite sequential_fold_stuck in Hfold by done. done.
      * rewrite sequential_fold_stuck in Hfold by done. done.
Qed.

End CycleInTurn.

(** X11. [updateMessageCount] can return: when the counts of the eligible
    channels, made one after the other in the order of the enumeration, all
    come to an end, some interleaving of the goroutines brings the pool to its
    end with these results, so that each channel has the count of its last
    result without an error, the upstream is left as these counts leave it,
    and nothing else of the world has changed but the log. *)
Theorem updateMessageCount_returns {σ : Type} (session : Session σ)
    (config : Config) (w : World σ) (fuel : nat) (channels : list Channel)
    (s1 : σ) (rs : list channelCountResult) (s2 : σ) :
  GuildChannels session (ServerID config) (upstream w) = (Ok channels, s1) →
  count_in_turn session fuel (activeChannels config channels) s1 = Some (rs, s2) →
  ∃ w', updateMessageCount session config w w'
        ∧ upstream w' = s2
        ∧ (∀ name,
             messageCountGauge w' !! name
             = match last_success name rs with
               | Some n => Some n
               | None => messageCountGauge w !! name
               end)
        ∧ memberCountGauge w' = memberCountGauge w
        ∧ status w' = status w.
Proof. apply updateMessageCount_in_turn. Qed.

Lemma updateMessageCount_returns_witness :
  ∃ w' : World Served,
    updateMessageCount (scripted demo_script) demo_config
      (world_init nothing_served) w'
    ∧ messageCountGauge w' !! "general" = Some 230
    ∧ messageCountGauge w' !! "random" = Some 0
    ∧ messageCountGauge w' !! "dev" = Some 400
    ∧ messageCountGauge w' !! "general-archive" = None.
Proof.
  assert (is_Some (count_in_turn (scripted demo_script) 5
                     (activeChannels demo_config demo_channels)
                     (mkServed 0 1 ∅))) as Hsome.
  { vm_compute. eexists. reflexivity. }
  destruct (count_in_turn (scripted demo_script) 5
              (activeChannels demo_config demo_channels) (mkServed 0 1 ∅))
    as [[rs s2]|] eqn:Hcount; [clear Hsome|exfalso; by destruct Hsome].
  destruct (updateMessageCount_returns (scripted demo_script) demo_config
              (world_init nothing_served) 5 demo_channels (mkServed 0 1 ∅) rs s2
              eq_refl Hcount) as (w' & Hcycle & _ & Hgauge & _).
  exists w'. split; [exact Hcycle|].
  assert (last_success "general" <$> Some rs = Some (Some 230)
          ∧ last_success "random" <$> Some rs = Some (Some 0)
          ∧ last_success "dev" <$> Some rs = Some (Some 400)
          ∧ last_success "general-archive" <$> Some rs = Some None)
    as (H1 & H2 & H3 & H4).
  { assert (Some rs = fst <$> count_in_turn (scripted demo_script) 5
                        (activeChannels demo_config demo_channels) (mkServed 0 1 ∅))
      as -> by (by rewrite Hcount).
    repeat split; vm_compute; reflexivity. }
  injection H1 as H1. injection H2 as H2. injection H3 as H3. injection H4 as H4.
  rewrite !Hgauge, H1, H2, H3, H4. repeat split; reflexivity.
Defined.

(** X12. The sequential form of [updateMessageCount] (src/unnamed/part_001)
    counts every channel that is not excluded, of whatever type, in the
    order of the enumeration; a count that fails changes no gauge and the
    loop goes on with the next channel, so that each name is left with the
    count of its last result without an error. *)
Theorem Sequential_updateMessageCount_outcome {σ : Type} (session : Session σ)
    (fuel : nat) (config : Config) (w w1 : World σ) (channels : list Channel)
    (s1 : σ) :
  GuildChannels session (ServerID config) (upstream w) = (Ok channels, s1) →
  Sequential.updateMessageCount session fuel config w = Some (Returned w1) →
  ∃ rs,
    count_in_turn session fuel
      (filter (λ channel, ExcludedChannels config !! Name channel = None) channels)
      s1 = Some (rs, upstream w1)
    ∧ (∀ name,
         messageCountGauge w1 !! name
         = match last_success name rs with
           | Some n => Some n
           | None => messageCountGauge w !! name
           end)
    ∧ memberCountGauge w1 = memberCountGauge w
    ∧ status w1 = status w.
Proof.
  intros Henum Hseq. unfold Sequential.updateMessageCount in Hseq.
  rewrite Henum in Hseq. by apply sequential_fold in Hseq.
Qed.

Lemma Sequential_updateMessageCount_outcome_witness :
  ∃ (w1 : World Served) (rs : list channelCountResult),
    Sequential.updateMessageCount (scripted demo_script) 5 demo_config
      (world_init nothing_served) = Some (Returned w1)
    ∧ count_in_turn (scripted demo_script) 5
        (filter (λ channel, ExcludedChannels demo_config !! Name channel = None)
           demo_channels)
        (mkServed 0 1 ∅) = Some (rs, upstream w1)
    ∧ (∀ name,
         messageCountGauge w1 !! name
         = match last_success name rs with
           | Some n => Some n
           | None => messageCountGauge (world_init nothing_served) !! name
           end).
Proof.
  assert (match Sequential.updateMessageCount (scripted demo_script) 5 demo_config
                  (world_init nothing_served) with
          | Some (Returned _) => True
          | _ => False
          end) as Hsome.
  { vm_compute. exact I. }
  destruct (Sequential.updateMessageCount (scripted demo_script) 5 demo_config
              (world_init nothing_served)) as [[w1|]|] eqn:Hseq;
    [clear Hsome|destruct Hsome|destruct Hsome].
  destruct (Sequential_updateMessageCount_outcome (scripted demo_script) 5
              demo_config (world_init nothing_served) w1 demo_channels
              (mkServed 0 1 ∅) eq_refl Hseq) as (rs & Hcount & Hgauge & _).
  exists w1, rs. split; [reflexivity|]. split; [exact Hcount|exact Hgauge].
Defined.

(** X13. On a server whose channels are all text channels, whatever the
    sequential form of [updateMessageCount] publishes, the form with the
    pool can publish as well: some interleaving of its goroutines ends with
    the same gauges and leaves the upstream in the same state. *)
Theorem pool_reproduces_sequential {σ : Type} (session : Session σ)
    (fuel : nat) (config : Config) (w w1 : World σ) (channels : list Channel)
    (s1 : σ) :
  GuildChannels session (ServerID config) (upstream w) = (Ok channels, s1) →
  Forall (λ channel, Type_ channel = ChannelTypeGuildText) channels →
  Sequential.updateMessageCount session fuel config w = Some (Returned w1) →
  ∃ w2, updateMessageCount session config w w2
        ∧ messageCountGauge w2 = messageCountGauge w1
        ∧ memberCountGauge w2 = memberCountGauge w1
        ∧ upstream w2 = upstream w1
        ∧ status w2 = status w1.
Proof.
  intros Henum Htext Hseq. unfold Sequential.updateMessageCount in Hseq.
  rewrite Henum in Hseq.
  apply sequential_fold in Hseq as (rs & Hcount & Hgauge & Hm & Hst).
  cbn [upstream set_upstream] in Hcount.
  assert (filter (λ channel, ExcludedChannels config !! Name channel = None) channels
          = activeChannels config channels) as Hfilter.
  { rewrite activeChannels_filter. clear -Htext.
    induction Htext as [|channel channels Hty _ IH]; [done|].
    unfold eligible in *.
    destruct (decide (ExcludedChannels config !! Name channel = None)).
    - rewrite !filter_cons_True by done. by f_equal.
    - rewrite !filter_cons_False by naive_solver. done. }
  rewrite Hfilter in Hcount.
  destruct (updateMessageCount_in_turn session config w fuel channels s1 rs
              (upstream w1) Henum Hcount) as (w2 & Hcycle & Hup & Hgauge2 & Hm2 & Hst2).
  exists w2. split; [done|]. split; [|by rewrite Hm, Hst, Hm2, Hst2].
  apply map_eq. intros name. by rewrite Hgauge, Hgauge2.
Qed.

Lemma pool_reproduces_sequential_witness :
  ∃ w1 w2 : World Served,
    Sequential.updateMessageCount (scripted outage_script) 5 demo_config
      world_after_earlier_cycle = Some (Returned w1)
    ∧ updateMessageCount (scripted outage_script) demo_config
        world_after_earlier_cycle w2
    ∧ messageCountGauge w2 = messageCountGauge w1
    ∧ upstream w2 = upstream w1.
Proof.
  assert (match Sequential.updateMessageCount (scripted outage_script) 5 demo_config
                  world_after_earlier_cycle with
          | Some (Returned _) => True
          | _ => False
          end) as Hsome.
  { vm_compute. exact I. }
  destruct (Sequential.updateMessageCount (scripted outage_script) 5 demo_config
              world_after_earlier_cycle) as [[w1|]|] eqn:Hseq;
    [clear Hsome|destruct Hsome|destruct Hsome].
  assert (Forall (λ channel, Type_ channel = ChannelTypeGuildText) outage_channels)
    as Htext by (repeat constructor).
  destruct (pool_reproduces_sequential (scripted outage_script) 5 demo_config
              world_after_earlier_cycle w1 outage_channels (mkServed 0 1 ∅)
              eq_refl Htext Hseq) as (w2 & Hcycle & Hgauge & _ & Hup & _).
  exists w1, w2. split; [reflexivity|]. split; [exact Hcycle|].
  split; [exact Hgauge|exact Hup].
Defined.

(** ** The single-loop form (src/main.go) *)

Section LegacyFacts.
Context {σ : Type} (session : Session σ).

Lemma Legacy_count_loop_frame (fuel : nat) (channelID : string) :
  ∀ cursor total (w : World σ) n w',
    Legacy.count_loop session fuel channelID cursor total w = Some (n, w') →
    messageCountGauge w' = messageCountGauge w
    ∧ memberCountGauge w' = memberCountGauge w
    ∧ status w' = status w.
Proof.
  induction fuel as [|fuel IH]; intros cursor total w n w' Hloop; [done|].
  cbn [Legacy.count_loop] in Hloop.
  destruct (ChannelMessages session channelID 100 cursor "" "" (upstream w))
    as [[messages|e] s1].
  - case_decide.
    + by injection Hloop as <- <-.
    + by apply IH in Hloop.
  - by injection Hloop as <- <-.
Qed.

Lemma Legacy_count_loop_pages (channelID : string) (pages : list (list Message)) :
  Forall (λ p : list Message, (100 ≤ length p)%nat) pages →
  ∀ rs cursor total (w : World σ) s2,
    answers session channelID cursor (upstream w) ((Ok <$> pages) ++ rs) s2 →
    ∃ cursor1 s1,
      answers session channelID cursor1 s1 rs s2
      ∧ ∀ fuel,
          Legacy.count_loop session (length pages + fuel) channelID cursor total w
          = Legacy.count_loop session fuel channelID cursor1
              (total + Z.of_nat (sum_list_with length pages)) (set_upstream s1 w).
Proof.
  induction 1 as [|p pages Hp _ IH]; intros rs cursor total w s2 Hans.
  - exists cursor, (upstream w). split; [done|]. intros fuel.
    cbn. by rewrite Z.add_0_r, set_upstream_same.
  - cbn [fmap list_fmap app] in Hans.
    inversion Hans as [|? ? ? s1 ? ? Hcall Hrest]; subst.
    destruct (IH rs (cursor_after cursor (Ok p)) (total + Z.of_nat (length p))
                (set_upstream s1 w) s2 Hrest) as (cursor1 & s1' & Hans1 & Heq).
    exists cursor1, s1'. split; [done|]. intros fuel.
    cbn [length Nat.add Legacy.count_loop].
    change 100 with maxMessagesPerRequest at 1. rewrite Hcall.
    rewrite decide_False by lia. rewrite Heq. cbn [sum_list_with].
    rewrite set_upstream_twice. f_equal. lia.
Qed.

Lemma Legacy_fold_stuck (fuel : nat) (channels : list Channel) :
  foldl (λ (acc : option (World σ)) (channel : Channel),
           match acc with
           | None => None
           | Some w => Legacy.count_channel session fuel channel w
           end) None channels = None.
Proof. by induction channels. Qed.

Lemma Legacy_fold_labels (fuel : nat) :
  ∀ (channels : list Channel) (w w' : World σ),
    foldl (λ (acc : option (World σ)) (channel : Channel),
             match acc with
             | None => None
             | Some w => Legacy.count_channel session fuel channel w
             end) (Some w) channels = Some w' →
    (∀ channel, channel ∈ channels →
                Legacy.excludedChannels !! Name channel = None →
                is_Some (messageCountGauge w' !! Name channel))
    ∧ (∀ name, is_Some (messageCountGauge w !! name) →
               is_Some (messageCountGauge w' !! name))
    ∧ (∀ name, is_Some (Legacy.excludedChannels !! name) →
               messageCountGauge w' !! name = messageCountGauge w !! name)
    ∧ memberCountGauge w' = memberCountGauge w
    ∧ status w' = status w.
Proof.
  induction channels as [|channel channels IH]; intros w w' Hfold.
  - injection Hfold as <-. repeat split; try done. by intros ? ?%elem_of_nil.
  - cbn [foldl] in Hfold. unfold Legacy.count_channel in Hfold at 2.
    destruct (decide (is_Some (Legacy.excludedChannels !! Name channel)))
      as [Hex|Hex].
    + apply IH in Hfold as (Hall & Hkeep & Hexcl & Hm & Hst).
      repeat split; try done.
      intros ch [->|Hin]%elem_of_cons Hnone; [|by apply Hall].
      rewrite Hnone in Hex. by destruct Hex.
    + destruct (Legacy.count_loop session fuel (ID channel) "" 0 w)
        as [[total w1]|] eqn:Hloop; [|by rewrite Legacy_fold_stuck in Hfold].
      apply Legacy_count_loop_frame in Hloop as (Hg1 & Hm1 & Hst1).
      apply IH in Hfold as (Hall & Hkeep & Hexcl & Hm & Hst).
      cbn [messageCountGauge memberCountGauge status log_Printf
           messageCountGauge_Set] in *.
      repeat split; try congruence.
      * intros ch [->|Hin]%elem_of_cons Hnone; [|by apply Hall].
        apply Hkeep. rewrite lookup_insert_eq. by eexists.
      * intros name Hname. apply Hkeep.
        destruct (decide (Name channel = name)) as [->|Hne].
        -- rewrite lookup_insert_eq. by eexists.
        -- rewrite lookup_insert_ne by done. by rewrite Hg1.
      * intros name Hname. rewrite Hexcl by done.
        rewrite lookup_insert_ne; [by rewrite Hg1|].
        intros <-. done.
Qed.

Lemma Legacy_agrees (fuel : nat) (channelID : string) :
  ∀ cursor total (w : World σ) n e s',
    0 ≤ total →
    countChannelMessages_loop session fuel channelID cursor total (upstream w)
      = Some (Returned (n, e), s') →
    ∃ total' w',
      Legacy.count_loop session fuel channelID cursor total w = Some (total', w')
      ∧ match e with
        | None => total' = n ∧ w' = set_upstream s' w
        | Some _ =>
            n = 0 ∧ 0 ≤ total'
            ∧ ∃ e0, w' = log_Printf (LogFailedCount channelID e0) (set_upstream s' w)
        end.
Proof.
  induction fuel as [|fuel IH]; intros cursor total w n e s' Htotal Hloop; [done|].
  cbn [countChannelMessages_loop Legacy.count_loop] in *.
  change 100 with maxMessagesPerRequest at 1.
  destruct (ChannelMessages session channelID maxMessagesPerRequest cursor "" ""
              (upstream w)) as [[messages|e1] s1] eqn:Hcall.
  - destruct (decide (length messages < 100)%nat) as [Hshort|Hfull].
    + rewrite (body_short session _ _ _ _ _ _ Hcall Hshort) in Hloop.
      injection Hloop as <- <- <-. rewrite decide_True by lia. by eexists _, _.
    + rewrite (body_full session _ _ _ _ _ _ Hcall ltac:(lia)) in Hloop.
      rewrite decide_False by lia.
      destruct (IH (cursor_after cursor (Ok messages))
                  (total + Z.of_nat (length messages)) (set_upstream s1 w) n e s'
                  ltac:(lia) Hloop) as (total' & w' & -> & Hout).
      exists total', w'. split; [done|].
      destruct e; by rewrite set_upstream_twice in Hout.
  - rewrite (body_error session _ _ _ _ _ _ Hcall) in Hloop.
    injection Hloop as <- <- <-. eexists _, _. split; [done|].
    split; [done|]. split; [done|]. by exists e1.
Qed.

End LegacyFacts.

(** X14. In src/main.go a request that fails after some full pages does not
    discard the channel's count: the inner loop breaks with the total of the
    pages read so far, and [updateMessageCount] publishes that partial total
    as the channel's count, after a log line that names the channel by its
    identifier. *)
Theorem Legacy_partial_total {σ : Type} (session : Session σ) (fuel : nat)
    (channel : Channel) (pages : list (list Message)) (e : error)
    (w : World σ) (s' : σ) :
  Legacy.excludedChannels !! Name channel = None →
  Forall (λ p : list Message, (100 ≤ length p)%nat) pages →
  answers session (ID channel) "" (upstream w) ((Ok <$> pages) ++ [Err e]) s' →
  (length pages < fuel)%nat →
  Legacy.count_channel session fuel channel w
  = Some (mkWorld s' (memberCountGauge w)
            (<[Name channel := Z.of_nat (sum_list_with length pages)]>
               (messageCountGauge w))
            (log w ++ [LogFailedCount (ID channel) e;
                       LogChannel (Name channel)
                         (Z.of_nat (sum_list_with length pages))])
            (status w)).
Proof.
  intros Hnone Hpages Hans Hfuel. unfold Legacy.count_channel.
  rewrite decide_False by (rewrite Hnone; by intros []).
  destruct (Legacy_count_loop_pages session (ID channel) pages Hpages [Err e] "" 0
              w s' Hans) as (cursor1 & s1 & Hlast & Heq).
  replace fuel with (length pages + S (fuel - S (length pages)))%nat by lia.
  rewrite Heq. cbn [Legacy.count_loop].
  inversion Hlast as [|? ? ? s2 ? ? Hcall Hnil]; subst.
  inversion Hnil; subst.
  change 100 with maxMessagesPerRequest at 1.
  cbn [upstream set_upstream]. rewrite Hcall.
  unfold log_Printf, messageCountGauge_Set, set_upstream. cbn.
  by rewrite <- (assoc_L (++)).
Qed.

Lemma Legacy_partial_total_witness :
  Legacy.count_channel (scripted flaky_script) 3
    (mkChannel "c1" "general" ChannelTypeGuildText) (world_init nothing_served)
  = Some (mkWorld (mkServed 0 0 {["c1" := 3%nat]}) 0
            (<["general" := Z.of_nat (sum_list_with length [page 100; page 100])]> ∅)
            [LogFailedCount "c1" "rate limited";
             LogChannel "general"
               (Z.of_nat (sum_list_with length [page 100; page 100]))]
            Running).
Proof.
  apply (Legacy_partial_total (scripted flaky_script) 3
           (mkChannel "c1" "general" ChannelTypeGuildText)
           [page 100; page 100] "rate limited" (world_init nothing_served)
           (mkServed 0 0 {["c1" := 3%nat]})).
  - vm_compute. reflexivity.
  - repeat constructor.
  - eapply answers_cons; [reflexivity|].
    eapply answers_cons; [reflexivity|].
    eapply answers_cons; [vm_compute; reflexivity|].
    apply answers_nil.
  - cbn. lia.
Defined.

(** X15. The counting loop of src/main.go and [countChannelMessages] make
    the same requests. When [countChannelMessages] returns a count without
    an error, the loop of src/main.go ends with the same count and the same
    upstream, and logs nothing. When it returns an error, with the count 0,
    the loop of src/main.go ends with the total of the pages it has read,
    which is not negative, and logs the failure. *)
Theorem Legacy_count_loop_agrees {σ : Type} (session : Session σ) (fuel : nat)
    (channelID : string) (w : World σ) (n : Z) (e : option error) (s' : σ) :
  countChannelMessages session fuel channelID (upstream w)
    = Some (Returned (n, e), s') →
  ∃ total' w',
    Legacy.count_loop session fuel channelID "" 0 w = Some (total', w')
    ∧ match e with
      | None => total' = n ∧ w' = set_upstream s' w
      | Some _ =>
          n = 0 ∧ 0 ≤ total'
          ∧ ∃ e0, w' = log_Printf (LogFailedCount channelID e0) (set_upstream s' w)
      end.
Proof. intros Hloop. by apply (Legacy_agrees session fuel channelID "" 0 w). Qed.

Lemma Legacy_count_loop_agrees_witness :
  ∃ total' w',
    Legacy.count_loop (scripted demo_script) 5 "c1" "" 0 (world_init nothing_served)
      = Some (total', w')
    ∧ total' = 230
    ∧ w' = set_upstream (mkServed 0 0 {["c1" := 3%nat]}) (world_init nothing_served).
Proof.
  apply (Legacy_count_loop_agrees (scripted demo_script) 5 "c1"
           (world_init nothing_served) 230 None (mkServed 0 0 {["c1" := 3%nat]})).
  vm_compute. reflexivity.
Defined.

(** X16. [updateMessageCount] of src/main.go has no filter on the channel
    type and publishes a count also for a channel whose requests fail: when
    it returns, every enumerated channel whose name is not one of the two
    names written in the code has a gauge entry, no entry has been removed,
    the entries of the two excluded names are as they were, and the process
    is still running if it was. *)
Theorem Legacy_updateMessageCount_labels {σ : Type} (session : Session σ)
    (fuel : nat) (serverID : string) (w w' : World σ) (channels : list Channel)
    (s1 : σ) :
  GuildChannels session serverID (upstream w) = (Ok channels, s1) →
  Legacy.updateMessageCount session fuel serverID w = Some w' →
  (∀ channel, channel ∈ channels →
              Legacy.excludedChannels !! Name channel = None →
              is_Some (messageCountGauge w' !! Name channel))
  ∧ (∀ name, is_Some (messageCountGauge w !! name) →
             is_Some (messageCountGauge w' !! name))
  ∧ (∀ name, is_Some (Legacy.excludedChannels !! name) →
             messageCountGauge w' !! name = messageCountGauge w !! name)
  ∧ memberCountGauge w' = memberCountGauge w
  ∧ status w' = status w.
Proof.
  intros Henum Hrun. unfold Legacy.updateMessageCount in Hrun.
  rewrite Henum in Hrun. by apply Legacy_fold_labels in Hrun.
Qed.

Lemma Legacy_updateMessageCount_labels_witness :
  ∃ w' : World Served,
    Legacy.updateMessageCount (scripted demo_script) 5 "guild"
      (world_init nothing_served) = Some w'
    ∧ (∀ channel, channel ∈ demo_channels →
                  Legacy.excludedChannels !! Name channel = None →
                  is_Some (messageCountGauge w' !! Name channel))
    ∧ status w' = Running.
Proof.
  assert (is_Some (Legacy.updateMessageCount (scripted demo_script) 5 "guild"
                     (world_init nothing_served))) as Hsome.
  { vm_compute. eexists. reflexivity. }
  destruct (Legacy.updateMessageCount (scripted demo_script) 5 "guild"
              (world_init nothing_served)) as [w'|] eqn:Hrun;
    [clear Hsome|exfalso; by destruct Hsome].
  destruct (Legacy_updateMessageCount_labels (scripted demo_script) 5 "guild"
              (world_init nothing_served) w' demo_channels (mkServed 0 1 ∅)
              eq_refl Hrun) as (Hall & _ & _ & _ & Hst).
  exists w'. split; [reflexivity|]. split; [exact Hall|exact Hst].
Defined.

(** ** The pool on a scripted upstream: the interleaving does not matter *)

Section ScriptedFacts.
Variable sc : Script.

Lemma scripted_body_other (channelID other cursor : string) (total : Z)
    (s : Served) :
  other ≠ channelID →
  requests_on (countChannelMessages_body (scripted sc) channelID cursor total s).2
    other
  = requests_on s other.
Proof.
  intros Hne. unfold countChannelMessages_body. cbn [ChannelMessages scripted].
  destruct (messages_script sc channelID (requests_on s channelID))
    as [messages|e]; [|unfold requests_on; cbn; by rewrite lookup_insert_ne].
  case_decide; [unfold requests_on; cbn; by rewrite lookup_insert_ne|].
  destruct (messages !! _); unfold requests_on; cbn; by rewrite lookup_insert_ne.
Qed.

Lemma scripted_loop_indep (fuel : nat) (channelID : string) :
  ∀ cursor1 cursor2 total s1 s2,
    requests_on s1 channelID = requests_on s2 channelID →
    fst <$> countChannelMessages_loop (scripted sc) fuel channelID cursor1 total s1
    = fst <$> countChannelMessages_loop (scripted sc) fuel channelID cursor2 total s2.
Proof.
  induction fuel as [|fuel IH]; intros cursor1 cursor2 total s1 s2 Hreq; [done|].
  cbn [countChannelMessages_loop]. unfold countChannelMessages_body.
  cbn [ChannelMessages scripted]. rewrite Hreq.
  destruct (messages_script sc channelID (requests_on s2 channelID))
    as [messages|e]; [|done].
  case_decide; [done|].
  destruct (messages !! _); [|done].
  apply IH. unfold requests_on. cbn. by rewrite !lookup_insert_eq.
Qed.

Lemma counted_alone_unique (s0 : Served) (channel : Channel)
    (r1 r2 : Z * option error) :
  counted_alone sc s0 channel r1 → counted_alone sc s0 channel r2 → r1 = r2.
Proof.
  intros (fuel1 & s1 & H1) (fuel2 & s2 & H2).
  apply (loop_fuel_mono _ _ (fuel1 `max` fuel2)) in H1; [|lia].
  apply (loop_fuel_mono _ _ (fuel1 `max` fuel2)) in H2; [|lia].
  unfold countChannelMessages in *. congruence.
Qed.

Lemma worker_ok_stable (s0 s s1 : Served) (cw : Channel * Worker) :
  requests_on s1 (ID cw.1) = requests_on s (ID cw.1) →
  worker_ok sc s0 s cw → worker_ok sc s0 s1 cw.
Proof.
  intros Hreq. unfold worker_ok. destruct cw.2 as [|cursor total| | | | |]; try done.
  - by rewrite Hreq.
  - intros Hok fuel r s' Hloop.
    pose proof (scripted_loop_indep fuel (ID cw.1) cursor cursor total s1 s Hreq)
      as Heq.
    rewrite Hloop in Heq. cbn in Heq.
    destruct (countChannelMessages_loop (scripted sc) fuel (ID cw.1) cursor total s)
      as [[out s'']|] eqn:Hloop'; [|done].
    injection Heq as <-. by eapply Hok.
Qed.

End ScriptedFacts.

Section WorkersOfActive.
Context {σ : Type}.
Variables (K : nat) (w0 : World σ) (active : list Channel).

Lemma worker_in_active (st : Pool σ) i cw :
  pool_inv K w0 active st → workers st !! i = Some cw → cw.1 ∈ active.
Proof.
  intros Hinv Hi.
  assert (cw.1 ∈ (workers st).*1) as Hin.
  { apply list_elem_of_fmap. exists cw. split; [done|].
    by eapply list_elem_of_lookup_2. }
  pose proof (inv_caller _ _ _ _ Hinv) as Hc. unfold caller_inv in Hc.
  destruct (caller st) as [todo| |].
  - destruct Hc as (<- & _). apply elem_of_app. by left.
  - by destruct Hc as [<- _].
  - by destruct Hc as [<- _].
Qed.

End WorkersOfActive.

Section ScriptedInvariant.
Variables (sc : Script) (K : nat) (w0 : World Served) (active : list Channel).
Hypothesis HID : NoDup (ID <$> active).

Local Abbreviation J := (script_inv sc (upstream w0) active).

Lemma script_inv_init : J (pool_init w0 active).
Proof.
  split; [constructor|]. split; [|constructor].
  intros todo [= <-]. by apply Forall_forall.
Qed.

Lemma workers_distinct (st : Pool Served) i j cw1 cw2 :
  pool_inv K w0 active st →
  workers st !! i = Some cw1 → workers st !! j = Some cw2 → i ≠ j →
  ID cw1.1 ≠ ID cw2.1.
Proof.
  intros Hinv Hi Hj Hne Heq.
  assert (NoDup (ID <$> (workers st).*1)) as Hnodup.
  { pose proof (inv_caller _ _ _ _ Hinv) as Hcaller. unfold caller_inv in Hcaller.
    destruct (caller st) as [todo| |].
    - destruct Hcaller as (Happ & _). rewrite <- Happ, fmap_app in HID.
      by apply NoDup_app in HID as (? & _).
    - destruct Hcaller as [-> _]. done.
    - destruct Hcaller as [-> _]. done. }
  apply Hne. eapply NoDup_lookup; [exact Hnodup| |].
  - rewrite !list_lookup_fmap, Hi. reflexivity.
  - rewrite !list_lookup_fmap, Hj. cbn. by rewrite Heq.
Qed.

Lemma todo_distinct (st : Pool Served) todo i cw channel :
  pool_inv K w0 active st →
  caller st = MSpawn todo → workers st !! i = Some cw → channel ∈ todo →
  ID channel ≠ ID cw.1.
Proof.
  intros Hinv Hcaller Hi Hin Heq.
  pose proof (inv_caller _ _ _ _ Hinv) as Hc. unfold caller_inv in Hc.
  rewrite Hcaller in Hc. destruct Hc as (Happ & _).
  rewrite <- Happ, fmap_app in HID. apply NoDup_app in HID as (_ & Hdisj & _).
  apply (Hdisj (ID cw.1)).
  - apply list_elem_of_fmap. exists cw.1. split; [done|].
    apply list_elem_of_fmap. exists cw. split; [done|].
    by eapply list_elem_of_lookup_2.
  - rewrite <- Heq. by apply list_elem_of_fmap_2.
Qed.

Lemma script_inv_step (t : Thread) (st st' : Pool Served) :
  pool_inv K w0 active st → J st →
  step (scripted sc) K (length active) t st = Some st' → J st'.
Proof.
  intros Hinv (Hworkers & Htodo & Hresults) Hstep. unfold script_inv.
  destruct t as [| |i]; cbn [step] in Hstep.
  - (* the calling goroutine *)
    unfold caller_step in Hstep.
    destruct (caller st) as [[|channel todo]|a b|] eqn:Hcaller; [| | |done].
    + injection Hstep as <-. split; [done|]. split; [done|done].
    + injection Hstep as <-. cbn [world workers caller received results].
      specialize (Htodo _ eq_refl). inversion_clear Htodo as [|? ? Hch Hrest].
      split; [|split; [|done]].
      * apply Forall_app. split; [done|]. by constructor.
      * by intros ? [= <-].
    + destruct (results st) as [|result rest] eqn:Hres.
      * destruct (results_closed st); [|done]. injection Hstep as <-.
        cbn [world workers caller received results upstream log_Printf].
        split; [done|]. split; [done|]. by rewrite ?Hres in Hresults |- *.
      * destruct (collect_result result (world st, a, b)) as [[w1 a1] b1] eqn:Hone.
        injection Hstep as <-.
        cbn [world workers caller received results].
        assert (upstream w1 = upstream (world st)) as Hup.
        { unfold collect_result in Hone.
          destruct (err result); by injection Hone as <- _ _. }
        unfold script_inv. cbn [world workers caller received results].
        rewrite Hup. split; [done|]. split; [done|].
        by rewrite <- (assoc_L (++)).
  - (* the closing goroutine *)
    unfold closer_step in Hstep.
    destruct (closer st); try done. destruct (wg st); [|done].
    by injection Hstep as <-.
  - (* a worker *)
    unfold worker_step in Hstep.
    destruct (workers st !! i) as [[channel wk]|] eqn:Hi; [|done].
    pose proof (Forall_lookup_1 _ _ _ _ Hworkers Hi) as Hok.
    destruct wk as [|cursor total|n e| | | |]; try done.
    + case_decide; [|done]. injection Hstep as <-.
      cbn [world workers caller received results set_worker].
      split; [|done]. apply Forall_insert; [done|].
      unfold worker_ok in *. cbn [fst snd] in *.
      intros fuel r s' Hloop.
      pose proof (scripted_loop_indep sc fuel (ID channel) "" "" 0
                    (upstream (world st)) (upstream w0) Hok) as Heq.
      rewrite Hloop in Heq. cbn in Heq.
      destruct (countChannelMessages_loop (scripted sc) fuel (ID channel) "" 0
                  (upstream w0)) as [[out s'']|] eqn:Hloop0; [|done].
      injection Heq as <-. by exists fuel, s''.
    + destruct (countChannelMessages_body (scripted sc) (ID channel) cursor total
                  (upstream (world st))) as [r s1] eqn:Hbody.
      injection Hstep as <-.
      cbn [world workers caller received results set_worker upstream set_upstream].
      assert (∀ other, other ≠ ID channel →
                requests_on s1 other = requests_on (upstream (world st)) other)
        as Hother.
      { intros other Hne.
        pose proof (scripted_body_other sc (ID channel) other cursor total
                      (upstream (world st)) Hne) as H.
        by rewrite Hbody in H. }
      split; [|split; [|done]].
      * apply Forall_lookup_2. intros j cw Hj.
        destruct (decide (j = i)) as [->|Hne].
        -- rewrite list_lookup_insert_eq in Hj by (by eapply lookup_lt_Some).
           injection Hj as <-. unfold worker_ok in *. cbn [fst snd] in *.
           destruct r as [[n e]|cursor' total'|]; [| |done].
           ++ apply (Hok 1%nat (n, e) s1).
              cbn [countChannelMessages_loop]. by rewrite Hbody.
           ++ intros fuel r s' Hloop. apply (Hok (S fuel) r s').
              cbn [countChannelMessages_loop]. by rewrite Hbody.
        -- rewrite list_lookup_insert_ne in Hj by done.
           apply (worker_ok_stable sc _ (upstream (world st))).
           ++ apply Hother.
              apply (workers_distinct st j i cw (channel, WCounting cursor total));
                done.
           ++ by eapply Forall_lookup_1.
      * intros todo Hcaller. specialize (Htodo todo Hcaller).
        apply Forall_forall. intros ch Hch. rewrite Hother.
        -- rewrite Forall_forall in Htodo. by apply Htodo.
        -- by apply (todo_distinct st todo i (channel, WCounting cursor total)).
    + destruct (results_closed st).
      * injection Hstep as <-. cbn [world workers caller received results set_worker].
        split; [|done]. by apply Forall_insert.
      * case_decide; [|done]. injection Hstep as <-.
        cbn [world workers caller received results set_worker].
        split; [by apply Forall_insert|]. split; [done|].
        rewrite (assoc_L (++)). apply Forall_app. split; [done|].
        constructor; [|done]. exists channel. split; [|done].
        by apply (worker_in_active K w0 active st i (channel, WSend n e)).
    + destruct (semaphore st); [done|]. injection Hstep as <-.
      cbn [world workers caller received results set_worker].
      split; [|done]. by apply Forall_insert.
    + destruct (wg st); injection Hstep as <-;
        cbn [world workers caller received results set_worker];
        (split; [|done]); by apply Forall_insert.
Qed.

Lemma script_inv_reachable (st : Pool Served) :
  rtc (pool_step (scripted sc) K (length active)) (pool_init w0 active) st → J st.
Proof.
  intros Hreach. revert st Hreach. apply rtc_ind_r; [apply script_inv_init|].
  intros st st' Hreach [t Hstep] IH.
  eapply script_inv_step; [|exact IH|exact Hstep].
  by eapply pool_inv_reachable.
Qed.

End ScriptedInvariant.

Section ScriptedOutcome.
Variables (sc : Script) (K : nat) (w0 : World Served) (active : list Channel).
Hypothesis HID : NoDup (ID <$> active).
Hypothesis HName : NoDup (Name <$> active).

Lemma last_success_unique (rs : list channelCountResult) (r : channelCountResult) :
  NoDup (channelName <$> rs) → r ∈ rs →
  last_success (channelName r) rs
  = match err r with
    | None => Some (count r)
    | Some _ => None
    end.
Proof.
  intros Hnodup Hin. destruct (err r) as [e|] eqn:He.
  - destruct (last_success (channelName r) rs) as [n|] eqn:Hlast; [|done].
    apply last_success_Some in Hlast as (r' & Hin' & Hname & Herr & _).
    assert (r' = r) as -> by (by eapply NoDup_fmap_eq).
    congruence.
  - destruct (last_success_is_Some rs r Hin He) as [n Hlast]. rewrite Hlast.
    apply last_success_Some in Hlast as (r' & Hin' & Hname & _ & <-).
    assert (r' = r) as -> by (by eapply NoDup_fmap_eq).
    done.
Qed.

Lemma pool_done_gauge (st : Pool Served) (name : string) :
  pool_inv K w0 active st → caller st = MDone →
  messageCountGauge (world st) !! name
  = match last_success name (received st) with
    | Some n => Some n
    | None => messageCountGauge w0 !! name
    end.
Proof.
  intros Hinv Hdone. pose proof (inv_publish _ _ _ _ Hinv) as Hpub.
  unfold publish_inv in Hpub. rewrite Hdone in Hpub.
  pose proof (collect_results_gauge (received st) w0 0 0 name) as Hgauge.
  destruct (collect_results (received st) (w0, 0, 0)) as [[wp a] b].
  cbn [fst] in Hgauge. rewrite Hpub. exact Hgauge.
Qed.

(** What a finished pool has received for a channel. *)
Lemma pool_done_result (st : Pool Served) (channel : Channel) :
  rtc (pool_step (scripted sc) K (length active)) (pool_init w0 active) st →
  caller st = MDone → channel ∈ active →
  ∃ r, r ∈ received st
       ∧ channelName r = Name channel
       ∧ counted_alone sc (upstream w0) channel (count r, err r).
Proof.
  intros Hreach Hdone Hin.
  pose proof (pool_inv_reachable (scripted sc) K w0 active st Hreach) as Hinv.
  destruct (pool_inv_done K w0 active st Hinv Hdone)
    as (Hperm & _ & _ & Hres).
  destruct (script_inv_reachable sc K w0 active HID st Hreach) as (_ & _ & Hok).
  rewrite Hres, app_nil_r in Hok.
  assert (Name channel ∈ channelName <$> received st) as Hname.
  { rewrite Hperm. by apply list_elem_of_fmap_2. }
  apply list_elem_of_fmap in Hname as (r & Hname & Hr).
  exists r. split; [done|]. split; [done|].
  rewrite Forall_forall in Hok.
  destruct (Hok r Hr) as (channel' & Hin' & Hname' & Halone).
  assert (channel' = channel) as -> by (eapply NoDup_fmap_eq; [exact HName|..]; congruence).
  done.
Qed.

Lemma scripted_pool_gauges (st1 st2 : Pool Served) :
  rtc (pool_step (scripted sc) K (length active)) (pool_init w0 active) st1 →
  caller st1 = MDone →
  rtc (pool_step (scripted sc) K (length active)) (pool_init w0 active) st2 →
  caller st2 = MDone →
  messageCountGauge (world st1) = messageCountGauge (world st2).
Proof.
  intros Hreach1 Hdone1 Hreach2 Hdone2.
  pose proof (pool_inv_reachable (scripted sc) K w0 active st1 Hreach1) as Hinv1.
  pose proof (pool_inv_reachable (scripted sc) K w0 active st2 Hreach2) as Hinv2.
  destruct (pool_inv_done K w0 active st1 Hinv1 Hdone1)
    as (Hperm1 & _).
  destruct (pool_inv_done K w0 active st2 Hinv2 Hdone2)
    as (Hperm2 & _).
  apply map_eq. intros name.
  rewrite (pool_done_gauge st1 name Hinv1 Hdone1).
  rewrite (pool_done_gauge st2 name Hinv2 Hdone2).
  destruct (decide (name ∈ Name <$> active)) as [Hin|Hout].
  - apply list_elem_of_fmap in Hin as (channel & -> & Hin).
    destruct (pool_done_result st1 channel Hreach1 Hdone1 Hin)
      as (r1 & Hr1 & Hn1 & Ha1).
    destruct (pool_done_result st2 channel Hreach2 Hdone2 Hin)
      as (r2 & Hr2 & Hn2 & Ha2).
    pose proof (counted_alone_unique sc _ _ _ _ Ha1 Ha2) as [= Hcount Herr].
    rewrite <- Hn1 at 1. rewrite <- Hn2 at 1.
    rewrite (last_success_unique (received st1) r1), (last_success_unique (received st2) r2);
      [|by rewrite Hperm2|done|by rewrite Hperm1|done].
    by rewrite Herr, Hcount.
  - rewrite !last_success_None; [done| |].
    + intros r Hr Hname. exfalso. apply Hout. rewrite <- Hperm2, <- Hname.
      by apply list_elem_of_fmap_2.
    + intros r Hr Hname. exfalso. apply Hout. rewrite <- Hperm1, <- Hname.
      by apply list_elem_of_fmap_2.
Qed.

End ScriptedOutcome.

(** X17. When each channel has answers of its own (a scripted upstream),
    and the eligible channels have distinct identifiers and distinct names,
    the gauges that a cycle leaves do not depend on the interleaving of the
    goroutines: any two runs of [updateMessageCount] from the same world end
    with the same per-channel gauge, the same membership gauge and the same
    process status. *)
Theorem updateMessageCount_schedule_independent (sc : Script) (config : Config)
    (w w1 w2 : World Served) :
  NoDup (ID <$> cycle_channels (scripted sc) config w) →
  NoDup (Name <$> cycle_channels (scripted sc) config w) →
  updateMessageCount (scripted sc) config w w1 →
  updateMessageCount (scripted sc) config w w2 →
  messageCountGauge w1 = messageCountGauge w2
  ∧ memberCountGauge w1 = memberCountGauge w2
  ∧ status w1 = status w2.
Proof.
  intros HID HName Hcycle1 Hcycle2. split.
  - destruct Hcycle1 as [schedule1 Hrun1]. destruct Hcycle2 as [schedule2 Hrun2].
    unfold cycle_channels, activeChannels in HID, HName.
    unfold updateMessageCount_with in Hrun1, Hrun2.
    destruct (GuildChannels (scripted sc) (ServerID config) (upstream w))
      as [[channels|e] s1]; [|congruence].
    destruct (activeChannels_loop config channels) as [active skipped].
    cbn [fst] in HID, HName.
    case_decide; [congruence|].
    destruct (run (scripted sc) maxConcurrentChannels (length active) schedule1 _)
      as [st1|] eqn:Hst1; [|done].
    destruct (run (scripted sc) maxConcurrentChannels (length active) schedule2 _)
      as [st2|] eqn:Hst2; [|done].
    destruct (caller st1) eqn:Hdone1; try done.
    destruct (caller st2) eqn:Hdone2; try done.
    injection Hrun1 as <-. injection Hrun2 as <-.
    apply run_reachable in Hst1, Hst2.
    by eapply scripted_pool_gauges.
  - apply updateMessageCount_gauge in Hcycle1 as (_ & _ & _ & -> & ->).
    apply updateMessageCount_gauge in Hcycle2 as (_ & _ & _ & -> & ->).
    done.
Qed.

Lemma updateMessageCount_schedule_independent_witness :
  ∃ w1 w2 : World Served,
    updateMessageCount_with (scripted demo_script) demo_schedule demo_config
      (world_init nothing_served) = Some w1
    ∧ updateMessageCount_with (scripted demo_script) demo_schedule_in_turn demo_config
        (world_init nothing_served) = Some w2
    ∧ messageCountGauge w1 = messageCountGauge w2.
Proof.
  assert (is_Some (updateMessageCount_with (scripted demo_script) demo_schedule
                     demo_config (world_init nothing_served))) as Hsome1.
  { vm_compute. eexists. reflexivity. }
  assert (is_Some (updateMessageCount_with (scripted demo_script)
                     demo_schedule_in_turn demo_config (world_init nothing_served)))
    as Hsome2.
  { vm_compute. eexists. reflexivity. }
  destruct (updateMessageCount_with (scripted demo_script) demo_schedule
              demo_config (world_init nothing_served)) as [w1|] eqn:Hrun1;
    [clear Hsome1|exfalso; by destruct Hsome1].
  destruct (updateMessageCount_with (scripted demo_script) demo_schedule_in_turn
              demo_config (world_init nothing_served)) as [w2|] eqn:Hrun2;
    [clear Hsome2|exfalso; by destruct Hsome2].
  exists w1, w2. split; [reflexivity|]. split; [reflexivity|].
  refine (proj1 (updateMessageCount_schedule_independent demo_script demo_config
                   (world_init nothing_served) w1 w2 _ _ _ _)).
  - apply (bool_decide_unpack _). vm_compute. reflexivity.
  - apply (bool_decide_unpack _). vm_compute. reflexivity.
  - exists demo_schedule. exact Hrun1.
  - exists demo_schedule_in_turn. exact Hrun2.
Defined.

(** ** Closing [results] *)

(** X18. [results] is closed only when every goroutine of the pool has been
    started and has ended: by then each of them has sent its result, the
    wait group is at zero and every permit has been given back, so that no
    send can meet the closed channel. *)
Theorem results_closed_after_all_sent {σ : Type} (session : Session σ) (K : nat)
    (w0 : World σ) (active : list Channel) (st : Pool σ) :
  rtc (pool_step session K (length active)) (pool_init w0 active) st →
  results_closed st = true →
  (workers st).*1 = active
  ∧ Forall (λ cw : Channel * Worker, cw.2 = WExited) (workers st)
  ∧ channelName <$> (received st ++ results st) ≡ₚ Name <$> active
  ∧ wg st = 0%nat
  ∧ semaphore st = 0%nat.
Proof.
  intros Hreach Hclosed.
  destruct (pool_inv_reachable session K w0 active st Hreach)
    as [Hsem Hcap Hwg Hsent Hcaller Hcl Hcloser Hpanic Hdone Hpub].
  pose proof (proj1 Hcl Hclosed) as Hc. pose proof (Hcloser Hc) as Hwg0.
  assert ((workers st).*1 = active) as Hws.
  { unfold caller_inv in Hcaller. destruct (caller st).
    - destruct Hcaller as (_ & Hn & _). congruence.
    - by destruct Hcaller.
    - by destruct Hcaller. }
  rewrite Hwg0 in Hwg. unfold count_workers in *. symmetry in Hwg.
  assert (Forall (λ cw : Channel * Worker, cw.2 = WExited) (workers st)) as Hex.
  { apply Forall_forall. intros [ch wk] Hin.
    pose proof (filter_none_length _ _ Hwg _ Hin) as Hnp. cbn in *.
    by destruct wk. }
  split; [done|]. split; [done|]. split; [|split; [done|]].
  - rewrite Hsent, <- Hws. by rewrite names_sent_all.
  - rewrite Hsem. unfold count_in.
    destruct (filter _ (workers st)) as [|[ch wk] f] eqn:E; [done|].
    assert ((ch, wk) ∈ filter (λ cw : Channel * Worker, holding cw.2 = true)
                         (workers st)) as Hin by (rewrite E; left).
    apply list_elem_of_filter in Hin as [Hh Hin].
    rewrite Forall_forall in Hex. specialize (Hex _ Hin). cbn in *. by subst wk.
Qed.

Lemma results_closed_after_all_sent_witness :
  ∃ st : Pool Served,
    run (scripted demo_script) 2 (length demo_active) demo_schedule
      (pool_init (world_init nothing_served) demo_active) = Some st
    ∧ (workers st).*1 = demo_active
    ∧ Forall (λ cw : Channel * Worker, cw.2 = WExited) (workers st)
    ∧ wg st = 0%nat.
Proof.
  assert (results_closed
            <$> run (scripted demo_script) 2 (length demo_active) demo_schedule
                  (pool_init (world_init nothing_served) demo_active)
          = Some true) as Hclosed by (vm_compute; reflexivity).
  destruct (run (scripted demo_script) 2 (length demo_active) demo_schedule
              (pool_init (world_init nothing_served) demo_active))
    as [st|] eqn:Hrun; [|discriminate Hclosed].
  injection Hclosed as Hclosed.
  destruct (results_closed_after_all_sent (scripted demo_script) 2
              (world_init nothing_served) demo_active st
              (run_reachable _ _ _ _ _ _ Hrun) Hclosed)
    as (Hws & Hex & _ & Hwg & _).
  exists st. split; [reflexivity|]. split; [exact Hws|]. split; [exact Hex|exact Hwg].
Defined.

(** ** Requests of a cycle *)

Section ScriptedRequests.
Variable sc : Script.

Lemma scripted_step_served (K N : nat) (t : Thread) (st st' : Pool Served) :
  step (scripted sc) K N t st = Some st' →
  members_served (upstream (world st')) = members_served (upstream (world st))
  ∧ channels_served (upstream (world st')) = channels_served (upstream (world st)).
Proof.
  intros Hstep. destruct t as [| |i]; cbn [step] in Hstep.
  - unfold caller_step in Hstep. destruct (caller st) as [[|channel todo]|a b|].
    + by injection Hstep as <-.
    + by injection Hstep as <-.
    + destruct (results st) as [|result rest].
      * destruct (results_closed st); [|done]. by injection Hstep as <-.
      * unfold collect_result in Hstep.
        destruct (err result); by injection Hstep as <-.
    + done.
  - unfold closer_step in Hstep. destruct (closer st); try done.
    destruct (wg st); [|done]. by injection Hstep as <-.
  - unfold worker_step in Hstep.
    destruct (workers st !! i) as [[channel wk]|]; [|done].
    destruct wk as [|cursor total|n e| | | |]; try done.
    + case_decide; [|done]. by injection Hstep as <-.
    + unfold countChannelMessages_body in Hstep. cbn [ChannelMessages scripted] in Hstep.
      destruct (messages_script sc (ID channel) _) as [messages|e];
        [|by injection Hstep as <-].
      case_decide; [by injection Hstep as <-|].
      destruct (messages !! _); by injection Hstep as <-.
    + destruct (results_closed st); [by injection Hstep as <-|].
      case_decide; [|done]. by injection Hstep as <-.
    + destruct (semaphore st); [done|]. by injection Hstep as <-.
    + destruct (wg st); by injection Hstep as <-.
Qed.

Lemma scripted_run_served (K N : nat) (schedule : list Thread) :
  ∀ st st' : Pool Served,
    run (scripted sc) K N schedule st = Some st' →
    members_served (upstream (world st')) = members_served (upstream (world st))
    ∧ channels_served (upstream (world st')) = channels_served (upstream (world st)).
Proof.
  induction schedule as [|t schedule IH]; intros st st' Hrun.
  - by injection Hrun as <-.
  - cbn [run] in Hrun.
    destruct (step (scripted sc) K N t st) as [st1|] eqn:Hstep; [|done].
    apply scripted_step_served in Hstep as [<- <-]. by apply IH.
Qed.

Lemma scripted_cycle_served (config : Config) (w w' : World Served) :
  updateMessageCount (scripted sc) config w w' →
  members_served (upstream w') = members_served (upstream w)
  ∧ channels_served (upstream w') = S (channels_served (upstream w)).
Proof.
  intros [schedule Hrun]. unfold updateMessageCount_with in Hrun.
  cbn [GuildChannels scripted] in Hrun.
  destruct (channels_script sc (channels_served (upstream w))) as [channels|e].
  - destruct (activeChannels_loop config channels) as [active skipped].
    destruct (log_all_frame skipped
                (set_upstream
                   (mkServed (members_served (upstream w))
                      (S (channels_served (upstream w)))
                      (messages_served (upstream w))) w))
      as (_ & _ & _ & Hup & _).
    case_decide.
    + injection Hrun as <-. cbn [upstream log_Printf]. by rewrite Hup.
    + destruct (run (scripted sc) maxConcurrentChannels (length active) schedule _)
        as [st|] eqn:Hst; [|done].
      destruct (caller st); try done. injection Hrun as <-.
      apply scripted_run_served in Hst as [-> ->].
      cbn [world pool_init upstream log_Printf]. by rewrite Hup.
  - by injection Hrun as <-.
Qed.

End ScriptedRequests.

(** X19. Against a scripted upstream, every cycle of the collector makes
    exactly one request for the members and exactly one request for the
    channels, the first before the second: after any number of steps the
    numbers of these requests are the number of cycles completed, with one
    more request for the members while a cycle is at its message count. *)
Theorem collector_requests_per_cycle (sc : Script) (config : Config)
    (w0 : World Served) (t0 : Z) (c : @Collector Served) :
  rtc (collector_step (scripted sc) config) (collector_init w0 t0) c →
  members_served (upstream (cworld c))
  = (members_served (upstream w0) + length (history c)
     + match pc c with AtMessageCount => 1 | _ => 0 end)%nat
  ∧ channels_served (upstream (cworld c))
    = (channels_served (upstream w0) + length (history c))%nat.
Proof.
  intros Hreach. revert c Hreach. apply rtc_ind_r.
  - cbn. lia.
  - intros c c' _ Hstep [IHm IHc].
    destruct Hstep as [w t t' b hist _|w w1 t t' b hist Hcycle _|w t b hist];
      cbn [cworld history pc] in *.
    + unfold updateMemberCount. cbn [GuildMembers scripted].
      destruct (members_script sc _); cbn; lia.
    + apply scripted_cycle_served in Hcycle as [-> ->].
      rewrite length_app. cbn [length]. lia.
    + lia.
Qed.

Lemma collector_requests_per_cycle_witness :
  members_served
    (upstream
       (log_Printf (LogFailedChannels "channels unavailable")
          (set_upstream (mkServed 1 1 ∅)
             (updateMemberCount (scripted flaky_script) (ServerID demo_config)
                (world_init nothing_served)))))
  = 1%nat
  ∧ channels_served
      (upstream
         (log_Printf (LogFailedChannels "channels unavailable")
            (set_upstream (mkServed 1 1 ∅)
               (updateMemberCount (scripted flaky_script) (ServerID demo_config)
                  (world_init nothing_served)))))
    = 1%nat.
Proof.
  apply (collector_requests_per_cycle flaky_script demo_config
           (world_init nothing_served) 0
           (mkCollector AtSleep
              (log_Printf (LogFailedChannels "channels unavailable")
                 (set_upstream (mkServed 1 1 ∅)
                    (updateMemberCount (scripted flaky_script) (ServerID demo_config)
                       (world_init nothing_served))))
              9 0 [(0, 9)])).
  eapply rtc_l; [apply (step_member _ _ _ 0 4); lia|].
  eapply rtc_l; [|apply rtc_refl].
  apply (step_message _ _ _ _ 4 9 0 []); [|lia].
  apply updateMessageCount_enum_failed_returns. reflexivity.
Defined.

Section ScriptedUntouched.
Variables (sc : Script) (K : nat) (w0 : World Served) (active : list Channel).

Lemma scripted_reach_other (st : Pool Served) (channelID : string) :
  rtc (pool_step (scripted sc) K (length active)) (pool_init w0 active) st →
  channelID ∉ ID <$> active →
  requests_on (upstream (world st)) channelID = requests_on (upstream w0) channelID.
Proof.
  intros Hreach Hout. revert st Hreach. apply rtc_ind_r; [done|].
  intros st st' Hreach [t Hstep] IH. rewrite <- IH.
  destruct (decide (requests_on (upstream (world st')) channelID
                    = requests_on (upstream (world st)) channelID)) as [|Hne];
    [done|].
  destruct (step_upstream (scripted sc) K (length active) t st st' Hstep)
    as (i & channel & wk & -> & Hi & Hcounting); [congruence|].
  destruct wk as [|cursor total| | | | |]; try done.
  cbn [step] in Hstep. unfold worker_step in Hstep. rewrite Hi in Hstep.
  pose proof (scripted_body_other sc (ID channel) channelID cursor total
                (upstream (world st))) as Hother.
  destruct (countChannelMessages_body (scripted sc) (ID channel) cursor total
              (upstream (world st))) as [r s1].
  injection Hstep as <-. cbn [world set_worker upstream set_upstream].
  apply Hother. intros ->. apply Hout.
  apply list_elem_of_fmap_2.
  apply (worker_in_active K w0 active st i (channel, WCounting cursor total)); [|done].
  by eapply pool_inv_reachable.
Qed.

End ScriptedUntouched.

(** X20. A cycle asks for the messages of eligible channels only: against a
    scripted upstream, the number of requests served for any other channel
    identifier, be it that of an excluded channel, of a channel that is not
    a text channel, or of no channel of the server, is after the cycle what
    it was before. *)
Theorem updateMessageCount_requests_eligible_only (sc : Script) (config : Config)
    (w w' : World Served) (channelID : string) :
  updateMessageCount (scripted sc) config w w' →
  channelID ∉ ID <$> cycle_channels (scripted sc) config w →
  requests_on (upstream w') channelID = requests_on (upstream w) channelID.
Proof.
  intros [schedule Hrun] Hout.
  unfold cycle_channels, activeChannels in Hout.
  unfold updateMessageCount_with in Hrun. cbn [GuildChannels scripted] in Hrun, Hout.
  destruct (channels_script sc (channels_served (upstream w))) as [channels|e].
  - destruct (activeChannels_loop config channels) as [active skipped].
    cbn [fst] in Hout.
    destruct (log_all_frame skipped
                (set_upstream
                   (mkServed (members_served (upstream w))
                      (S (channels_served (upstream w)))
                      (messages_served (upstream w))) w))
      as (_ & _ & _ & Hup & _).
    case_decide.
    + injection Hrun as <-. cbn [upstream log_Printf]. by rewrite Hup.
    + destruct (run (scripted sc) maxConcurrentChannels (length active) schedule _)
        as [st|] eqn:Hst; [|done].
      destruct (caller st); try done. injection Hrun as <-.
      apply run_reachable in Hst.
      rewrite (scripted_reach_other sc _ _ active st channelID Hst Hout).
      cbn [upstream log_Printf]. by rewrite Hup.
  - by injection Hrun as <-.
Qed.

Lemma updateMessageCount_requests_eligible_only_witness :
  ∃ w' : World Served,
    updateMessageCount (scripted demo_script) demo_config
      (world_init nothing_served) w'
    ∧ requests_on (upstream w') "c5" = 0%nat
    ∧ requests_on (upstream w') "c4" = 0%nat.
Proof.
  assert (is_Some (updateMessageCount_with (scripted demo_script) demo_schedule
                     demo_config (world_init nothing_served))) as Hsome.
  { vm_compute. eexists. reflexivity. }
  destruct (updateMessageCount_with (scripted demo_script) demo_schedule
              demo_config (world_init nothing_served)) as [w'|] eqn:Hrun;
    [clear Hsome|exfalso; by destruct Hsome].
  assert (updateMessageCount (scripted demo_script) demo_config
            (world_init nothing_served) w') as Hcycle.
  { exists demo_schedule. exact Hrun. }
  exists w'. split; [exact Hcycle|]. split.
  - apply (updateMessageCount_requests_eligible_only demo_script demo_config
             (world_init nothing_served) w' "c5" Hcycle).
    apply (bool_decide_unpack _). vm_compute. reflexivity.
  - apply (updateMessageCount_requests_eligible_only demo_script demo_config
             (world_init nothing_served) w' "c4" Hcycle).
    apply (bool_decide_unpack _). vm_compute. reflexivity.
Defined.
